(** * Structure identifiers of @synpatico/genome: a shallow embedding

    The development follows [src/index.ts] of the package: the per-level
    accumulation of [generateStructureId], the key-bit memo table, the
    collision counter, the three identity caches and the export/import
    of the naming state.  JavaScript values live in a heap of objects
    addressed by identity, so that shared and cyclic graphs, and the
    WeakMap caches keyed by identity, are modelled as the code has them.

    Conventions: a string is the sequence of its code units, compared
    unit by unit as [Array.prototype.sort] does; a bigint is a [Z]; the
    counts of the collision counter are integers, so the development
    covers the calls that are given integer counts, and the addition of
    numbers [currentCount + 1] of the code is the addition of integers
    on the counts from [-2^53] to [2^53 - 1] ([safe_count]); the module
    never writes to the objects it is given, so the heap is a parameter
    of the calls; the hash functions of [./hash] are parameters. *)

From Stdlib Require Import Ascii Floats.PrimFloat.
From stdpp Require Import gmap strings list fin_maps sorting pretty.

Local Open Scope Z_scope.

(** ** Host primitives *)

Module Js.

(** The error of the host that the code can raise: [BigInt] of a string
    that is no integer literal. *)
Inductive error : Type :=
  | SyntaxError.

(** *** Template literals, [join] and [split] *)

Definition join (sep : string) (parts : list string) : string :=
  String.concat sep parts.

(** [s.split(c)] for a one-character separator: the pieces between the
    occurrences of [c]; never the empty list. *)
Fixpoint split (c : ascii) (s : string) : list string :=
  match s with
  | EmptyString => [EmptyString]
  | String a rest =>
      if Ascii.eqb a c then EmptyString :: split c rest
      else match split c rest with
           | [] => [String a EmptyString]
           | piece :: pieces => String a piece :: pieces
           end
  end.

(** [l.slice(1)] *)
Definition slice1 {A} (l : list A) : list A := drop 1%nat l.

(** *** [BigInt(string)]: the StringToBigInt grammar *)

Definition is_white (a : ascii) : bool :=
  let n := Ascii.N_of_ascii a in
  ((9 <=? n) && (n <=? 13) || (n =? 32) || (n =? 160))%N.

Fixpoint trim_start (s : string) : string :=
  match s with
  | String a rest => if is_white a then trim_start rest else s
  | EmptyString => EmptyString
  end.

Fixpoint trim_end (s : string) : string :=
  match s with
  | String a rest =>
      match trim_end rest with
      | EmptyString => if is_white a then EmptyString else String a EmptyString
      | rest' => String a rest'
      end
  | EmptyString => EmptyString
  end.

Definition trim (s : string) : string := trim_end (trim_start s).

Definition digit_value (a : ascii) : option N :=
  let n := Ascii.N_of_ascii a in
  (if (48 <=? n) && (n <=? 57) then Some (n - 48)
   else if (97 <=? n) && (n <=? 122) then Some (n - 87)
   else if (65 <=? n) && (n <=? 90) then Some (n - 55)
   else None)%N.

(** Digits of radix [b], most significant first, after the value [acc]. *)
Fixpoint parse_radix (b acc : N) (s : string) : option N :=
  match s with
  | EmptyString => Some acc
  | String a rest =>
      match digit_value a with
      | Some d => if (d <? b)%N then parse_radix b (acc * b + d)%N rest else None
      | None => None
      end
  end.

(** At least one digit. *)
Definition parse_digits (b : N) (s : string) : option Z :=
  match s with
  | EmptyString => None
  | _ => Z.of_N <$> parse_radix b 0 s
  end.

(** [None] is the SyntaxError of the host. *)
Definition BigInt_of_string (s : string) : option Z :=
  match trim s with
  | EmptyString => Some 0
  | String "0"%char (String "x"%char r)
  | String "0"%char (String "X"%char r) => parse_digits 16 r
  | String "0"%char (String "o"%char r)
  | String "0"%char (String "O"%char r) => parse_digits 8 r
  | String "0"%char (String "b"%char r)
  | String "0"%char (String "B"%char r) => parse_digits 2 r
  | String "-"%char r => Z.opp <$> parse_digits 10 r
  | String "+"%char r => parse_digits 10 r
  | t => parse_digits 10 t
  end.

Fixpoint all_chars (P : ascii → bool) (s : string) : bool :=
  match s with
  | EmptyString => true
  | String a rest => P a && all_chars P rest
  end.

Definition is_decimal (a : ascii) : bool :=
  match digit_value a with Some d => (d <? 10)%N | None => false end.

(** [z.toString()] of a bigint and the decimal form of a non-negative
    integer number inside a template literal. *)
Definition toString (z : Z) : string := pretty z.
Definition natToString (n : nat) : string := pretty n.

(** *** [Array.prototype.sort] on strings: code-unit order *)

Definition sort (l : list string) : list string := merge_sort String.le l.

End Js.

(** ** Values and the heap *)

(** Object identity. *)
Definition addr : Type := nat.

(** A JavaScript value.  Scalars carry their data, which the code never
    inspects; records and sequences are references into the heap. *)
Inductive value : Type :=
  | VUndefined
  | VNull
  | VBoolean (b : bool)
  | VNumber (x : float)
  | VString (s : string)
  | VBigInt (z : Z)
  | VSymbol (description : string)
  | VFunction (name : string)
  | VRef (a : addr).

(** A heap object: an array with its elements, or any other object
    (plain, or of a foreign class such as Date or Map) with its own
    enumerable string-keyed properties in insertion order. *)
Inductive hobj : Type :=
  | HObject (class : string) (props : list (string * value))
  | HArray (elems : list value).

Abbreviation heap := (gmap addr hobj).

Definition typeof (v : value) : string :=
  match v with
  | VUndefined => "undefined"
  | VNull => "object"
  | VBoolean _ => "boolean"
  | VNumber _ => "number"
  | VString _ => "string"
  | VBigInt _ => "bigint"
  | VSymbol _ => "symbol"
  | VFunction _ => "function"
  | VRef _ => "object"
  end.

Definition is_null (v : value) : bool :=
  match v with VNull => true | _ => false end.

Definition is_undefined (v : value) : bool :=
  match v with VUndefined => true | _ => false end.

Definition isArray (h : heap) (v : value) : bool :=
  match v with
  | VRef a => match h !! a with Some (HArray _) => true | _ => false end
  | _ => false
  end.

(** [typeof x === "object" && x !== null && !Array.isArray(x)] *)
Definition isObject (h : heap) (x : value) : bool :=
  String.eqb (typeof x) "object" && negb (is_null x) && negb (isArray h x).

(** [Object.keys(x)] of a non-array object. *)
Definition keys (h : heap) (x : value) : list string :=
  match x with
  | VRef a => match h !! a with Some (HObject _ props) => props.*1 | _ => [] end
  | _ => []
  end.

Fixpoint assoc (key : string) (props : list (string * value)) : option value :=
  match props with
  | [] => None
  | (k, v) :: rest => if String.eqb k key then Some v else assoc key rest
  end.

(** [x[key]] of a non-array object. *)
Definition prop (h : heap) (x : value) (key : string) : value :=
  match x with
  | VRef a =>
      match h !! a with
      | Some (HObject _ props) => default VUndefined (assoc key props)
      | _ => VUndefined
      end
  | _ => VUndefined
  end.

(** The elements of an array, [x[0]], ..., [x[x.length - 1]]. *)
Definition elems (h : heap) (x : value) : list value :=
  match x with
  | VRef a => match h !! a with Some (HArray l) => l | _ => [] end
  | _ => []
  end.

(** ** Process-wide state *)

Record StructureIdConfig : Type := mkConfig {
  newIdOnCollision : option bool
}.

(** Truthiness of [config?.newIdOnCollision]. *)
Definition collisionMode (c : StructureIdConfig) : bool :=
  match newIdOnCollision c with Some true => true | _ => false end.

Record info : Type := mkInfo {
  info_id : string;
  info_levels : nat;
  info_collisionCount : Z
}.

Record state : Type := mkState {
  GLOBAL_KEY_MAP : gmap string Z;
  STRUCTURE_HASH_COUNTER : gmap string Z;
  OBJECT_ID_CACHE : gmap addr string;
  OBJECT_SIGNATURE_CACHE : gmap addr string;
  STRUCTURE_INFO_CACHE : gmap addr info;
  globalConfig : StructureIdConfig
}.

(** The state of a freshly loaded module. *)
Definition initial : state :=
  mkState ∅ ∅ ∅ ∅ ∅ (mkConfig (Some false)).

(** The counts on which [count + 1], an addition of numbers in the code,
    is the addition of integers: a number holds every integer from
    [-2^53] to [2^53], and [2^53 + 1] is rounded to [2^53]. *)
Definition safe_count (count : Z) : Prop := - 2 ^ 53 ≤ count < 2 ^ 53.

(** Every count that the Collision Counter holds is such a count. *)
Definition safe_counters (g : state) : Prop :=
  ∀ signature count, STRUCTURE_HASH_COUNTER g !! signature = Some count → safe_count count.

Definition set_GLOBAL_KEY_MAP (m : gmap string Z) (g : state) : state :=
  mkState m (STRUCTURE_HASH_COUNTER g) (OBJECT_ID_CACHE g)
    (OBJECT_SIGNATURE_CACHE g) (STRUCTURE_INFO_CACHE g) (globalConfig g).

Definition set_STRUCTURE_HASH_COUNTER (m : gmap string Z) (g : state) : state :=
  mkState (GLOBAL_KEY_MAP g) m (OBJECT_ID_CACHE g)
    (OBJECT_SIGNATURE_CACHE g) (STRUCTURE_INFO_CACHE g) (globalConfig g).

Definition set_OBJECT_ID_CACHE (m : gmap addr string) (g : state) : state :=
  mkState (GLOBAL_KEY_MAP g) (STRUCTURE_HASH_COUNTER g) m
    (OBJECT_SIGNATURE_CACHE g) (STRUCTURE_INFO_CACHE g) (globalConfig g).

Definition set_OBJECT_SIGNATURE_CACHE (m : gmap addr string) (g : state) : state :=
  mkState (GLOBAL_KEY_MAP g) (STRUCTURE_HASH_COUNTER g) (OBJECT_ID_CACHE g)
    m (STRUCTURE_INFO_CACHE g) (globalConfig g).

Definition set_STRUCTURE_INFO_CACHE (m : gmap addr info) (g : state) : state :=
  mkState (GLOBAL_KEY_MAP g) (STRUCTURE_HASH_COUNTER g) (OBJECT_ID_CACHE g)
    (OBJECT_SIGNATURE_CACHE g) m (globalConfig g).

Definition set_globalConfig (c : StructureIdConfig) (g : state) : state :=
  mkState (GLOBAL_KEY_MAP g) (STRUCTURE_HASH_COUNTER g) (OBJECT_ID_CACHE g)
    (OBJECT_SIGNATURE_CACHE g) (STRUCTURE_INFO_CACHE g) c.

(** ** Computations: state passing with host exceptions

    A call either returns, or raises a host error, in both cases with the
    state it leaves behind; [OutOfFuel] is the one outcome that is not a
    behaviour of the program but of the bounded recursion of the model. *)

Inductive outcome (St A : Type) : Type :=
  | Ok (a : A) (s : St)
  | Throw (e : Js.error) (s : St)
  | OutOfFuel.
Arguments Ok {St A} a s.
Arguments Throw {St A} e s.
Arguments OutOfFuel {St A}.

Definition M (St A : Type) : Type := St → outcome St A.

Definition ret {St A} (a : A) : M St A := λ s, Ok a s.

Definition bind {St A B} (m : M St A) (k : A → M St B) : M St B :=
  λ s, match m s with
       | Ok a s' => k a s'
       | Throw e s' => Throw e s'
       | OutOfFuel => OutOfFuel
       end.

Notation "'let*' x ':=' m 'in' k" := (bind m (λ x, k))
  (at level 10, x pattern, m at level 100, k at level 200,
   format "'[v' 'let*'  x  ':='  m  'in' '/' k ']'").
Notation "m ';;' k" := (bind m (λ _, k))
  (at level 100, k at level 200, right associativity).

Definition get {St} : M St St := λ s, Ok s s.
Definition modify {St} (f : St → St) : M St unit := λ s, Ok tt (f s).
Definition throw {St A} (e : Js.error) : M St A := λ s, Throw e s.

(** The value a call returns, if it returns. *)
Definition returned {St A} (o : outcome St A) : option A :=
  match o with Ok a _ => Some a | _ => None end.

(** The state a call leaves, whether it returns or raises. *)
Definition final {St A} (s0 : St) (o : outcome St A) : St :=
  match o with Ok _ s => s | Throw _ s => s | OutOfFuel => s0 end.

(** ** The engine *)

(** Bit flags of the JavaScript types. *)
Definition TYPE_BITS : gmap string Z :=
  list_to_map
    [ ("root", 0); ("number", 1); ("string", 2); ("boolean", 4);
      ("bigint", 8); ("null", 16); ("undefined", 32); ("symbol", 64);
      ("object", 128); ("array", 256) ].

(** [TYPE_BITS[t] || BigInt(0)]: a missing entry and the falsy [0n] both
    give [0n]. *)
Definition type_bit (t : string) : Z :=
  match TYPE_BITS !! t with
  | Some z => if z =? 0 then 0 else z
  | None => 0
  end.

(** The closure variables of one [generateStructureId] call, next to the
    process-wide state the traversal reaches through [getBit]. *)
Record trav : Type := mkTrav {
  globals : state;
  levelHashes : gmap nat Z;
  objectMap : gmap addr string
}.

Definition set_globals (g : state) (t : trav) : trav :=
  mkTrav g (levelHashes t) (objectMap t).
Definition set_levelHashes (lh : gmap nat Z) (t : trav) : trav :=
  mkTrav (globals t) lh (objectMap t).
Definition set_objectMap (om : gmap addr string) (t : trav) : trav :=
  mkTrav (globals t) (levelHashes t) om.

(** Runs a computation on the process-wide state from inside a call. *)
Definition global {A} (m : M state A) : M trav A :=
  λ t, match m (globals t) with
       | Ok a g => Ok a (set_globals g t)
       | Throw e g => Throw e (set_globals g t)
       | OutOfFuel => OutOfFuel
       end.

(** [for (const x of l) { body }] with the running index and the
    [multiplier] that the loops of [processStructure] increment. *)
Fixpoint for_each {St A} (body : nat → Z → A → M St unit)
    (i : nat) (multiplier : Z) (l : list A) : M St unit :=
  match l with
  | [] => ret tt
  | x :: rest =>
      body i multiplier x;;
      for_each body (S i) (multiplier + 1) rest
  end.

(** [for (const x of l) { body }] *)
Fixpoint for_of {St A} (body : A → M St unit) (l : list A) : M St unit :=
  match l with
  | [] => ret tt
  | x :: rest => body x;; for_of body rest
  end.

(** The level label [L<level>:<hash>] of an identifier. *)
Definition level_label (entry : nat * Z) : string :=
  "L" +:+ Js.natToString entry.1 +:+ ":" +:+ Js.toString entry.2.

Definition key_le (e1 e2 : nat * Z) : Prop := (e1.1 ≤ e2.1)%nat.

Global Instance key_le_dec e1 e2 : Decision (key_le e1 e2).
Proof. unfold key_le. apply _. Defined.

(** [Object.entries(levelHashes)]: integer keys come in ascending order. *)
Definition entries (lh : gmap nat Z) : list (nat * Z) :=
  merge_sort key_le (map_to_list lh).

(** [.sort(([a], [b]) => Number(a) - Number(b))] *)
Definition sort_levels (l : list (nat * Z)) : list (nat * Z) :=
  merge_sort key_le l.

(** The serialisable snapshot; the lists are the entries of the two plain
    objects in their enumeration order. *)
Record StructureState : Type := mkStructureState {
  keyMap : list (string * string);
  collisionCounters : list (string * Z)
}.

Section Engine.

(** The 32-bit hash of [./hash], which returns eight hexadecimal digits,
    and its digest; both are outside this module. *)
Variable xxHash32 : string → string.
Variable hash : string → string.

Variable h : heap.

(** [getBit]: the memoised bit of a key. *)
Definition getBit (key : string) : M state Z :=
  let* g := get in
  match GLOBAL_KEY_MAP g !! key with
  | Some bit => ret bit
  | None =>
      let hashResult := xxHash32 key in
      match Js.BigInt_of_string ("0x" +:+ hashResult) with
      | Some deterministicBit =>
          modify (set_GLOBAL_KEY_MAP (<[key := deterministicBit]> (GLOBAL_KEY_MAP g)));;
          ret deterministicBit
      | None => throw Js.SyntaxError
      end
  end.

Definition getType (value : value) : string :=
  if is_null value then "null"
  else if is_undefined value then "undefined"
  else if isArray h value then "array"
  else typeof value.

Definition getObjectSignature (obj : value) (path : list string) : string :=
  let type := if isArray h obj then "array" else "object" in
  if String.eqb type "object" then
    let keys := Js.join "," (Js.sort (keys h obj)) in
    Js.join "." path +:+ ".{" +:+ keys +:+ "}"
  else
    Js.join "." path +:+ ".[" +:+ Js.natToString (length (elems h obj)) +:+ "]".

(** [if (!levelHashes[level]) levelHashes[level] = BigInt(1) << BigInt(level)] *)
Definition seed (level : nat) : M trav unit :=
  modify (λ t,
    match levelHashes t !! level with
    | Some z => if z =? 0
                then set_levelHashes (<[level := Z.shiftl 1 (Z.of_nat level)]> (levelHashes t)) t
                else t
    | None => set_levelHashes (<[level := Z.shiftl 1 (Z.of_nat level)]> (levelHashes t)) t
    end).

(** [levelHashes[level] += x]; the entry exists, the call seeded it. *)
Definition add (level : nat) (x : Z) : M trav unit :=
  modify (λ t, set_levelHashes (alter (λ z, z + x) level (levelHashes t)) t).

Fixpoint processStructure (fuel : nat) (value : value) (level : nat)
    (path : list string) : M trav unit :=
  match fuel with
  | O => λ _, OutOfFuel
  | S fuel =>
      seed level;;
      let type := getType value in
      add level (type_bit type);;
      if negb (String.eqb type "object") && negb (String.eqb type "array") then ret tt
      else if isObject h value || isArray h value then
        match value with
        | VRef objValue =>
            let objSig := getObjectSignature value path in
            let* t := get in
            match objectMap t !! objValue with
            | Some circularPath =>
                let* bit := global (getBit ("circular:" +:+ circularPath)) in
                add level bit
            | None =>
                modify (λ t, set_objectMap (<[objValue := objSig]> (objectMap t)) t);;
                let* objTypeBit := global (getBit ("type:" +:+ type)) in
                add level objTypeBit;;
                let isRootLevel := Nat.eqb level 0 in
                let isEmpty :=
                  isObject h value && Nat.eqb (length (keys h value)) 0
                  || isArray h value && Nat.eqb (length (elems h value)) 0 in
                if negb isRootLevel || negb isEmpty then
                  if String.eqb type "object" then
                    let keys := Js.sort (keys h value) in
                    for_each (λ _ multiplier key,
                      let propType := getType (prop h value key) in
                      let* keyBit := global (getBit key) in
                      add level (keyBit * multiplier);;
                      add level (type_bit propType * multiplier);;
                      processStructure fuel (prop h value key) (level + 1) (path ++ [key]))
                      0%nat 1 keys
                  else if String.eqb type "array" then
                    let arrayValue := elems h value in
                    let* lengthBit :=
                      global (getBit ("length:" +:+ Js.natToString (length arrayValue))) in
                    add level lengthBit;;
                    for_each (λ i multiplier item,
                      let itemType := getType item in
                      let* indexBit := global (getBit ("[" +:+ Js.natToString i +:+ "]")) in
                      add level (indexBit * multiplier);;
                      add level (type_bit itemType * multiplier);;
                      processStructure fuel item (level + 1)
                        (path ++ ["[" +:+ Js.natToString i +:+ "]"]))
                      0%nat 1 arrayValue
                  else ret tt
                else ret tt
            end
        | _ => ret tt  (* only references pass the guard above *)
        end
      else ret tt
  end.

(** The levels above the root, as the labels of the signature. *)
Definition structureLevels (lh : gmap nat Z) : list string :=
  level_label <$>
    sort_levels (filter (λ e, (0 <? e.1)%nat = true) (entries lh)).

Definition idParts (lh : gmap nat Z) : list string :=
  level_label <$> sort_levels (entries lh).

(** The recursion of [processStructure] enters each object of the heap
    at most once per call, so a depth of one more than the number of
    objects is never exhausted ([traverse_during]), and any deeper bound
    gives the same traversal ([traverse_deeper]). *)
Definition depth_bound : nat := S (size h).

Definition generateStructureId (obj : value) (config : option StructureIdConfig)
    : M state string :=
  let emptyObj := isObject h obj && Nat.eqb (length (keys h obj)) 0 in
  let emptyArr := isArray h obj && Nat.eqb (length (elems h obj)) 0 in
  if emptyObj then ret "{}"
  else if emptyArr then ret "[]"
  else
    let* g := get in
    let effectiveConfig := default (globalConfig g) config in
    if negb (String.eqb (typeof obj) "object") || is_null obj then
      ret ("L0:" +:+ Js.toString (type_bit (typeof obj))
           +:+ "-L1:" +:+ Js.toString (type_bit (typeof obj)))
    else
    match obj with
    | VRef a =>
        match (if collisionMode effectiveConfig then None else OBJECT_ID_CACHE g !! a) with
        | Some cached => ret cached
        | None =>
            (* [objectMap] and [levelHashes] start empty and are dropped
               when the call ends *)
            λ g,
            match processStructure depth_bound obj 0 [] (mkTrav g ∅ ∅) with
            | OutOfFuel => OutOfFuel
            | Throw e t => Throw e (globals t)
            | Ok _ t =>
                (let levelHashes := levelHashes t in
                 let structureSignature := Js.join "-" (structureLevels levelHashes) in
                 modify (λ g, set_OBJECT_SIGNATURE_CACHE
                                (<[a := structureSignature]> (OBJECT_SIGNATURE_CACHE g)) g);;
                 let* g := get in
                 let currentCount := default 0 (STRUCTURE_HASH_COUNTER g !! structureSignature) in
                 let* levelHashes :=
                   if collisionMode effectiveConfig then
                     modify (set_STRUCTURE_HASH_COUNTER
                               (<[structureSignature := currentCount + 1]>
                                  (STRUCTURE_HASH_COUNTER g)));;
                     ret (<[0%nat := currentCount]> levelHashes)
                   else ret levelHashes in
                 let finalId := Js.join "-" (idParts levelHashes) in
                 (if collisionMode effectiveConfig then ret tt
                  else modify (λ g, set_OBJECT_ID_CACHE (<[a := finalId]> (OBJECT_ID_CACHE g)) g));;
                 modify (λ g, set_STRUCTURE_INFO_CACHE (delete a (STRUCTURE_INFO_CACHE g)) g);;
                 ret finalId) (globals t)
            end
        end
    | _ => ret EmptyString  (* not reached: an "object" that is not null is a reference *)
    end.

Definition calculateIdLevels (id : string) : nat :=
  length (Js.split "-" id).

(** [id.split("-").slice(1).join("-")] *)
Definition strip_L0 (id : string) : string :=
  Js.join "-" (Js.slice1 (Js.split "-" id)).

Definition getStructureSignature (obj : value) : M state string :=
  if negb (String.eqb (typeof obj) "object") || is_null obj then
    ret ("type:" +:+ typeof obj)
  else
  match obj with
  | VRef a =>
      let* g := get in
      match OBJECT_SIGNATURE_CACHE g !! a with
      | Some cached => ret cached
      | None =>
          let* tempId := generateStructureId obj (Some (mkConfig (Some false))) in
          let signature := strip_L0 tempId in
          modify (λ g, set_OBJECT_SIGNATURE_CACHE
                         (<[a := signature]> (OBJECT_SIGNATURE_CACHE g)) g);;
          ret signature
      end
  | _ => ret EmptyString  (* not reached *)
  end.

Definition registerStructure (obj : value) (collisionCount : Z) : M state unit :=
  let* signature := getStructureSignature obj in
  modify (λ g, set_STRUCTURE_HASH_COUNTER
                 (<[signature := collisionCount]> (STRUCTURE_HASH_COUNTER g)) g).

Definition registerStructures (registrations : list (value * Z)) : M state unit :=
  for_of (λ r, registerStructure r.1 r.2) registrations.

Definition registerStructureSignatures (signatures : list (string * Z)) : M state unit :=
  for_of (λ r, modify (λ g, set_STRUCTURE_HASH_COUNTER
                              (<[r.1 := r.2]> (STRUCTURE_HASH_COUNTER g)) g))
    signatures.

Definition getStructureInfo (obj : value) (config : option StructureIdConfig)
    : M state info :=
  let* g := get in
  let effectiveConfig := default (globalConfig g) config in
  if negb (String.eqb (typeof obj) "object") || is_null obj then
    let* id := generateStructureId obj (Some (mkConfig (Some false))) in
    ret (mkInfo id (calculateIdLevels id) 0)
  else
  match obj with
  | VRef a =>
      match STRUCTURE_INFO_CACHE g !! a with
      | Some cached => ret cached
      | None =>
          let* structureSignature :=
            match OBJECT_SIGNATURE_CACHE g !! a with
            | Some cached => ret cached
            | None =>
                let* id := generateStructureId obj (Some (mkConfig (Some false))) in
                ret (strip_L0 id)
            end in
          let* g := get in
          (* [get(structureSignature) || 0] *)
          let collisionCount := default 0 (STRUCTURE_HASH_COUNTER g !! structureSignature) in
          let* id :=
            if collisionMode effectiveConfig then
              let l0Hash := collisionCount in
              let l0Part := "L0:" +:+ Js.toString l0Hash in
              ret (Js.join "-" [l0Part; structureSignature])
            else
              match OBJECT_ID_CACHE g !! a with
              | Some cached => ret cached
              | None => generateStructureId obj (Some (mkConfig (Some false)))
              end in
          let levels := calculateIdLevels id in
          let result := mkInfo id levels collisionCount in
          modify (λ g, set_STRUCTURE_INFO_CACHE (<[a := result]> (STRUCTURE_INFO_CACHE g)) g);;
          ret result
      end
  | _ => ret (mkInfo EmptyString 0 0)  (* not reached *)
  end.

Definition setStructureIdConfig (config : StructureIdConfig) : M state unit :=
  modify (set_globalConfig config).

Definition getStructureIdConfig : M state StructureIdConfig :=
  let* g := get in ret (globalConfig g).

Definition resetState : M state unit :=
  modify (λ g, mkState ∅ ∅ ∅ ∅ ∅ (globalConfig g)).

(** [record[key] = value] on a plain object, for a value that is no
    object: the key ["__proto__"] names the accessor that the object
    inherits from [Object.prototype], whose setter ignores such a value,
    and no property is stored; every other key gets an own property. *)
Definition assign {V} (record : gmap string V) (key : string) (value : V)
    : gmap string V :=
  if String.eqb key "__proto__" then record else <[key := value]> record.

(** The two Maps are enumerated in an order the snapshot does not
    depend on otherwise; the snapshot holds the entries of the two plain
    objects that the loops fill. *)
Definition exportStructureState : M state StructureState :=
  let* g := get in
  let keyMap :=
    foldl (λ keyMap e, assign keyMap e.1 (Js.toString e.2)) ∅
      (map_to_list (GLOBAL_KEY_MAP g)) in
  let collisionCounters :=
    foldl (λ collisionCounters e, assign collisionCounters e.1 e.2) ∅
      (map_to_list (STRUCTURE_HASH_COUNTER g)) in
  ret (mkStructureState (map_to_list keyMap) (map_to_list collisionCounters)).

(** [BigInt(valueStr)] *)
Definition BigInt (valueStr : string) : M state Z :=
  match Js.BigInt_of_string valueStr with
  | Some z => ret z
  | None => throw Js.SyntaxError
  end.

(** [GLOBAL_KEY_MAP.set(key, BigInt(valueStr))] *)
Definition import_key (e : string * string) : M state unit :=
  let* bit := BigInt e.2 in
  modify (λ g, set_GLOBAL_KEY_MAP (<[e.1 := bit]> (GLOBAL_KEY_MAP g)) g).

(** [STRUCTURE_HASH_COUNTER.set(signature, count)] *)
Definition import_counter (e : string * Z) : M state unit :=
  modify (λ g, set_STRUCTURE_HASH_COUNTER (<[e.1 := e.2]> (STRUCTURE_HASH_COUNTER g)) g).

Definition importStructureState (st : StructureState) : M state unit :=
  resetState;;
  for_of import_key (keyMap st);;
  for_of import_counter (collisionCounters st);;
  (* the maximum of the imported bits is computed and dropped *)
  for_of (λ bitStr, let* bit := BigInt bitStr in ret tt) (keyMap st).*2.

Definition getCompactId (obj : value) (config : option StructureIdConfig) : M state string :=
  let* fullId := generateStructureId obj config in
  ret (hash fullId).

(** [info.id = hash(info.id)] writes into the bundle that
    [getStructureInfo] returned, which for a reference is the very
    object held by [STRUCTURE_INFO_CACHE]. *)
Definition getCompactInfo (obj : value) (config : option StructureIdConfig) : M state info :=
  let* info := getStructureInfo obj config in
  let info' := mkInfo (hash (info_id info)) (info_levels info) (info_collisionCount info) in
  match obj with
  | VRef a =>
      modify (λ g, set_STRUCTURE_INFO_CACHE (<[a := info']> (STRUCTURE_INFO_CACHE g)) g);;
      ret info'
  | _ => ret info'
  end.

(** *** The public operations as calls, and the states they reach *)

Inductive call : Type :=
  | CallGenerateStructureId (obj : value) (config : option StructureIdConfig)
  | CallGetStructureSignature (obj : value)
  | CallRegisterStructure (obj : value) (collisionCount : Z)
  | CallRegisterStructures (registrations : list (value * Z))
  | CallRegisterStructureSignatures (signatures : list (string * Z))
  | CallGetStructureInfo (obj : value) (config : option StructureIdConfig)
  | CallSetStructureIdConfig (config : StructureIdConfig)
  | CallGetStructureIdConfig
  | CallResetState
  | CallExportStructureState
  | CallImportStructureState (st : StructureState)
  | CallGetCompactId (obj : value) (config : option StructureIdConfig)
  | CallGetCompactInfo (obj : value) (config : option StructureIdConfig).

(** The state a call leaves behind, whether it returns or raises. *)
Definition perform (c : call) (g : state) : state :=
  match c with
  | CallGenerateStructureId obj config => final g (generateStructureId obj config g)
  | CallGetStructureSignature obj => final g (getStructureSignature obj g)
  | CallRegisterStructure obj n => final g (registerStructure obj n g)
  | CallRegisterStructures l => final g (registerStructures l g)
  | CallRegisterStructureSignatures l => final g (registerStructureSignatures l g)
  | CallGetStructureInfo obj config => final g (getStructureInfo obj config g)
  | CallSetStructureIdConfig config => final g (setStructureIdConfig config g)
  | CallGetStructureIdConfig => final g (getStructureIdConfig g)
  | CallResetState => final g (resetState g)
  | CallExportStructureState => final g (exportStructureState g)
  | CallImportStructureState st => final g (importStructureState st g)
  | CallGetCompactId obj config => final g (getCompactId obj config g)
  | CallGetCompactInfo obj config => final g (getCompactInfo obj config g)
  end.

(** The states of a process that only calls the public operations, on
    values of the heap [h]. *)
Inductive reachable : state → Prop :=
  | reachable_initial : reachable initial
  | reachable_perform c g : reachable g → reachable (perform c g).

End Engine.

(** ** Shapes

    Two values have the same shape when a correspondence between the
    objects reachable from them matches records with records on the same
    key set, whatever the order of insertion, arrays with arrays of the
    same length, and children of the same type, and matches two
    occurrences of one object with two occurrences of one object. *)

Section Shape.

Variable h : heap.
Variable R : addr → addr → Prop.

Definition val_rel (v1 v2 : value) : Prop :=
  match v1, v2 with
  | VRef a, VRef b => R a b
  | VRef _, _ | _, VRef _ => False
  | _, _ => getType h v1 = getType h v2
  end.

Definition obj_rel (o1 o2 : option hobj) : Prop :=
  match o1, o2 with
  | Some (HObject _ props1), Some (HObject _ props2) =>
      props1.*1 ≡ₚ props2.*1
      ∧ ∀ key, key ∈ props1.*1 →
          val_rel (default VUndefined (assoc key props1))
                  (default VUndefined (assoc key props2))
  | Some (HArray l1), Some (HArray l2) => Forall2 val_rel l1 l2
  | None, None => True
  | _, _ => False
  end.

Record shape_correspondence : Prop := {
  shape_functional : ∀ a b b', R a b → R a b' → b = b';
  shape_injective : ∀ a a' b, R a b → R a' b → a = a';
  shape_objects : ∀ a b, R a b → obj_rel (h !! a) (h !! b)
}.

End Shape.

(** ** Property names

    [holds_key h key v]: a record that is reached from [v], through
    properties and elements, has an own property named [key]. *)

Section Holds.
Variable h : heap.

Inductive holds_key (key : string) : value → Prop :=
  | holds_own a class props :
      h !! a = Some (HObject class props) → key ∈ props.*1 →
      holds_key key (VRef a)
  | holds_prop a class props k :
      h !! a = Some (HObject class props) → k ∈ props.*1 →
      holds_key key (prop h (VRef a) k) →
      holds_key key (VRef a)
  | holds_elem a l item :
      h !! a = Some (HArray l) → item ∈ l →
      holds_key key item →
      holds_key key (VRef a).

(** The property names of a value are in [K]. *)
Definition named_in (K : string → Prop) (v : value) : Prop :=
  ∀ key, holds_key key v → K key.

End Holds.

(** ** What [importStructureState] stores *)

(** [m.set(k, v)] for the entries of a list, in order. *)
Definition store_all {V} (l : list (string * V)) (m : gmap string V) : gmap string V :=
  foldl (λ m e, <[e.1 := e.2]> m) m l.

(** The entries of a [keyMap] that [BigInt] reads, up to the first one
    it rejects, and whether it read them all. *)
Fixpoint parse_entries (l : list (string * string)) : list (string * Z) * bool :=
  match l with
  | [] => ([], true)
  | e :: rest =>
      match Js.BigInt_of_string e.2 with
      | Some bit => let (good, complete) := parse_entries rest in ((e.1, bit) :: good, complete)
      | None => ([], false)
      end
  end.

(** ** Specifications of computations *)

(** [triple P m Q T]: from a state in [P], [m] does not exhaust the
    recursion bound; it returns in [Q] or raises in [T]. *)
Definition triple {St A} (P : St → Prop) (m : M St A)
    (Q : A → St → Prop) (T : St → Prop) : Prop :=
  ∀ s, P s →
    match m s with
    | Ok a s' => Q a s'
    | Throw _ s' => T s'
    | OutOfFuel => False
    end.

(** [related I m1 m2 Q]: from states related by [I], the two computations
    have the same kind of outcome, in states related by [I], with
    results related by [Q]. *)
Definition related {St A B} (I : St → St → Prop) (m1 : M St A) (m2 : M St B)
    (Q : A → B → Prop) : Prop :=
  ∀ s1 s2, I s1 s2 →
    match m1 s1, m2 s2 with
    | Ok a s1', Ok b s2' => Q a b ∧ I s1' s2'
    | Throw e1 s1', Throw e2 s2' => e1 = e2 ∧ I s1' s2'
    | OutOfFuel, OutOfFuel => True
    | _, _ => False
    end.

(** [refines m1 m2]: [m2] does what [m1] does, wherever [m1] does not
    exhaust the recursion bound. *)
Definition refines {St A} (m1 m2 : M St A) : Prop :=
  ∀ s, m1 s ≠ OutOfFuel → m2 s = m1 s.

(** [ensures P m Q]: when [m] returns from a state in [P], it is in [Q]. *)
Definition ensures {St A} (P : St → Prop) (m : M St A) (Q : St → Prop) : Prop :=
  ∀ s a s', P s → m s = Ok a s' → Q s'.

Section Bits.

Variable xxHash32 : string → string.

(** The contract of the hash: eight hexadecimal digits, which
    [BigInt] reads after the prefix [0x]. *)
Definition hash_contract : Prop :=
  ∀ key, is_Some (Js.BigInt_of_string ("0x" +:+ xxHash32 key)).

(** The bit that [getBit] answers for a key under a given memo table. *)
Definition bitOf (km : gmap string Z) (key : string) : option Z :=
  match km !! key with
  | Some bit => Some bit
  | None => Js.BigInt_of_string ("0x" +:+ xxHash32 key)
  end.

Definition keys_agree (km1 km2 : gmap string Z) : Prop :=
  ∀ key, bitOf km1 key = bitOf km2 key.

(** Two memo tables that answer alike for the keys in [K]. *)
Definition keys_agree_on (K : string → Prop) (km1 km2 : gmap string Z) : Prop :=
  ∀ key, K key → bitOf km1 key = bitOf km2 key.

(** Nothing but the memo table differs. *)
Definition same_but_keys (g1 g2 : state) : Prop :=
  STRUCTURE_HASH_COUNTER g1 = STRUCTURE_HASH_COUNTER g2
  ∧ OBJECT_ID_CACHE g1 = OBJECT_ID_CACHE g2
  ∧ OBJECT_SIGNATURE_CACHE g1 = OBJECT_SIGNATURE_CACHE g2
  ∧ STRUCTURE_INFO_CACHE g1 = STRUCTURE_INFO_CACHE g2
  ∧ globalConfig g1 = globalConfig g2.

Variable h : heap.

(** The traversal of one call, from empty closure variables. *)
Definition traverse (g : state) (obj : value) : outcome trav unit :=
  processStructure xxHash32 h (depth_bound h) obj 0 [] (mkTrav g ∅ ∅).

Definition levels (g : state) (obj : value) : option (gmap nat Z) :=
  match traverse g obj with
  | Ok _ t => Some (levelHashes t)
  | _ => None
  end.

(** The structural signature that a call computes for [obj]. *)
Definition signatureOf (g : state) (obj : value) : option string :=
  (λ lh, Js.join "-" (structureLevels lh)) <$> levels g obj.

(** The identifier that a stable-mode call computes for [obj]. *)
Definition stableIdOf (g : state) (obj : value) : option string :=
  (λ lh, Js.join "-" (idParts lh)) <$> levels g obj.

(** Every cached identifier is the one a traversal computes now. *)
Definition cache_consistent (g : state) : Prop :=
  ∀ a id, OBJECT_ID_CACHE g !! a = Some id → stableIdOf g (VRef a) = Some id.

(** The values that reach the traversal: references to a record with a
    property or to an array with an element. *)
Definition traversed (obj : value) : bool :=
  match obj with
  | VRef a =>
      match h !! a with
      | Some (HObject _ props) => negb (Nat.eqb (length props) 0)
      | Some (HArray l) => negb (Nat.eqb (length l) 0)
      | None => false
      end
  | _ => false
  end.

(** The answer to a value that does not reach the traversal. *)
Definition fixed_id (obj : value) : string :=
  match obj with
  | VRef a =>
      match h !! a with
      | Some (HArray _) => "[]"
      | _ => "{}"
      end
  | _ => "L0:" +:+ Js.toString (type_bit (typeof obj))
         +:+ "-L1:" +:+ Js.toString (type_bit (typeof obj))
  end.

(** The objects of the heap that the cycle tracker has not seen. *)
Definition unvisited (om : gmap addr string) : nat :=
  size (dom h ∖ dom om).

(** During the traversal of a call that started in [g0]: the memo
    table answers as it did, nothing else of the process-wide state has
    changed, and the cycle tracker satisfies [P]. *)
Definition during (g0 : state) (P : gmap addr string → Prop) (t : trav) : Prop :=
  keys_agree (GLOBAL_KEY_MAP g0) (GLOBAL_KEY_MAP (globals t))
  ∧ same_but_keys g0 (globals t)
  ∧ P (objectMap t).

(** A traversal only raises when the hash breaks its contract. *)
Definition raised (g0 : state) (t : trav) : Prop :=
  keys_agree (GLOBAL_KEY_MAP g0) (GLOBAL_KEY_MAP (globals t))
  ∧ same_but_keys g0 (globals t)
  ∧ ¬ hash_contract.

(** The states of two traversals in step: the same accumulators, memo
    tables that answer alike, and cycle trackers that hold the same
    label for corresponding objects. *)
Definition trav_rel (R : addr → addr → Prop) (t1 t2 : trav) : Prop :=
  levelHashes t1 = levelHashes t2
  ∧ keys_agree (GLOBAL_KEY_MAP (globals t1)) (GLOBAL_KEY_MAP (globals t2))
  ∧ ∀ a b, R a b → objectMap t1 !! a = objectMap t2 !! b.

(** The states of two traversals of one value, from memo tables that
    answer alike for the keys in [K]. *)
Definition trav_on (K : string → Prop) (t1 t2 : trav) : Prop :=
  levelHashes t1 = levelHashes t2
  ∧ keys_agree_on K (GLOBAL_KEY_MAP (globals t1)) (GLOBAL_KEY_MAP (globals t2))
  ∧ objectMap t1 = objectMap t2.

Definition has_level (k : nat) (t : trav) : Prop := k ∈ dom (levelHashes t).

(** The identifier of a call in disambiguating mode, from the
    accumulators of the traversal and the counters of the state. *)
Definition countedId (counters : gmap string Z) (lh : gmap nat Z) : string :=
  Js.join "-" (idParts
    (<[0%nat := default 0 (counters !! Js.join "-" (structureLevels lh))]> lh)).

(** The identifier that disambiguating mode gives the [count]-th value
    of a signature. *)
Definition numbered (signature : string) (count : nat) : string :=
  "L0:" +:+ Js.toString (Z.of_nat count) +:+ "-" +:+ signature.

(** Successive calls, each with its own per-call configuration. *)
Fixpoint generateMany (calls : list (value * option StructureIdConfig))
    : M state (list string) :=
  match calls with
  | [] => ret []
  | c :: rest =>
      let* id := generateStructureId xxHash32 h c.1 c.2 in
      let* ids := generateMany rest in
      ret (id :: ids)
  end.

(** Two states that a call of [generateStructureId] answers alike, on
    a value whose property names are in [K]: what the identity caches
    hold may differ, what the memo tables hold under other keys, and
    what the Collision Counters hold under ["__proto__"], which is no
    signature. *)
Definition same_answers (K : string → Prop) (g1 g2 : state) : Prop :=
  keys_agree_on K (GLOBAL_KEY_MAP g1) (GLOBAL_KEY_MAP g2)
  ∧ (∀ signature, signature ≠ "__proto__" →
       STRUCTURE_HASH_COUNTER g1 !! signature = STRUCTURE_HASH_COUNTER g2 !! signature)
  ∧ globalConfig g1 = globalConfig g2
  ∧ cache_consistent g1 ∧ cache_consistent g2.

End Bits.

(** ** Histories *)

Definition is_import (c : call) : bool :=
  match c with CallImportStructureState _ => true | _ => false end.

(** Whether a computation returned. *)
Definition completed {St A} (o : outcome St A) : bool :=
  match o with Ok _ _ => true | _ => false end.

Section Histories.
Variable xxHash32 : string → string.
Variable hash : string → string.
Variable h : heap.

(** Whether a call returns, rather than raises. *)
Definition completes (c : call) (g : state) : bool :=
  match c with
  | CallGenerateStructureId obj config => completed (generateStructureId xxHash32 h obj config g)
  | CallGetStructureSignature obj => completed (getStructureSignature xxHash32 h obj g)
  | CallRegisterStructure obj n => completed (registerStructure xxHash32 h obj n g)
  | CallRegisterStructures l => completed (registerStructures xxHash32 h l g)
  | CallRegisterStructureSignatures l => completed (registerStructureSignatures l g)
  | CallGetStructureInfo obj config => completed (getStructureInfo xxHash32 h obj config g)
  | CallSetStructureIdConfig config => completed (setStructureIdConfig config g)
  | CallGetStructureIdConfig => completed (getStructureIdConfig g)
  | CallResetState => completed (resetState g)
  | CallExportStructureState => completed (exportStructureState g)
  | CallImportStructureState st => completed (importStructureState st g)
  | CallGetCompactId obj config => completed (getCompactId xxHash32 hash h obj config g)
  | CallGetCompactInfo obj config => completed (getCompactInfo xxHash32 hash h obj config g)
  end.

(** The operations that neither reset, import nor configure. *)
Definition keeps_table (c : call) : bool :=
  match c with
  | CallResetState | CallImportStructureState _ | CallSetStructureIdConfig _ => false
  | _ => true
  end.

(** The states of a process that only makes calls that are [allowed]. *)
Inductive reachable_by (allowed : call → Prop) : state → Prop :=
  | reachable_by_initial : reachable_by allowed initial
  | reachable_by_perform c g :
      allowed c → reachable_by allowed g →
      reachable_by allowed (perform xxHash32 hash h c g).

(** The memo table answers every key as a fresh one would: it holds
    nothing but what the hash gives. *)
Definition honest (g : state) : Prop :=
  keys_agree xxHash32 ∅ (GLOBAL_KEY_MAP g).

(** Since [g0], the memo table answers as it did and the configuration
    is what it was. *)
Definition steady (g0 g : state) : Prop :=
  keys_agree xxHash32 (GLOBAL_KEY_MAP g0) (GLOBAL_KEY_MAP g)
  ∧ globalConfig g = globalConfig g0.

Definition broken (g0 g : state) : Prop :=
  steady g0 g ∧ ¬ hash_contract xxHash32.

End Histories.

(** ** Partial specifications *)

(** [hoare P m Q T]: when [m] returns from a state in [P], it is in [Q],
    and when it raises, in [T]. *)
Definition hoare {St A} (P : St → Prop) (m : M St A)
    (Q : A → St → Prop) (T : St → Prop) : Prop :=
  ∀ s, P s →
    match m s with
    | Ok a s' => Q a s'
    | Throw _ s' => T s'
    | OutOfFuel => True
    end.

(** ** The text of an identifier *)

Definition no_dash (s : string) : bool :=
  Js.all_chars (λ a, negb (Ascii.eqb a "-")) s.

(** ** Key bits that are no negative numbers *)

Definition nonneg_keys (g : state) : Prop :=
  ∀ key bit, GLOBAL_KEY_MAP g !! key = Some bit → 0 ≤ bit.

Definition nonneg (t : trav) : Prop :=
  nonneg_keys (globals t) ∧ ∀ level z, levelHashes t !! level = Some z → 0 ≤ z.

(** An import that brings no negative key bit. *)
Definition nonneg_import (c : call) : Prop :=
  match c with
  | CallImportStructureState st =>
      ∀ e bit, e ∈ keyMap st → Js.BigInt_of_string e.2 = Some bit → 0 ≤ bit
  | _ => True
  end.

Section Coherence.
Variable xxHash32 : string → string.
Variable h : heap.

(** Every cached signature is the one a traversal computes now, and the
    empty string for an object that is not traversed. *)
Definition signature_coherent (g : state) : Prop :=
  ∀ a s, OBJECT_SIGNATURE_CACHE g !! a = Some s →
    if traversed h (VRef a) then signatureOf xxHash32 h g (VRef a) = Some s
    else s = EmptyString.

(** Only objects that are traversed have a cached identifier. *)
Definition cached_are_traversed (g : state) : Prop :=
  ∀ a id, OBJECT_ID_CACHE g !! a = Some id → traversed h (VRef a) = true.

Definition coherent (g : state) : Prop :=
  nonneg_keys g ∧ cache_consistent xxHash32 h g ∧ signature_coherent g
  ∧ cached_are_traversed g.

End Coherence.

(** ** Flat objects *)

Definition is_reference (v : value) : bool :=
  match v with VRef _ => true | _ => false end.

(** The values that an object holds: those of its properties, in the
    order of insertion, or its elements. *)
Definition child_values (h : heap) (a : addr) : list value :=
  match h !! a with
  | Some (HObject _ props) => props.*2
  | Some (HArray l) => l
  | None => []
  end.

(** An object that holds a value, and no reference. *)
Definition flat (h : heap) (a : addr) : bool :=
  negb (Nat.eqb (length (child_values h a)) 0)
  && forallb (λ v, negb (is_reference v)) (child_values h a).

(** The sum of the type bits of a list of values. *)
Definition type_bits_sum (h : heap) (vs : list value) : Z :=
  foldr (λ v s, type_bit (getType h v) + s) 0 vs.

(** The accumulator of level 1 while the children of the root are
    visited: seeded with [1 << 1] by the first, and increased by the type
    bit of each. *)
Definition accumulate (h : heap) (acc : option Z) (vs : list value) : option Z :=
  foldl (λ acc v, Some (default 2 acc + type_bit (getType h v))) acc vs.

(** The accumulators above level 0, during the visit of the children of
    a flat root. *)
Definition level_1_is (acc : option Z) (t : trav) : Prop :=
  levelHashes t !! 1%nat = acc ∧ ∀ k, (2 ≤ k)%nat → levelHashes t !! k = None.

(** An accumulator that was seeded is at least [1 << 1]. *)
Definition seeded (acc : option Z) : Prop := ∀ z, acc = Some z → 2 ≤ z.

(** The children of an object in the order in which the traversal
    visits them. *)
Definition visited_values (h : heap) (a : addr) : list value :=
  match h !! a with
  | Some (HObject _ props) => prop h (VRef a) <$> Js.sort props.*1
  | Some (HArray l) => l
  | None => []
  end.

(** ** The levels of an identifier *)

(** The labels [L0:v0], [L1:v1], ... of the accumulators of the levels
    0, 1, ... *)
Definition labels (vs : list Z) : list string :=
  level_label <$> zip (seq 0 (length vs)) vs.

(** Accumulators without a gap between the levels. *)
Definition closed_levels (lh : gmap nat Z) : Prop :=
  ∀ level, S level ∈ dom lh → level ∈ dom lh.

(** The accumulators of a map without a gap, from level 0 on. *)
Definition accumulators (lh : gmap nat Z) : list Z :=
  (λ level, default 0 (lh !! level)) <$> seq 0 (size lh).

(** ** The accumulator of level 0 of a flat object *)

(** The sum that a loop of [processStructure] adds to the accumulator
    of its level: each term times the multiplier of its turn. *)
Fixpoint weighted {A} (term : nat → A → Z) (i : nat) (multiplier : Z) (l : list A) : Z :=
  match l with
  | [] => 0
  | x :: rest => term i x * multiplier + weighted term (S i) (multiplier + 1) rest
  end.

Section Level0.
Variable xxHash32 : string → string.
Variable h : heap.

(** The bit that [getBit] answers for a key in a state; 0 stands for
    the error of a hash that breaks its contract. *)
Definition keyBit (g : state) (key : string) : Z :=
  default 0 (bitOf xxHash32 (GLOBAL_KEY_MAP g) key).

(** The accumulator of level 0 after the traversal of a flat object:
    the seed [1 << 0], the bit of the type, the bit of ["type:object"] or
    ["type:array"], for an array the bit of its length, and for each key
    in sorted order, or each index, its bit and the type bit of its
    value, times its rank. *)
Definition flat_level_0 (g : state) (a : addr) : Z :=
  match h !! a with
  | Some (HObject _ props) =>
      1 + 128 + keyBit g "type:object"
      + weighted (λ _ key, keyBit g key + type_bit (getType h (prop h (VRef a) key)))
          0 1 (Js.sort props.*1)
  | Some (HArray l) =>
      1 + 256 + keyBit g "type:array"
      + keyBit g ("length:" +:+ Js.natToString (length l))
      + weighted (λ i item, keyBit g ("[" +:+ Js.natToString i +:+ "]")
                            + type_bit (getType h item))
          0 1 l
  | None => 0
  end.

(** The accumulator of level 0 during a traversal that started in
    [g0], whose memo table answers as it did. *)
Definition level_0_is (g0 : state) (z : Z) (t : trav) : Prop :=
  levelHashes t !! 0%nat = Some z
  ∧ keys_agree xxHash32 (GLOBAL_KEY_MAP g0) (GLOBAL_KEY_MAP (globals t)).

End Level0.

(** ** Sample data

    A stand-in for the hash that respects its contract, and small heaps,
    on which the statements below are checked by evaluation. *)

Definition sample_hash (key : string) : string :=
  match (String.length key mod 4)%nat with
  | 0%nat => "0badc0de"
  | 1%nat => "00000001"
  | 2%nat => "7fffffff"
  | _ => "deadbeef"
  end.

Definition sample_digest (s : string) : string := s.

(** [{a: 1, b: 2}] at 1, [{b: 2, a: 1}] at 2, a record that holds itself
    at 3, an array that holds the first record twice at 4, an empty
    record at 5 and [{s: Symbol()}] at 6. *)
Definition sample_heap : heap :=
  list_to_map
    [ (1%nat, HObject "Object" [("a", VNumber 1); ("b", VNumber 2)]);
      (2%nat, HObject "Object" [("b", VNumber 2); ("a", VNumber 1)]);
      (3%nat, HObject "Object" [("name", VString "circular"); ("self", VRef 3%nat)]);
      (4%nat, HArray [VNumber 1; VRef 1%nat; VRef 1%nat]);
      (5%nat, HObject "Object" []);
      (6%nat, HObject "Object" [("s", VSymbol "s")]) ].

(** The first record corresponds to the second. *)
Definition sample_shape (a b : addr) : Prop := a = 1%nat ∧ b = 2%nat.

Definition disambiguating : option StructureIdConfig := Some (mkConfig (Some true)).
Definition stable : option StructureIdConfig := Some (mkConfig (Some false)).

(** The state after one call on the first record. *)
Definition after_one_call : state :=
  perform sample_hash sample_digest sample_heap
    (CallGenerateStructureId (VRef 1%nat) None) initial.

(** The state after an import of one key and one counter. *)
Definition imported : state :=
  perform sample_hash sample_digest sample_heap
    (CallImportStructureState (mkStructureState [("a", "1")] [("L1:4", 3)])) initial.

(** The state after the bundle of the first record is asked for and its
    structure is then registered with the count 5. *)
Definition registered : state :=
  perform sample_hash sample_digest sample_heap (CallRegisterStructure (VRef 1%nat) 5)
    (perform sample_hash sample_digest sample_heap
       (CallGetStructureInfo (VRef 1%nat) None) initial).

(** A digest that marks its argument, which tells one application from
    two. *)
Definition sample_mark (s : string) : string := "#" +:+ s.

(** Two arrays of one shape: [[1, "a"]] at 1 and [[2, "b"]] at 2. *)
Definition sample_arrays : heap :=
  list_to_map
    [ (1%nat, HArray [VNumber 1; VString "a"]);
      (2%nat, HArray [VNumber 2; VString "b"]) ].

(** A record with one child under two keys at 1, and a record with two
    children of that shape at 2: [{x: c, y: c}] and [{y: e, x: d}] with
    [c], [d] and [e] all [{v: 1}]. *)
Definition sample_sharing : heap :=
  list_to_map
    [ (1%nat, HObject "Object" [("x", VRef 3%nat); ("y", VRef 3%nat)]);
      (2%nat, HObject "Object" [("y", VRef 5%nat); ("x", VRef 4%nat)]);
      (3%nat, HObject "Object" [("v", VNumber 1)]);
      (4%nat, HObject "Object" [("v", VNumber 1)]);
      (5%nat, HObject "Object" [("v", VNumber 1)]) ].

(** A record with an own property named ["__proto__"], as
    [JSON.parse] makes them, and the state after the import of a bit for
    that key and a call on the record. *)
Definition sample_proto : heap :=
  list_to_map [ (1%nat, HObject "Object" [("__proto__", VNumber 1)]) ].

Definition proto_imported : state :=
  perform sample_hash sample_digest sample_proto
    (CallGenerateStructureId (VRef 1%nat) None)
    (perform sample_hash sample_digest sample_proto
       (CallImportStructureState (mkStructureState [("__proto__", "7")] [])) initial).

(** * Proofs *)

(** ** Host primitives *)

Module JsFacts.
Import Js.


Lemma decimal_not_white a : is_decimal a = true → is_white a = false.
Proof. destruct a as [[] [] [] [] [] [] [] []]; by vm_compute. Qed.

Lemma pretty_N_char_decimal d : is_decimal (pretty_N_char d) = true.
Proof. unfold pretty_N_char. by repeat case_match. Qed.

Lemma digit_value_pretty d : (d < 10)%N → digit_value (pretty_N_char d) = Some d.
Proof.
  intros Hd.
  assert (d = 0 ∨ d = 1 ∨ d = 2 ∨ d = 3 ∨ d = 4 ∨ d = 5 ∨ d = 6 ∨ d = 7
          ∨ d = 8 ∨ d = 9)%N as Hcases by lia.
  by repeat (destruct Hcases as [->|Hcases]); subst.
Qed.

Lemma pretty_N_go_decimal x s :
  all_chars is_decimal s = true → all_chars is_decimal (pretty_N_go x s) = true.
Proof.
  revert s. induction (N.lt_wf_0 x) as [x _ IH]; intros s Hs.
  destruct (decide (x = 0)%N) as [->|Hx]; [by rewrite pretty_N_go_0|].
  rewrite pretty_N_go_step by lia. apply IH.
  - apply N.div_lt; lia.
  - simpl. by rewrite pretty_N_char_decimal.
Qed.

Lemma parse_radix_pretty x s :
  parse_radix 10 0 (pretty_N_go x s) = parse_radix 10 x s.
Proof.
  revert s. induction (N.lt_wf_0 x) as [x _ IH]; intros s.
  destruct (decide (x = 0)%N) as [->|Hx]; [by rewrite pretty_N_go_0|].
  rewrite pretty_N_go_step by lia. rewrite IH by (apply N.div_lt; lia).
  simpl. rewrite digit_value_pretty by (apply N.mod_lt; lia).
  destruct (N.ltb_spec (x `mod` 10) 10) as [_|Hge].
  - f_equal. rewrite (N.div_mod x 10) at 3 by lia. lia.
  - pose proof (N.mod_lt x 10). lia.
Qed.

Lemma pretty_N_go_nonempty x : (0 < x)%N → pretty_N_go x EmptyString ≠ EmptyString.
Proof.
  intros Hx Hempty.
  pose proof (parse_radix_pretty x EmptyString) as Hparse. rewrite Hempty in Hparse.
  simpl in Hparse. injection Hparse. lia.
Qed.

Lemma trim_start_decimal s : all_chars is_decimal s = true → trim_start s = s.
Proof.
  destruct s as [|a s]; [done|]. simpl. intros [Ha _]%andb_prop.
  by rewrite decimal_not_white.
Qed.

Lemma trim_end_decimal s : all_chars is_decimal s = true → trim_end s = s.
Proof.
  induction s as [|a s IH]; [done|]. simpl. intros [Ha Hs]%andb_prop.
  rewrite IH by done. rewrite decimal_not_white by done. by destruct s.
Qed.

Lemma BigInt_of_decimal s :
  all_chars is_decimal s = true → s ≠ EmptyString →
  BigInt_of_string s = parse_digits 10 s
  ∧ BigInt_of_string (String "-" s) = Z.opp <$> parse_digits 10 s.
Proof.
  intros Hs Hne. unfold BigInt_of_string, trim.
  split.
  - rewrite trim_start_decimal, trim_end_decimal by done.
    destruct s as [|a s]; [done|]. simpl in Hs. apply andb_prop in Hs as [Ha Hs].
    destruct s as [|b s].
    + destruct a as [[] [] [] [] [] [] [] []]; try done.
    + simpl in Hs. apply andb_prop in Hs as [Hb Hs].
      destruct a as [[] [] [] [] [] [] [] []]; try done;
      destruct b as [[] [] [] [] [] [] [] []]; try done.
  - change (trim_start (String "-" s)) with (String "-"%char s).
    assert (trim_end (String "-" s) = String "-" s) as ->; [|done].
    simpl. rewrite trim_end_decimal by done. by destruct s.
Qed.

(** [BigInt(z.toString())] is [z]: the decimal text that the export
    writes parses back to the bigint it came from. *)
Lemma BigInt_toString z : BigInt_of_string (toString z) = Some z.
Proof.
  unfold toString, pretty, pretty_Z.
  destruct z as [|p|p]; [done|..].
  - unfold pretty, pretty_positive, pretty, pretty_N.
    rewrite decide_False by done.
    destruct (BigInt_of_decimal (pretty_N_go (N.pos p) EmptyString)) as [-> _].
    { by apply pretty_N_go_decimal. }
    { by apply pretty_N_go_nonempty. }
    unfold parse_digits.
    destruct (pretty_N_go (N.pos p) EmptyString) eqn:Hgo.
    { by apply pretty_N_go_nonempty in Hgo. }
    by rewrite <-Hgo, parse_radix_pretty.
  - unfold pretty, pretty_positive, pretty, pretty_N.
    rewrite decide_False by done.
    change ("-" +:+ pretty_N_go (N.pos p) EmptyString) with (String "-" (pretty_N_go (N.pos p) EmptyString)).
    destruct (BigInt_of_decimal (pretty_N_go (N.pos p) EmptyString)) as [_ ->].
    { by apply pretty_N_go_decimal. }
    { by apply pretty_N_go_nonempty. }
    unfold parse_digits.
    destruct (pretty_N_go (N.pos p) EmptyString) eqn:Hgo.
    { by apply pretty_N_go_nonempty in Hgo. }
    by rewrite <-Hgo, parse_radix_pretty.
Qed.

(** Sorting forgets the order of insertion. *)
Lemma sort_Permutation l1 l2 : l1 ≡ₚ l2 → sort l1 = sort l2.
Proof.
  intros Hperm. unfold sort.
  apply (Sorted_unique String.le).
  - apply Sorted_merge_sort, _.
  - apply Sorted_merge_sort, _.
  - by rewrite !merge_sort_Permutation.
Qed.

End JsFacts.

(** ** Rules for specifications *)

Section Rules.
Context {St : Type}.

Lemma triple_ret {A} (P : St → Prop) (a : A) (Q : A → St → Prop) T :
  (∀ s, P s → Q a s) → triple P (ret a) Q T.
Proof. intros HQ s Hs. by apply HQ. Qed.

Lemma triple_bind {A B} (P : St → Prop) (m : M St A) (k : A → M St B)
    (Q : A → St → Prop) (Q' : B → St → Prop) T :
  triple P m Q T → (∀ a, triple (Q a) (k a) Q' T) → triple P (bind m k) Q' T.
Proof.
  intros Hm Hk s Hs. unfold bind. specialize (Hm s Hs).
  destruct (m s) as [a s'|e s'|]; [|done..]. by apply Hk.
Qed.

Lemma triple_modify (P : St → Prop) (f : St → St) (Q : unit → St → Prop) T :
  (∀ s, P s → Q tt (f s)) → triple P (modify f) Q T.
Proof. intros HQ s Hs. by apply HQ. Qed.

Lemma triple_get (P : St → Prop) (Q : St → St → Prop) T :
  (∀ s, P s → Q s s) → triple P get Q T.
Proof. intros HQ s Hs. by apply HQ. Qed.

Lemma triple_conseq {A} (P P' : St → Prop) (m : M St A)
    (Q Q' : A → St → Prop) (T T' : St → Prop) :
  triple P' m Q' T' → (∀ s, P s → P' s) → (∀ a s, Q' a s → Q a s) →
  (∀ s, T' s → T s) → triple P m Q T.
Proof.
  intros Hm HP HQ HT s Hs. specialize (Hm s (HP s Hs)).
  destruct (m s); auto.
Qed.

Lemma triple_pre {A} (P P' : St → Prop) (m : M St A) Q T :
  (∀ s, P s → P' s) → triple P' m Q T → triple P m Q T.
Proof. intros HP Hm. eapply triple_conseq; eauto. Qed.

Lemma triple_post {A} (P : St → Prop) (m : M St A) (Q Q' : A → St → Prop) T :
  (∀ a s, Q' a s → Q a s) → triple P m Q' T → triple P m Q T.
Proof. intros HQ Hm. eapply triple_conseq; eauto. Qed.

Lemma triple_for_each {A} (P : St → Prop) (body : nat → Z → A → M St unit) T l :
  (∀ i multiplier x, x ∈ l → triple P (body i multiplier x) (λ _, P) T) →
  ∀ i multiplier, triple P (for_each body i multiplier l) (λ _, P) T.
Proof.
  induction l as [|x l' IH]; intros Hbody i multiplier; simpl.
  - by apply triple_ret.
  - eapply triple_bind; [apply Hbody; by left|].
    intros ?. apply IH. intros ????. apply Hbody. by right.
Qed.

Lemma triple_for_of {A} (P : St → Prop) (body : A → M St unit) T l :
  (∀ x, x ∈ l → triple P (body x) (λ _, P) T) →
  triple P (for_of body l) (λ _, P) T.
Proof.
  induction l as [|x l' IH]; intros Hbody; simpl.
  - by apply triple_ret.
  - eapply triple_bind; [apply Hbody; by left|].
    intros ?. apply IH. intros ??. apply Hbody. by right.
Qed.

Context (I : St → St → Prop).

Lemma related_ret {A B} (a : A) (b : B) (Q : A → B → Prop) :
  Q a b → related I (ret a) (ret b) Q.
Proof. by intros HQ s1 s2 Hs. Qed.

Lemma related_bind {A B A' B'} (m1 : M St A) (m2 : M St B)
    (k1 : A → M St A') (k2 : B → M St B') (Q : A → B → Prop) (Q' : A' → B' → Prop) :
  related I m1 m2 Q → (∀ a b, Q a b → related I (k1 a) (k2 b) Q') →
  related I (bind m1 k1) (bind m2 k2) Q'.
Proof.
  intros Hm Hk s1 s2 Hs. unfold bind. specialize (Hm s1 s2 Hs).
  destruct (m1 s1) as [a s1'|e1 s1'|], (m2 s2) as [b s2'|e2 s2'|]; try done.
  destruct Hm as [HQ Hs']. by apply Hk.
Qed.

Lemma related_modify (f1 f2 : St → St) :
  (∀ s1 s2, I s1 s2 → I (f1 s1) (f2 s2)) →
  related I (modify f1) (modify f2) (λ _ _, True).
Proof. intros Hf s1 s2 Hs. simpl. auto. Qed.

Lemma related_get : related I get get I.
Proof. by intros s1 s2 Hs. Qed.

Lemma related_for_each {A B} (P : A → B → Prop)
    (body1 : nat → Z → A → M St unit) (body2 : nat → Z → B → M St unit) l1 l2 :
  Forall2 P l1 l2 →
  (∀ i multiplier x y, P x y →
     related I (body1 i multiplier x) (body2 i multiplier y) (λ _ _, True)) →
  ∀ i multiplier,
    related I (for_each body1 i multiplier l1) (for_each body2 i multiplier l2)
      (λ _ _, True).
Proof.
  intros Hl Hbody. induction Hl as [|x y l1 l2 Hxy Hl IH]; intros i multiplier; simpl.
  - by apply related_ret.
  - eapply related_bind; [by apply Hbody|]. intros _ _ _. apply IH.
Qed.

End Rules.

(** ** The memo table *)

Section BitFacts.
Variable xxHash32 : string → string.

Lemma keys_agree_refl km : keys_agree xxHash32 km km.
Proof. done. Qed.

Lemma keys_agree_sym km1 km2 :
  keys_agree xxHash32 km1 km2 → keys_agree xxHash32 km2 km1.
Proof. intros H key. by rewrite H. Qed.

Lemma keys_agree_trans km1 km2 km3 :
  keys_agree xxHash32 km1 km2 → keys_agree xxHash32 km2 km3 →
  keys_agree xxHash32 km1 km3.
Proof. intros H1 H2 key. by rewrite H1. Qed.

(** Memoising the bit of a key does not change any answer. *)
Lemma keys_agree_insert km key bit :
  bitOf xxHash32 km key = Some bit → keys_agree xxHash32 km (<[key := bit]> km).
Proof.
  intros Hbit key'. unfold bitOf in *.
  destruct (decide (key = key')) as [<-|Hne].
  - rewrite lookup_insert_eq. by destruct (km !! key); simplify_eq.
  - by rewrite lookup_insert_ne.
Qed.

(** What [getBit] does, in terms of [bitOf]. *)
Lemma getBit_bitOf key g :
  match getBit xxHash32 key g with
  | Ok bit g' =>
      bitOf xxHash32 (GLOBAL_KEY_MAP g) key = Some bit
      ∧ keys_agree xxHash32 (GLOBAL_KEY_MAP g) (GLOBAL_KEY_MAP g')
      ∧ same_but_keys g g'
  | Throw e g' => bitOf xxHash32 (GLOBAL_KEY_MAP g) key = None ∧ g' = g ∧ e = Js.SyntaxError
  | OutOfFuel => False
  end.
Proof.
  unfold getBit, bind, get, bitOf. simpl.
  destruct (GLOBAL_KEY_MAP g !! key) as [bit|] eqn:Hkey; simpl.
  { done. }
  destruct (Js.BigInt_of_string _) as [bit|] eqn:Hparse; simpl.
  - split; [done|]. split; [|done].
    apply keys_agree_insert. unfold bitOf. by rewrite Hkey.
  - done.
Qed.
End BitFacts.

(** ** Traversals in step *)

Section Simulation.
Variable xxHash32 : string → string.
Variable h : heap.
Variable R : addr → addr → Prop.
Hypothesis HR : shape_correspondence h R.

Local Abbreviation in_step := (trav_rel xxHash32 R).

Lemma getBit_related key :
  related in_step (global (getBit xxHash32 key)) (global (getBit xxHash32 key)) eq.
Proof.
  intros t1 t2 (Hlh & Hkeys & Hom). unfold global.
  pose proof (getBit_bitOf xxHash32 key (globals t1)) as H1.
  pose proof (getBit_bitOf xxHash32 key (globals t2)) as H2.
  rewrite (Hkeys key) in H1.
  destruct (getBit xxHash32 key (globals t1)) as [bit1 g1|e1 g1|],
           (getBit xxHash32 key (globals t2)) as [bit2 g2|e2 g2|]; try done.
  - destruct H1 as (Hb1 & Hk1 & _), H2 as (Hb2 & Hk2 & _).
    split; [by simplify_eq|]. split; [done|]. split; [|done]. simpl.
    eapply keys_agree_trans; [by apply keys_agree_sym|].
    eapply keys_agree_trans; [exact Hkeys|exact Hk2].
  - destruct H1 as (Hb1 & _), H2 as (Hb2 & _). by simplify_eq.
  - destruct H1 as (Hb1 & _), H2 as (Hb2 & _). by simplify_eq.
  - destruct H1 as (_ & -> & ->), H2 as (_ & -> & ->).
    split; [done|]. by split.
Qed.

Lemma seed_related level : related in_step (seed level) (seed level) (λ _ _, True).
Proof.
  apply related_modify. intros t1 t2 (Hlh & Hkeys & Hom). rewrite Hlh.
  destruct (levelHashes t2 !! level) as [z|]; [destruct (z =? 0)|];
    repeat split; simpl; try done; by rewrite ?Hlh.
Qed.

Lemma add_related level x : related in_step (add level x) (add level x) (λ _ _, True).
Proof.
  apply related_modify. intros t1 t2 (Hlh & Hkeys & Hom).
  repeat split; simpl; try done; by rewrite ?Hlh.
Qed.

Lemma isArray_related a b : R a b → isArray h (VRef a) = isArray h (VRef b).
Proof.
  intros Hab. pose proof (shape_objects _ _ HR a b Hab) as Hobj. simpl.
  destruct (h !! a) as [[]|], (h !! b) as [[]|]; done.
Qed.

Lemma getType_related v1 v2 : val_rel h R v1 v2 → getType h v1 = getType h v2.
Proof.
  destruct v1, v2; simpl; try done. intros Hab.
  unfold getType. simpl is_null. simpl is_undefined. cbv iota.
  by rewrite (isArray_related _ _ Hab).
Qed.

Lemma keys_related a b : R a b → keys h (VRef a) ≡ₚ keys h (VRef b).
Proof.
  intros Hab. pose proof (shape_objects _ _ HR a b Hab) as Hobj. simpl.
  destruct (h !! a) as [[]|], (h !! b) as [[]|]; try done. by destruct Hobj.
Qed.

Lemma prop_related a b key :
  R a b → key ∈ keys h (VRef a) →
  val_rel h R (prop h (VRef a) key) (prop h (VRef b) key).
Proof.
  intros Hab. pose proof (shape_objects _ _ HR a b Hab) as Hobj. simpl.
  destruct (h !! a) as [[]|], (h !! b) as [[]|]; try done;
    try by intros ?%elem_of_nil.
  destruct Hobj as [_ Hprops]. apply Hprops.
Qed.

Lemma elems_related a b : R a b → Forall2 (val_rel h R) (elems h (VRef a)) (elems h (VRef b)).
Proof.
  intros Hab. pose proof (shape_objects _ _ HR a b Hab) as Hobj. simpl.
  destruct (h !! a) as [[]|], (h !! b) as [[]|]; try done; constructor.
Qed.

Lemma getObjectSignature_related a b path :
  R a b → getObjectSignature h (VRef a) path = getObjectSignature h (VRef b) path.
Proof.
  intros Hab. unfold getObjectSignature.
  rewrite (isArray_related _ _ Hab).
  rewrite (JsFacts.sort_Permutation _ _ (keys_related _ _ Hab)).
  by rewrite (Forall2_length _ _ _ (elems_related _ _ Hab)).
Qed.

Lemma isObject_related a b : R a b → isObject h (VRef a) = isObject h (VRef b).
Proof. intros Hab. unfold isObject. by rewrite (isArray_related _ _ Hab). Qed.

Lemma tracker_insert t1 t2 a b label :
  R a b → in_step t1 t2 →
  in_step (set_objectMap (<[a := label]> (objectMap t1)) t1)
           (set_objectMap (<[b := label]> (objectMap t2)) t2).
Proof.
  intros Hab (Hlh & Hkeys & Hom). repeat split; simpl; try done.
  intros a' b' Hab'.
  destruct (decide (a = a')) as [<-|Ha].
  - rewrite (shape_functional _ _ HR _ _ _ Hab Hab'). by rewrite !lookup_insert_eq.
  - rewrite lookup_insert_ne by done. rewrite lookup_insert_ne; [by apply Hom|].
    intros <-. apply Ha. by eapply shape_injective.
Qed.

(** Corresponding values are traversed in step. *)
Lemma processStructure_related fuel :
  ∀ v1 v2 level path, val_rel h R v1 v2 →
    related in_step (processStructure xxHash32 h fuel v1 level path)
                     (processStructure xxHash32 h fuel v2 level path) (λ _ _, True).
Proof.
  induction fuel as [|fuel IH]; intros v1 v2 level path Hv; simpl.
  { by intros t1 t2 _. }
  eapply related_bind; [apply seed_related|]. intros _ _ _.
  rewrite <-(getType_related _ _ Hv).
  eapply related_bind; [apply add_related|]. intros _ _ _.
  destruct (negb (String.eqb (getType h v1) "object")
            && negb (String.eqb (getType h v1) "array")) eqn:Hscalar.
  { by apply related_ret. }
  destruct v1 as [| |b1|x1|s1|z1|d1|n1|a], v2 as [| |b2|x2|s2|z2|d2|n2|b]; try done.
  rewrite <-(isObject_related _ _ Hv), <-(isArray_related _ _ Hv).
  destruct (isObject h (VRef a) || isArray h (VRef a)); [|by apply related_ret].
  rewrite <-(getObjectSignature_related _ _ _ Hv).
  eapply related_bind; [apply related_get|]. intros t1 t2 Ht.
  destruct Ht as (Hlh & Hkeys & Hom). rewrite <-(Hom _ _ Hv).
  destruct (objectMap t1 !! a) as [circularPath|].
  { eapply related_bind; [apply getBit_related|]. intros ? ? <-. apply add_related. }
  eapply related_bind.
  { apply related_modify. intros ???. by apply tracker_insert. }
  intros _ _ _.
  eapply related_bind; [apply getBit_related|]. intros ? ? <-.
  eapply related_bind; [apply add_related|]. intros _ _ _.
  rewrite <-(Permutation_length (keys_related _ _ Hv)).
  rewrite <-(Forall2_length _ _ _ (elems_related _ _ Hv)).
  destruct (negb (Nat.eqb level 0) || _); [|by apply related_ret].
  destruct (String.eqb (getType h (VRef a)) "object").
  - rewrite <-(JsFacts.sort_Permutation _ _ (keys_related _ _ Hv)).
    apply related_for_each with (P := λ x y, x = y ∧ x ∈ keys h (VRef a)).
    { apply Forall_Forall2_diag, Forall_forall. intros key Hkey. split; [done|].
      unfold Js.sort in Hkey. by rewrite merge_sort_Permutation in Hkey. }
    intros _ multiplier key ? [<- Hkey].
    pose proof (prop_related _ _ _ Hv Hkey) as Hprop.
    rewrite <-(getType_related _ _ Hprop).
    eapply related_bind; [apply getBit_related|]. intros ? ? <-.
    eapply related_bind; [apply add_related|]. intros _ _ _.
    eapply related_bind; [apply add_related|]. intros _ _ _.
    by apply IH.
  - destruct (String.eqb (getType h (VRef a)) "array"); [|by apply related_ret].
    eapply related_bind; [apply getBit_related|]. intros ? ? <-.
    eapply related_bind; [apply add_related|]. intros _ _ _.
    apply related_for_each with (P := val_rel h R); [by apply elems_related|].
    intros i multiplier item1 item2 Hitem.
    rewrite <-(getType_related _ _ Hitem).
    eapply related_bind; [apply getBit_related|]. intros ? ? <-.
    eapply related_bind; [apply add_related|]. intros _ _ _.
    eapply related_bind; [apply add_related|]. intros _ _ _.
    by apply IH.
Qed.

End Simulation.

(** ** Termination of the traversal *)

Section Termination.
Variable xxHash32 : string → string.
Variable h : heap.
Variable g0 : state.

Local Abbreviation running := (during xxHash32 g0).
Local Abbreviation failed := (raised xxHash32 g0).

Lemma same_but_keys_refl g : same_but_keys g g.
Proof. by repeat split. Qed.

Lemma same_but_keys_trans g1 g2 g3 :
  same_but_keys g1 g2 → same_but_keys g2 g3 → same_but_keys g1 g3.
Proof.
  intros (?&?&?&?&?) (?&?&?&?&?). repeat split; by etrans.
Qed.

Lemma seed_during P level :
  triple (running P) (seed level) (λ _, running P) failed.
Proof.
  apply triple_modify. intros t (Hk & Hs & HP).
  destruct (levelHashes t !! level) as [z|]; [destruct (z =? 0)|];
    by (split; [|split]).
Qed.

Lemma add_during P level x :
  triple (running P) (add level x) (λ _, running P) failed.
Proof. apply triple_modify. intros t (Hk & Hs & HP). by (split; [|split]). Qed.

Lemma getBit_during P key :
  triple (running P) (global (getBit xxHash32 key)) (λ _, running P) failed.
Proof.
  intros t (Hk & Hs & HP). unfold global.
  pose proof (getBit_bitOf xxHash32 key (globals t)) as Hbit.
  destruct (getBit xxHash32 key (globals t)) as [bit g|e g|]; [..|done].
  - destruct Hbit as (_ & Hk' & Hs'). split; [|split]; simpl; [| |done].
    + by eapply keys_agree_trans.
    + by eapply same_but_keys_trans.
  - destruct Hbit as (Hnone & -> & _). split; [|split]; simpl; [done..|].
    intros Hcontract. destruct (Hcontract key) as [bit Hparse].
    unfold bitOf in Hnone. destruct (GLOBAL_KEY_MAP (globals t) !! key); [done|].
    by rewrite Hparse in Hnone.
Qed.

Lemma unvisited_insert_le om a label :
  (unvisited h (<[a := label]> om) ≤ unvisited h om)%nat.
Proof.
  unfold unvisited. apply subseteq_size. rewrite dom_insert_L. intros x.
  rewrite !elem_of_difference, elem_of_union. tauto.
Qed.

Lemma unvisited_insert_lt om a label :
  is_Some (h !! a) → om !! a = None →
  (unvisited h (<[a := label]> om) < unvisited h om)%nat.
Proof.
  intros Ha Hom. unfold unvisited. apply subset_size. rewrite dom_insert_L.
  apply elem_of_dom in Ha. apply not_elem_of_dom in Hom. split.
  - intros x. rewrite !elem_of_difference, elem_of_union. tauto.
  - intros Hsub. specialize (Hsub a).
    rewrite !elem_of_difference, elem_of_union, elem_of_singleton in Hsub. tauto.
Qed.

(** With more recursion depth than unvisited objects, the traversal
    never exhausts it, and leaves fewer objects unvisited. *)
Lemma processStructure_during fuel :
  ∀ value level path,
    triple (running (λ om, (unvisited h om < fuel)%nat))
      (processStructure xxHash32 h fuel value level path)
      (λ _, running (λ om, (unvisited h om < fuel)%nat)) failed.
Proof.
  induction fuel as [|fuel IH]; intros value level path; simpl.
  { intros t (_ & _ & Hlt). lia. }
  eapply triple_bind; [apply seed_during|]. intros [].
  eapply triple_bind; [apply add_during|]. intros [].
  destruct (negb _ && negb _). { by apply triple_ret. }
  destruct (isObject h value || isArray h value); [|by apply triple_ret].
  destruct value as [| |b1|x1|s1|z1|d1|n1|a]; try by apply triple_ret.
  eapply triple_bind with (Q := λ t' t, t' = t ∧ running (λ om, (unvisited h om < S fuel)%nat) t).
  { by apply triple_get. }
  intros t. destruct (objectMap t !! a) as [circularPath|] eqn:Hvisited.
  { apply triple_pre with (P' := running (λ om, (unvisited h om < S fuel)%nat));
      [by intros ? [_ ?]|].
    eapply triple_bind; [apply getBit_during|]. intros bit. apply add_during. }
  set (after := λ om : gmap addr string,
         (unvisited h om < S fuel)%nat ∧ (is_Some (h !! a) → (unvisited h om < fuel)%nat)).
  eapply triple_bind with (Q := λ _, running after).
  { apply triple_modify. intros ? [<- (Hk & Hs & Hlt)].
    split; [done|]. split; [done|]. split; simpl.
    - pose proof (unvisited_insert_le (objectMap t) a (getObjectSignature h (VRef a) path)).
      lia.
    - intros Ha.
      pose proof (unvisited_insert_lt (objectMap t) a
                    (getObjectSignature h (VRef a) path) Ha Hvisited).
      lia. }
  intros [].
  eapply triple_bind; [apply getBit_during|]. intros bit.
  eapply triple_bind; [apply add_during|]. intros [].
  assert (∀ A (m : M trav A),
            triple (running (λ om, (unvisited h om < fuel)%nat)) m
              (λ _, running (λ om, (unvisited h om < fuel)%nat)) failed →
            is_Some (h !! a) →
            triple (running after) m
              (λ _, running (λ om, (unvisited h om < S fuel)%nat)) failed) as Hdown.
  { intros A m Hm Ha. eapply triple_conseq; [exact Hm|..|done].
    - intros t' (?&?&[_ Hlt]). split; [done|]. split; [done|]. by apply Hlt.
    - intros _ t' (?&?&Hlt). split; [done|]. split; [done|]. lia. }
  assert (triple (running after) (ret tt)
            (λ _, running (λ om, (unvisited h om < S fuel)%nat)) failed) as Hret.
  { apply triple_ret. by intros t' (?&?&[Hlt _]). }
  destruct (negb (Nat.eqb level 0) || _); [|exact Hret].
  destruct (String.eqb (getType h (VRef a)) "object").
  - simpl keys. destruct (h !! a) as [[class props|l]|] eqn:Ha; [|exact Hret..].
    apply Hdown; [|done]. apply triple_for_each. intros _ multiplier key _.
    eapply triple_bind; [apply getBit_during|]. intros ?.
    eapply triple_bind; [apply add_during|]. intros [].
    eapply triple_bind; [apply add_during|]. intros [].
    apply IH.
  - destruct (String.eqb (getType h (VRef a)) "array"); [|exact Hret].
    simpl elems. destruct (h !! a) as [[class props|l]|] eqn:Ha.
    + eapply triple_bind; [apply getBit_during|]. intros ?.
      eapply triple_bind; [apply add_during|]. intros []. exact Hret.
    + apply Hdown; [|done].
      eapply triple_bind; [apply getBit_during|]. intros ?.
      eapply triple_bind; [apply add_during|]. intros [].
      apply triple_for_each. intros i multiplier item _.
      eapply triple_bind; [apply getBit_during|]. intros ?.
      eapply triple_bind; [apply add_during|]. intros [].
      eapply triple_bind; [apply add_during|]. intros [].
      apply IH.
    + eapply triple_bind; [apply getBit_during|]. intros ?.
      eapply triple_bind; [apply add_during|]. intros []. exact Hret.
Qed.

End Termination.

(** ** Calls of [generateStructureId] *)

Section Calls.
Variable xxHash32 : string → string.
Variable h : heap.

Lemma shape_correspondence_eq : shape_correspondence h eq.
Proof.
  split; [congruence..|]. intros a ? <-.
  assert (∀ v, val_rel h eq v v) as Hrefl by (by intros []).
  destruct (h !! a) as [[class props|l]|]; simpl; [|..|done].
  - split; [done|]. intros; apply Hrefl.
  - by apply Forall_Forall2_diag, Forall_forall.
Qed.

(** The traversal of a call returns or raises, and touches nothing but
    the memo table, whose answers it keeps. *)
Lemma traverse_during g obj :
  match traverse xxHash32 h g obj with
  | Ok _ t =>
      keys_agree xxHash32 (GLOBAL_KEY_MAP g) (GLOBAL_KEY_MAP (globals t))
      ∧ same_but_keys g (globals t)
  | Throw _ t =>
      keys_agree xxHash32 (GLOBAL_KEY_MAP g) (GLOBAL_KEY_MAP (globals t))
      ∧ same_but_keys g (globals t) ∧ ¬ hash_contract xxHash32
  | OutOfFuel => False
  end.
Proof.
  pose proof (processStructure_during xxHash32 h g (depth_bound h) obj 0%nat []
                (mkTrav g ∅ ∅)) as Hrun.
  unfold traverse. destruct (processStructure _ _ _ _ _ _ _) as [[] t|e t|].
  - destruct Hrun as (?&?&_); [|done].
    split; [done|]. split; [apply same_but_keys_refl|]. simpl.
    unfold unvisited, depth_bound. rewrite dom_empty_L, difference_empty_L, size_dom. lia.
  - apply Hrun.
    split; [done|]. split; [apply same_but_keys_refl|]. simpl.
    unfold unvisited, depth_bound. rewrite dom_empty_L, difference_empty_L, size_dom. lia.
  - apply Hrun.
    split; [done|]. split; [apply same_but_keys_refl|]. simpl.
    unfold unvisited, depth_bound. rewrite dom_empty_L, difference_empty_L, size_dom. lia.
Qed.

(** Values of the same shape get the same accumulators, from memo
    tables that answer alike. *)
Lemma levels_related R g1 g2 v1 v2 :
  shape_correspondence h R → val_rel h R v1 v2 →
  keys_agree xxHash32 (GLOBAL_KEY_MAP g1) (GLOBAL_KEY_MAP g2) →
  levels xxHash32 h g1 v1 = levels xxHash32 h g2 v2.
Proof.
  intros HR Hv Hkeys.
  pose proof (processStructure_related xxHash32 h R HR (depth_bound h) v1 v2 0%nat [] Hv
                (mkTrav g1 ∅ ∅) (mkTrav g2 ∅ ∅)) as Hrun.
  unfold levels, traverse.
  destruct (processStructure _ _ _ v1 _ _ _) as [[] t1|e1 t1|],
           (processStructure _ _ _ v2 _ _ _) as [[] t2|e2 t2|]; try done.
  all: try (exfalso; apply Hrun; by split).
  destruct Hrun as [_ (Hlh & _)]; [by split|]. by rewrite Hlh.
Qed.

Lemma levels_agree g1 g2 v :
  keys_agree xxHash32 (GLOBAL_KEY_MAP g1) (GLOBAL_KEY_MAP g2) →
  levels xxHash32 h g1 v = levels xxHash32 h g2 v.
Proof.
  apply (levels_related eq); [apply shape_correspondence_eq|]. by destruct v.
Qed.


Lemma generateStructureId_fixed obj config g :
  traversed h obj = false →
  generateStructureId xxHash32 h obj config g = Ok (fixed_id h obj) g.
Proof.
  unfold generateStructureId, traversed, fixed_id.
  destruct obj as [| |b1|x1|s1|z1|d1|n1|a]; try done.
  unfold isObject. simpl.
  destruct (h !! a) as [[class props|l]|]; simpl; try done.
  - destruct props; [done|]. done.
  - destruct l; done.
Qed.

(** Values that reach it. *)
Lemma generateStructureId_traversed a config g :
  traversed h (VRef a) = true →
  generateStructureId xxHash32 h (VRef a) config g =
    let mode := collisionMode (default (globalConfig g) config) in
    match (if mode then None else OBJECT_ID_CACHE g !! a) with
    | Some cached => Ok cached g
    | None =>
        match traverse xxHash32 h g (VRef a) with
        | Ok _ t =>
            let lh := levelHashes t in
            let signature := Js.join "-" (structureLevels lh) in
            let g1 := set_OBJECT_SIGNATURE_CACHE
                        (<[a := signature]> (OBJECT_SIGNATURE_CACHE (globals t)))
                        (globals t) in
            let count := default 0 (STRUCTURE_HASH_COUNTER g1 !! signature) in
            if mode then
              Ok (Js.join "-" (idParts (<[0%nat := count]> lh)))
                 (set_STRUCTURE_INFO_CACHE (delete a (STRUCTURE_INFO_CACHE g1))
                    (set_STRUCTURE_HASH_COUNTER
                       (<[signature := count + 1]> (STRUCTURE_HASH_COUNTER g1)) g1))
            else
              Ok (Js.join "-" (idParts lh))
                 (set_STRUCTURE_INFO_CACHE (delete a (STRUCTURE_INFO_CACHE g1))
                    (set_OBJECT_ID_CACHE
                       (<[a := Js.join "-" (idParts lh)]> (OBJECT_ID_CACHE g1)) g1))
        | Throw e t => Throw e (globals t)
        | OutOfFuel => OutOfFuel
        end
    end.
Proof.
  intros Htrav. unfold generateStructureId, traversed in *.
  unfold isObject, isArray, keys, elems, is_null, typeof.
  destruct (h !! a) as [[class props|l]|] eqn:Ha; [| |done].
  - destruct props as [|p props]; [done|].
    cbn [String.eqb Ascii.eqb Bool.eqb negb andb orb fmap list_fmap length Nat.eqb].
    unfold bind, get at 1. cbn beta iota.
    destruct (collisionMode (default (globalConfig g) config)) eqn:Hmode.
    + unfold traverse. destruct (processStructure _ _ _ _ _ _ _) as [[] t|e t|]; done.
    + destruct (OBJECT_ID_CACHE g !! a); [done|].
      unfold traverse. destruct (processStructure _ _ _ _ _ _ _) as [[] t|e t|]; done.
  - destruct l as [|x l]; [done|].
    cbn [String.eqb Ascii.eqb Bool.eqb negb andb orb fmap list_fmap length Nat.eqb].
    unfold bind, get at 1. cbn beta iota.
    destruct (collisionMode (default (globalConfig g) config)) eqn:Hmode.
    + unfold traverse. destruct (processStructure _ _ _ _ _ _ _) as [[] t|e t|]; done.
    + destruct (OBJECT_ID_CACHE g !! a); [done|].
      unfold traverse. destruct (processStructure _ _ _ _ _ _ _) as [[] t|e t|]; done.
Qed.

End Calls.

(** ** The recursion bound *)

Section Depth.
Variable xxHash32 : string → string.
Variable h : heap.

Lemma refines_refl {St A} (m : M St A) : refines m m.
Proof. by intros s _. Qed.

Lemma refines_bind {St A B} (m1 m2 : M St A) (k1 k2 : A → M St B) :
  refines m1 m2 → (∀ a, refines (k1 a) (k2 a)) →
  refines (bind m1 k1) (bind m2 k2).
Proof.
  intros Hm Hk s. unfold bind. specialize (Hm s).
  destruct (m1 s) as [a s'|e s'|]; [| |done].
  - rewrite Hm by done. apply Hk.
  - by rewrite Hm.
Qed.

Lemma refines_for_each {St A} (body1 body2 : nat → Z → A → M St unit) l :
  (∀ i multiplier x, refines (body1 i multiplier x) (body2 i multiplier x)) →
  ∀ i multiplier,
    refines (for_each body1 i multiplier l) (for_each body2 i multiplier l).
Proof.
  intros Hbody. induction l as [|x l' IH]; intros i multiplier; simpl.
  - apply refines_refl.
  - apply refines_bind; [apply Hbody|]. intros []. apply IH.
Qed.

(** A deeper bound changes nothing for a traversal that a bound
    sufficed for. *)
Lemma processStructure_deeper fuel :
  ∀ value level path,
    refines (processStructure xxHash32 h fuel value level path)
            (processStructure xxHash32 h (S fuel) value level path).
Proof.
  induction fuel as [|fuel IH]; intros value level path.
  { by intros s Hs. }
  pose (deeper := S fuel). change (S (S fuel)) with (S deeper).
  cbn [processStructure].
  repeat first
    [ apply refines_refl
    | apply IH
    | apply refines_bind; [|intros ?]
    | apply refines_for_each; intros ???
    | match goal with
      | |- refines (if ?c then _ else _) _ => destruct c
      | |- refines (match ?x with _ => _ end) _ => destruct x
      end ].
Qed.

Lemma traverse_deeper fuel g obj :
  (depth_bound h ≤ fuel)%nat →
  processStructure xxHash32 h fuel obj 0 [] (mkTrav g ∅ ∅) = traverse xxHash32 h g obj.
Proof.
  induction 1 as [|fuel Hle IH]; [done|].
  rewrite processStructure_deeper; [done|]. rewrite IH.
  pose proof (traverse_during xxHash32 h g obj) as Hrun.
  by destruct (traverse xxHash32 h g obj).
Qed.
End Depth.

(** ** The text of identifiers *)

Section Format.

Global Instance key_le_trans : Transitive key_le.
Proof. unfold key_le. intros ???. lia. Qed.
Global Instance key_le_total : Total key_le.
Proof. unfold key_le. intros ??. lia. Qed.

Lemma elem_of_sort_levels e l : e ∈ sort_levels l ↔ e ∈ l.
Proof. unfold sort_levels. by rewrite merge_sort_Permutation. Qed.

Lemma elem_of_entries e lh : e ∈ entries lh ↔ lh !! e.1 = Some e.2.
Proof.
  unfold entries. rewrite merge_sort_Permutation. destruct e.
  apply elem_of_map_to_list.
Qed.

Lemma NoDup_entries lh : NoDup (entries lh).
Proof. unfold entries. rewrite merge_sort_Permutation. apply NoDup_map_to_list. Qed.

(** In disambiguating mode the identifier is the counter as level 0 in
    front of the labels of the signature. *)
Lemma idParts_insert_0 lh count :
  idParts (<[0%nat := count]> lh) = level_label (0%nat, count) :: structureLevels lh.
Proof.
  unfold idParts, structureLevels. rewrite <-fmap_cons. f_equal.
  apply (StronglySorted_unique_strong key_le).
  - intros [k1 v1] [k2 v2] H1 H2 Hle1 Hle2. unfold key_le in *. simpl in *.
    assert (k1 = k2) as <- by lia. f_equal.
    apply elem_of_sort_levels, elem_of_entries in H1. simpl in H1.
    apply elem_of_cons in H2 as [H2|H2].
    + injection H2 as -> ->. rewrite lookup_insert_eq in H1. by injection H1.
    + apply elem_of_sort_levels, list_elem_of_filter in H2 as [Hpos H2].
      apply elem_of_entries in H2. simpl in *.
      rewrite lookup_insert_ne in H1 by (intros <-; done). by simplify_eq.
  - apply StronglySorted_merge_sort; apply _.
  - constructor.
    + apply StronglySorted_merge_sort; apply _.
    + apply Forall_forall. intros [k v] _. unfold key_le. simpl. lia.
  - apply NoDup_Permutation.
    + unfold sort_levels. rewrite merge_sort_Permutation. apply NoDup_entries.
    + constructor.
      * rewrite elem_of_sort_levels, list_elem_of_filter. by intros [? _].
      * unfold sort_levels. rewrite merge_sort_Permutation.
        apply NoDup_filter, NoDup_entries.
    + intros [k v]. rewrite elem_of_cons, !elem_of_sort_levels, list_elem_of_filter,
        !elem_of_entries. simpl.
      destruct (decide (k = 0%nat)) as [->|Hk].
      * rewrite lookup_insert_eq. split; [intros [= ->]; by left|].
        intros [[= ->]|[? _]]; done.
      * rewrite lookup_insert_ne by done. split.
        -- intros ?. right. split; [|done]. apply Nat.ltb_lt. lia.
        -- by intros [[= ? ?]|[_ ?]].
Qed.

Lemma structureLevels_nonempty lh :
  1%nat ∈ dom lh → structureLevels lh ≠ [].
Proof.
  intros [z Hz]%elem_of_dom Hnil. unfold structureLevels in Hnil.
  apply fmap_nil_inv in Hnil.
  assert ((1%nat, z) ∈ sort_levels (filter (λ e, (0 <? e.1)%nat = true) (entries lh))) as Hin.
  { rewrite elem_of_sort_levels, list_elem_of_filter, elem_of_entries. done. }
  rewrite Hnil in Hin. by apply elem_of_nil in Hin.
Qed.

Lemma join_cons sep x l : l ≠ [] → Js.join sep (x :: l) = x +:+ sep +:+ Js.join sep l.
Proof. intros Hl. unfold Js.join. by destruct l. Qed.

End Format.


Section Ensures.
Context {St : Type}.

Lemma ensures_ret {A} (P : St → Prop) (a : A) : ensures P (ret a) P.
Proof. intros s ? s' Hs [= _ <-]. done. Qed.

Lemma ensures_bind {A B} (P Q Q' : St → Prop) (m : M St A) (k : A → M St B) :
  ensures P m Q → (∀ a, ensures Q (k a) Q') → ensures P (bind m k) Q'.
Proof.
  intros Hm Hk s b s' Hs. unfold bind.
  destruct (m s) as [a s1|e s1|] eqn:Hms; [|done..].
  intros Hks. eapply Hk; [|done]. by eapply Hm.
Qed.

Lemma ensures_modify (P Q : St → Prop) (f : St → St) :
  (∀ s, P s → Q (f s)) → ensures P (modify f) Q.
Proof. intros Hf s ? s' Hs [= _ <-]. by apply Hf. Qed.

Lemma ensures_pre {A} (P P' Q : St → Prop) (m : M St A) :
  (∀ s, P s → P' s) → ensures P' m Q → ensures P m Q.
Proof. intros HP Hm s a s' Hs. apply Hm. by apply HP. Qed.

Lemma ensures_for_each {A} (P : St → Prop) (body : nat → Z → A → M St unit) l :
  (∀ i multiplier x, ensures P (body i multiplier x) P) →
  ∀ i multiplier, ensures P (for_each body i multiplier l) P.
Proof.
  intros Hbody. induction l as [|x l' IH]; intros i multiplier; simpl.
  - apply ensures_ret.
  - eapply ensures_bind; [apply Hbody|]. intros []. apply IH.
Qed.

(** A loop that runs at least once over a body that establishes [Q]
    and keeps it. *)
Lemma ensures_for_each_first {A} (P Q : St → Prop)
    (body : nat → Z → A → M St unit) l :
  l ≠ [] →
  (∀ i multiplier x, ensures P (body i multiplier x) Q) →
  (∀ i multiplier x, ensures Q (body i multiplier x) Q) →
  ∀ i multiplier, ensures P (for_each body i multiplier l) Q.
Proof.
  intros Hl Hfirst Hkeep i multiplier. destruct l as [|x l']; [done|]. simpl.
  eapply ensures_bind; [apply Hfirst|]. intros []. by apply ensures_for_each.
Qed.
End Ensures.

Section Levels.
Variable xxHash32 : string → string.
Variable h : heap.


Lemma seed_has_level k level :
  ensures (λ t, has_level k t ∨ k = level) (seed level) (has_level k).
Proof.
  apply ensures_modify. unfold has_level. intros t [Hk| ->].
  - destruct (levelHashes t !! level) as [z|]; [destruct (z =? 0)|]; simpl;
      rewrite ?dom_insert_L; set_solver.
  - destruct (levelHashes t !! level) as [z|] eqn:Hz; [destruct (z =? 0)|]; simpl;
      rewrite ?dom_insert_L; try set_solver.
    by apply elem_of_dom.
Qed.

Lemma add_has_level k level x : ensures (has_level k) (add level x) (has_level k).
Proof.
  apply ensures_modify. unfold has_level. intros t Hk. simpl.
  by rewrite dom_alter_L.
Qed.

Lemma getBit_has_level k key :
  ensures (has_level k) (global (getBit xxHash32 key)) (has_level k).
Proof.
  intros t bit t' Hk. unfold global.
  destruct (getBit xxHash32 key (globals t)); [|done..]. by intros [= _ <-].
Qed.

(** A call on a level leaves an accumulator for it, and keeps those
    there are. *)
Lemma processStructure_has_level fuel :
  ∀ k value level path,
    ensures (λ t, has_level k t ∨ k = level)
      (processStructure xxHash32 h fuel value level path) (has_level k).
Proof.
  induction fuel as [|fuel IH]; intros k value level path; simpl.
  { by intros t ? t' _ ?. }
  eapply ensures_bind; [apply seed_has_level|]. intros [].
  eapply ensures_bind; [apply add_has_level|]. intros [].
  destruct (negb _ && negb _). { apply ensures_ret. }
  destruct (isObject h value || isArray h value); [|apply ensures_ret].
  destruct value as [| |b1|x1|s1|z1|d1|n1|a]; try apply ensures_ret.
  eapply ensures_bind with (Q := has_level k).
  { intros t ? t' Hk [= _ <-]. done. }
  intros t. destruct (objectMap t !! a) as [circularPath|].
  { eapply ensures_bind; [apply getBit_has_level|]. intros bit. apply add_has_level. }
  eapply ensures_bind with (Q := has_level k);
    [apply ensures_modify; intros ? Hk; exact Hk|]. intros [].
  eapply ensures_bind; [apply getBit_has_level|]. intros bit.
  eapply ensures_bind; [apply add_has_level|]. intros [].
  destruct (negb (Nat.eqb level 0) || _); [|apply ensures_ret].
  destruct (String.eqb (getType h (VRef a)) "object").
  - apply ensures_for_each. intros _ multiplier key.
    eapply ensures_bind; [apply getBit_has_level|]. intros ?.
    eapply ensures_bind; [apply add_has_level|]. intros [].
    eapply ensures_bind; [apply add_has_level|]. intros [].
    eapply ensures_pre; [|apply IH]. by left.
  - destruct (String.eqb (getType h (VRef a)) "array"); [|apply ensures_ret].
    eapply ensures_bind; [apply getBit_has_level|]. intros ?.
    eapply ensures_bind; [apply add_has_level|]. intros [].
    apply ensures_for_each. intros i multiplier item.
    eapply ensures_bind; [apply getBit_has_level|]. intros ?.
    eapply ensures_bind; [apply add_has_level|]. intros [].
    eapply ensures_bind; [apply add_has_level|]. intros [].
    eapply ensures_pre; [|apply IH]. by left.
Qed.

Lemma sort_nonempty l : l ≠ [] → Js.sort l ≠ [].
Proof.
  intros Hl Hnil. apply Hl, Permutation_nil.
  rewrite <-Hnil. unfold Js.sort. by rewrite merge_sort_Permutation.
Qed.

Lemma ensures_get {St A} (P Q : St → Prop) (k : St → M St A) :
  (∀ s, P s → ensures (λ s', s' = s) (k s) Q) → ensures P (bind get k) Q.
Proof. intros Hk s a s' Hs. unfold bind, get. by apply Hk. Qed.

(** The traversal of a record with a property, or of an array with an
    element, reaches level 1. *)
Lemma root_has_level_1 fuel a path :
  traversed h (VRef a) = true →
  ensures (λ t, objectMap t !! a = None)
    (processStructure xxHash32 h (S fuel) (VRef a) 0 path) (has_level 1).
Proof.
  intros Htrav. simpl.
  eapply ensures_bind with (Q := λ t, objectMap t !! a = None).
  { apply ensures_modify. intros t Ht.
    by destruct (levelHashes t !! 0%nat) as [z|]; [destruct (z =? 0)|]. }
  intros [].
  eapply ensures_bind with (Q := λ t, objectMap t !! a = None).
  { by apply ensures_modify. }
  intros []. unfold getType, isObject, isArray, traversed in *. simpl in *.
  destruct (h !! a) as [[class props|l]|] eqn:Ha; [| |done]; simpl.
  - apply ensures_get. intros t ->.
    eapply ensures_bind with (Q := λ _, True); [by apply ensures_modify|]. intros [].
    eapply ensures_bind with (Q := λ _, True); [by intros ?????|]. intros bit.
    eapply ensures_bind with (Q := λ _, True); [by apply ensures_modify|]. intros [].
    destruct props as [|p props]; [done|]. simpl.
    apply ensures_for_each_first with (Q := has_level 1).
    + by apply sort_nonempty.
    + intros _ multiplier key.
      eapply ensures_bind with (Q := λ _, True); [by intros ?????|]. intros ?.
      eapply ensures_bind with (Q := λ _, True); [by apply ensures_modify|]. intros [].
      eapply ensures_bind with (Q := λ _, True); [by apply ensures_modify|]. intros [].
      eapply ensures_pre; [|apply processStructure_has_level]. by right.
    + intros _ multiplier key.
      eapply ensures_bind; [apply getBit_has_level|]. intros ?.
      eapply ensures_bind; [apply add_has_level|]. intros [].
      eapply ensures_bind; [apply add_has_level|]. intros [].
      eapply ensures_pre; [|apply processStructure_has_level]. by left.
  - apply ensures_get. intros t ->.
    eapply ensures_bind with (Q := λ _, True); [by apply ensures_modify|]. intros [].
    eapply ensures_bind with (Q := λ _, True); [by intros ?????|]. intros bit.
    eapply ensures_bind with (Q := λ _, True); [by apply ensures_modify|]. intros [].
    destruct l as [|x l]; [done|]. cbn [length Nat.eqb negb].
    eapply ensures_bind with (Q := λ _, True); [by intros ?????|]. intros ?.
    eapply ensures_bind with (Q := λ _, True); [by apply ensures_modify|]. intros [].
    apply ensures_for_each_first with (Q := has_level 1).
    + done.
    + intros i multiplier item.
      eapply ensures_bind with (Q := λ _, True); [by intros ?????|]. intros ?.
      eapply ensures_bind with (Q := λ _, True); [by apply ensures_modify|]. intros [].
      eapply ensures_bind with (Q := λ _, True); [by apply ensures_modify|]. intros [].
      eapply ensures_pre; [|apply processStructure_has_level]. by right.
    + intros i multiplier item.
      eapply ensures_bind; [apply getBit_has_level|]. intros ?.
      eapply ensures_bind; [apply add_has_level|]. intros [].
      eapply ensures_bind; [apply add_has_level|]. intros [].
      eapply ensures_pre; [|apply processStructure_has_level]. by left.
Qed.

Lemma traverse_has_level_1 g a t u :
  traversed h (VRef a) = true →
  traverse xxHash32 h g (VRef a) = Ok u t → has_level 1 t.
Proof.
  intros Htrav Hrun. unfold traverse, depth_bound in Hrun.
  by eapply (root_has_level_1 _ _ _ Htrav) in Hrun.
Qed.

End Levels.

(** ** The states the operations reach *)

Section Reach.
Variable xxHash32 : string → string.
Variable hash : string → string.
Variable h : heap.

Local Abbreviation consistent := (cache_consistent xxHash32 h).
Local Abbreviation gen := (generateStructureId xxHash32 h).

Lemma traversed_ref obj : traversed h obj = true → ∃ a, obj = VRef a.
Proof. destruct obj; try done. eauto. Qed.

Lemma stableIdOf_agree g1 g2 v :
  keys_agree xxHash32 (GLOBAL_KEY_MAP g1) (GLOBAL_KEY_MAP g2) →
  stableIdOf xxHash32 h g1 v = stableIdOf xxHash32 h g2 v.
Proof. intros Hk. unfold stableIdOf. by rewrite (levels_agree _ _ g1 g2). Qed.

Lemma signatureOf_agree g1 g2 v :
  keys_agree xxHash32 (GLOBAL_KEY_MAP g1) (GLOBAL_KEY_MAP g2) →
  signatureOf xxHash32 h g1 v = signatureOf xxHash32 h g2 v.
Proof. intros Hk. unfold signatureOf. by rewrite (levels_agree _ _ g1 g2). Qed.

Lemma cache_consistent_update g g' :
  keys_agree xxHash32 (GLOBAL_KEY_MAP g) (GLOBAL_KEY_MAP g') →
  (∀ a id, OBJECT_ID_CACHE g' !! a = Some id →
     OBJECT_ID_CACHE g !! a = Some id ∨ stableIdOf xxHash32 h g (VRef a) = Some id) →
  consistent g → consistent g'.
Proof.
  intros Hk Hcache Hg a id Ha. rewrite <-(stableIdOf_agree g g') by done.
  destruct (Hcache a id Ha) as [Hold|Hnew]; [by apply Hg|done].
Qed.

Lemma cache_consistent_same g g' :
  GLOBAL_KEY_MAP g' = GLOBAL_KEY_MAP g → OBJECT_ID_CACHE g' = OBJECT_ID_CACHE g →
  consistent g → consistent g'.
Proof.
  intros Hk Hc. apply cache_consistent_update.
  - rewrite Hk. apply keys_agree_refl.
  - intros a id. rewrite Hc. auto.
Qed.

Lemma cache_consistent_empty g : OBJECT_ID_CACHE g = ∅ → consistent g.
Proof. intros Hc a id. by rewrite Hc, lookup_empty. Qed.

(** What a call of [gen] leaves behind. *)
Lemma generateStructureId_outcome obj config g :
  match gen obj config g with
  | Ok id g' =>
      keys_agree xxHash32 (GLOBAL_KEY_MAP g) (GLOBAL_KEY_MAP g')
      ∧ globalConfig g' = globalConfig g
      ∧ (collisionMode (default (globalConfig g) config) = false →
         STRUCTURE_HASH_COUNTER g' = STRUCTURE_HASH_COUNTER g)
      ∧ (∀ a id', OBJECT_ID_CACHE g' !! a = Some id' →
           OBJECT_ID_CACHE g !! a = Some id'
           ∨ stableIdOf xxHash32 h g (VRef a) = Some id')
  | Throw _ g' =>
      keys_agree xxHash32 (GLOBAL_KEY_MAP g) (GLOBAL_KEY_MAP g')
      ∧ same_but_keys g g' ∧ ¬ hash_contract xxHash32
  | OutOfFuel => False
  end.
Proof.
  destruct (traversed h obj) eqn:Htrav.
  2:{ rewrite generateStructureId_fixed by done.
      split; [apply keys_agree_refl|]. by auto. }
  destruct (traversed_ref _ Htrav) as [a ->].
  rewrite generateStructureId_traversed by done. cbv zeta.
  destruct (collisionMode (default (globalConfig g) config)) eqn:Hmode.
  - pose proof (traverse_during xxHash32 h g (VRef a)) as Hrun.
    destruct (traverse xxHash32 h g (VRef a)) as [[] t|e t|]; [|done..].
    destruct Hrun as (Hk & Hc & Hid & Hsig & Hinfo & Hcfg). simpl.
    split; [done|]. split; [done|]. split; [by intros [=]|].
    intros a' id'. rewrite <-Hid. auto.
  - destruct (OBJECT_ID_CACHE g !! a) as [cached|] eqn:Hcached.
    { split; [apply keys_agree_refl|]. by auto. }
    pose proof (traverse_during xxHash32 h g (VRef a)) as Hrun.
    destruct (traverse xxHash32 h g (VRef a)) as [[] t|e t|] eqn:Htraverse; [|done..].
    destruct Hrun as (Hk & Hc & Hid & Hsig & Hinfo & Hcfg). simpl.
    split; [done|]. split; [done|]. split; [done|].
    intros a' id'. rewrite <-Hid.
    destruct (decide (a = a')) as [<-|Hne].
    + rewrite lookup_insert_eq. intros [= <-]. right.
      unfold stableIdOf, levels. by rewrite Htraverse.
    + rewrite lookup_insert_ne by done. auto.
Qed.

Lemma generateStructureId_consistent obj config :
  triple consistent (gen obj config)
    (λ _, consistent) consistent.
Proof.
  intros g Hg. pose proof (generateStructureId_outcome obj config g) as Hout.
  destruct (gen obj config g) as [id g'|e g'|]; [..|done].
  - destruct Hout as (Hk & _ & _ & Hcache). by eapply cache_consistent_update.
  - destruct Hout as (Hk & (_ & Hid & _) & _).
    eapply cache_consistent_update; [done| |done]. intros a id. rewrite <-Hid. auto.
Qed.

(** Under the contract of the hash every call returns. *)
Lemma generateStructureId_returns obj config g :
  hash_contract xxHash32 → ∃ id g', gen obj config g = Ok id g'.
Proof.
  intros Hhash. pose proof (generateStructureId_outcome obj config g) as Hout.
  destruct (gen obj config g) as [id g'|e g'|]; [by eauto| |done].
  by destruct Hout as (_ & _ & ?).
Qed.

Lemma getStructureSignature_consistent obj :
  triple consistent (getStructureSignature xxHash32 h obj)
    (λ _, consistent) consistent.
Proof.
  unfold getStructureSignature.
  destruct (negb _ || _). { by apply triple_ret. }
  destruct obj as [| |b1|x1|s1|z1|d1|n1|a]; try by apply triple_ret.
  eapply triple_bind with (Q := λ _, consistent); [by apply triple_get|].
  intros g. destruct (OBJECT_SIGNATURE_CACHE g !! a). { by apply triple_ret. }
  eapply triple_bind; [apply generateStructureId_consistent|]. intros tempId.
  eapply triple_bind with (Q := λ _, consistent); [|intros []; by apply triple_ret].
  apply triple_modify. intros g'. by apply cache_consistent_same.
Qed.

Lemma registerStructure_consistent obj n :
  triple consistent (registerStructure xxHash32 h obj n)
    (λ _, consistent) consistent.
Proof.
  unfold registerStructure.
  eapply triple_bind; [apply getStructureSignature_consistent|]. intros signature.
  apply triple_modify. intros g'. by apply cache_consistent_same.
Qed.

Lemma getStructureInfo_consistent obj config :
  triple consistent (getStructureInfo xxHash32 h obj config)
    (λ _, consistent) consistent.
Proof.
  unfold getStructureInfo.
  eapply triple_bind with (Q := λ _, consistent); [by apply triple_get|].
  intros g. destruct (negb _ || _).
  { eapply triple_bind; [apply generateStructureId_consistent|]. intros id.
    by apply triple_ret. }
  destruct obj as [| |b1|x1|s1|z1|d1|n1|a]; try by apply triple_ret.
  destruct (STRUCTURE_INFO_CACHE g !! a). { by apply triple_ret. }
  eapply triple_bind with (Q := λ _, consistent).
  { destruct (OBJECT_SIGNATURE_CACHE g !! a); [by apply triple_ret|].
    eapply triple_bind; [apply generateStructureId_consistent|]. intros id.
    by apply triple_ret. }
  intros structureSignature.
  eapply triple_bind with (Q := λ _, consistent); [by apply triple_get|].
  intros g'.
  eapply triple_bind with (Q := λ _, consistent).
  { destruct (collisionMode _); [by apply triple_ret|].
    destruct (OBJECT_ID_CACHE g' !! a); [by apply triple_ret|].
    apply generateStructureId_consistent. }
  intros id.
  eapply triple_bind with (Q := λ _, consistent); [|intros []; by apply triple_ret].
  apply triple_modify. intros g''. by apply cache_consistent_same.
Qed.

Lemma importStructureState_consistent st :
  triple consistent (importStructureState st)
    (λ _, consistent) consistent.
Proof.
  unfold importStructureState.
  eapply triple_conseq with (Q' := λ _ g, OBJECT_ID_CACHE g = ∅)
                            (T' := λ g, OBJECT_ID_CACHE g = ∅) (P' := λ _, True);
    [|done|intros; by apply cache_consistent_empty..].
  eapply triple_bind with (Q := λ _ g, OBJECT_ID_CACHE g = ∅).
  { by apply triple_modify. }
  intros [].
  eapply triple_bind with (Q := λ _ g, OBJECT_ID_CACHE g = ∅).
  { apply triple_for_of. intros e _. unfold import_key, BigInt.
    destruct (Js.BigInt_of_string e.2); [|by intros ??].
    eapply triple_bind with (Q := λ _ g, OBJECT_ID_CACHE g = ∅); [by apply triple_ret|].
    intros ?. by apply triple_modify. }
  intros [].
  eapply triple_bind with (Q := λ _ g, OBJECT_ID_CACHE g = ∅).
  { apply triple_for_of. intros e _. unfold import_counter. by apply triple_modify. }
  intros [].
  apply triple_for_of. intros e _. unfold BigInt.
  destruct (Js.BigInt_of_string e); [|by intros ??].
  eapply triple_bind with (Q := λ _ g, OBJECT_ID_CACHE g = ∅);
    [by apply triple_ret|intros ?; by apply triple_ret].
Qed.

(** Every state that the public operations reach has a consistent
    identifier cache. *)
Lemma reachable_consistent g : reachable xxHash32 hash h g → consistent g.
Proof.
  induction 1 as [|c g Hreach IH]; [by apply cache_consistent_empty|].
  assert (∀ A (m : M state A),
            triple consistent m (λ _, consistent) consistent →
            consistent (final g (m g))) as Hfinal.
  { intros A m Hm. specialize (Hm g IH). by destruct (m g). }
  destruct c; unfold perform; apply Hfinal.
  - apply generateStructureId_consistent.
  - apply getStructureSignature_consistent.
  - apply registerStructure_consistent.
  - apply triple_for_of. intros ??. apply registerStructure_consistent.
  - apply triple_for_of. intros ??. apply triple_modify.
    intros g'. by apply cache_consistent_same.
  - apply getStructureInfo_consistent.
  - apply triple_modify. intros g'. by apply cache_consistent_same.
  - eapply triple_bind with (Q := λ _, consistent); [by apply triple_get|].
    intros ?. by apply triple_ret.
  - apply triple_modify. intros g' _. by apply cache_consistent_empty.
  - eapply triple_bind with (Q := λ _, consistent); [by apply triple_get|].
    intros ?. by apply triple_ret.
  - apply importStructureState_consistent.
  - eapply triple_bind; [apply generateStructureId_consistent|]. intros ?.
    by apply triple_ret.
  - eapply triple_bind; [apply getStructureInfo_consistent|]. intros i.
    destruct obj; try by apply triple_ret.
    eapply triple_bind with (Q := λ _, consistent); [|intros []; by apply triple_ret].
    apply triple_modify. intros g'. by apply cache_consistent_same.
Qed.

End Reach.

(** ** Answers *)

Section Answers.
Variable xxHash32 : string → string.
Variable hash : string → string.
Variable h : heap.

Local Abbreviation consistent := (cache_consistent xxHash32 h).
Local Abbreviation gen := (generateStructureId xxHash32 h).
Local Abbreviation stableId := (stableIdOf xxHash32 h).
Local Abbreviation levelsOf := (levels xxHash32 h).


Lemma returned_stable a config g :
  traversed h (VRef a) = true →
  collisionMode (default (globalConfig g) config) = false →
  consistent g →
  returned (gen (VRef a) config g) = stableId g (VRef a).
Proof.
  intros Htrav Hmode Hg. rewrite generateStructureId_traversed by done.
  cbv zeta. rewrite Hmode.
  destruct (OBJECT_ID_CACHE g !! a) as [cached|] eqn:Hcached.
  { symmetry. by apply Hg. }
  unfold stableIdOf, levels.
  by destruct (traverse xxHash32 h g (VRef a)) as [[] t|e t|].
Qed.

Lemma returned_counted a config g :
  traversed h (VRef a) = true →
  collisionMode (default (globalConfig g) config) = true →
  returned (gen (VRef a) config g)
  = countedId (STRUCTURE_HASH_COUNTER g) <$> levelsOf g (VRef a).
Proof.
  intros Htrav Hmode. rewrite generateStructureId_traversed by done.
  cbv zeta. rewrite Hmode. unfold levels.
  pose proof (traverse_during xxHash32 h g (VRef a)) as Hrun.
  destruct (traverse xxHash32 h g (VRef a)) as [[] t|e t|]; [|done..].
  destruct Hrun as (_ & Hc & _). simpl. unfold countedId. by rewrite Hc.
Qed.

Lemma traversed_related R v1 v2 :
  shape_correspondence h R → val_rel h R v1 v2 →
  traversed h v1 = traversed h v2 ∧ (traversed h v1 = false → fixed_id h v1 = fixed_id h v2).
Proof.
  intros HR Hv.
  destruct v1 as [| |b1|x1|s1|z1|d1|n1|a], v2 as [| |b2|x2|s2|z2|d2|n2|b]; try done;
    try (split; [done|]; intros _; unfold fixed_id, getType in *;
         simpl in Hv; simpl; by simplify_eq).
  pose proof (shape_objects _ _ HR a b Hv) as Hobj. simpl.
  destruct (h !! a) as [[c1 p1|l1]|], (h !! b) as [[c2 p2|l2]|]; try done.
  - destruct Hobj as [Hperm _]. apply Permutation_length in Hperm.
    rewrite !length_fmap in Hperm. by rewrite Hperm.
  - apply Forall2_length in Hobj. by rewrite Hobj.
Qed.

(** Values of the same shape get the same answer from one state. *)
Lemma same_shape_same_answer R v1 v2 config g :
  shape_correspondence h R → val_rel h R v1 v2 → consistent g →
  returned (gen v1 config g) = returned (gen v2 config g).
Proof.
  intros HR Hv Hg. destruct (traversed_related R v1 v2 HR Hv) as [Htrav Hfixed].
  destruct (traversed h v1) eqn:Htrav1.
  2:{ rewrite !generateStructureId_fixed by done. simpl. f_equal. by apply Hfixed. }
  destruct (traversed_ref h _ Htrav1) as [a ->].
  symmetry in Htrav. destruct (traversed_ref h _ Htrav) as [b ->].
  pose proof (levels_related xxHash32 h R g g (VRef a) (VRef b) HR Hv
                (keys_agree_refl _ _)) as Hlevels.
  destruct (collisionMode (default (globalConfig g) config)) eqn:Hmode.
  - rewrite !returned_counted by done. by rewrite Hlevels.
  - rewrite !returned_stable by done. unfold stableIdOf. by rewrite Hlevels.
Qed.

Lemma final_keeps obj config g :
  let g' := final g (gen obj config g) in
  keys_agree xxHash32 (GLOBAL_KEY_MAP g) (GLOBAL_KEY_MAP g')
  ∧ globalConfig g' = globalConfig g
  ∧ (consistent g → consistent g').
Proof.
  pose proof (generateStructureId_outcome xxHash32 h obj config g) as Hout.
  pose proof (generateStructureId_consistent xxHash32 h obj config g) as Hcons.
  destruct (gen obj config g) as [id g'|e g'|]; simpl.
  - by destruct Hout as (? & ? & _).
  - destruct Hout as (? & (_&_&_&_&?) & _). done.
  - split; [apply keys_agree_refl|done].
Qed.

(** And from a state that an earlier call left, in stable mode. *)
Lemma same_shape_same_answer_after R v1 v2 config g :
  shape_correspondence h R → val_rel h R v1 v2 → consistent g →
  collisionMode (default (globalConfig g) config) = false →
  returned (gen v2 config (final g (gen v1 config g)))
  = returned (gen v1 config g).
Proof.
  intros HR Hv Hg Hmode. destruct (traversed_related R v1 v2 HR Hv) as [Htrav Hfixed].
  destruct (final_keeps v1 config g) as (Hk & Hcfg & Hcons).
  destruct (traversed h v1) eqn:Htrav1.
  2:{ rewrite !generateStructureId_fixed by done. simpl. f_equal.
      symmetry. by apply Hfixed. }
  destruct (traversed_ref h _ Htrav1) as [a ->].
  symmetry in Htrav. destruct (traversed_ref h _ Htrav) as [b ->].
  rewrite !returned_stable by (rewrite ?Hcfg; auto).
  rewrite <-(stableIdOf_agree xxHash32 h g) by done.
  unfold stableIdOf.
  by rewrite (levels_related xxHash32 h R g g (VRef a) (VRef b) HR Hv (keys_agree_refl _ _)).
Qed.

End Answers.

(** ** Traversals that ask for the keys in [K] only

    A traversal asks [getBit] for the names of the properties it meets
    and for keys that it builds, none of which is ["__proto__"]. *)

Section Asked.
Variable xxHash32 : string → string.
Variable h : heap.
Variable K : string → Prop.
Hypothesis HK : ∀ key, key ≠ "__proto__" → K key.

Local Abbreviation in_step := (trav_on xxHash32 K).

Lemma keys_agree_on_step km1 km2 km1' km2' :
  keys_agree_on xxHash32 K km1 km2 →
  keys_agree xxHash32 km1 km1' → keys_agree xxHash32 km2 km2' →
  keys_agree_on xxHash32 K km1' km2'.
Proof. intros H H1 H2 key Hkey. by rewrite <-H1, <-H2, H. Qed.

Lemma getBit_on key :
  K key →
  related in_step (global (getBit xxHash32 key)) (global (getBit xxHash32 key)) eq.
Proof.
  intros Hkey t1 t2 (Hlh & Hkeys & Hom). unfold global.
  pose proof (getBit_bitOf xxHash32 key (globals t1)) as H1.
  pose proof (getBit_bitOf xxHash32 key (globals t2)) as H2.
  rewrite (Hkeys key Hkey) in H1.
  destruct (getBit xxHash32 key (globals t1)) as [bit1 g1|e1 g1|],
           (getBit xxHash32 key (globals t2)) as [bit2 g2|e2 g2|]; try done.
  - destruct H1 as (Hb1 & Hk1 & _), H2 as (Hb2 & Hk2 & _).
    split; [by simplify_eq|]. split; [done|]. split; [|done]. simpl.
    by eapply keys_agree_on_step.
  - destruct H1 as (Hb1 & _), H2 as (Hb2 & _). by simplify_eq.
  - destruct H1 as (Hb1 & _), H2 as (Hb2 & _). by simplify_eq.
  - destruct H1 as (_ & -> & ->), H2 as (_ & -> & ->).
    split; [done|]. by split.
Qed.

Lemma seed_on level : related in_step (seed level) (seed level) (λ _ _, True).
Proof.
  apply related_modify. intros t1 t2 (Hlh & Hkeys & Hom). rewrite Hlh.
  destruct (levelHashes t2 !! level) as [z|]; [destruct (z =? 0)|];
    repeat split; simpl; try done; by rewrite ?Hlh.
Qed.

Lemma add_on level x : related in_step (add level x) (add level x) (λ _ _, True).
Proof.
  apply related_modify. intros t1 t2 (Hlh & Hkeys & Hom).
  repeat split; simpl; try done; by rewrite ?Hlh.
Qed.

Local Abbreviation named_in := (named_in h K).

Lemma named_in_prop a k :
  named_in (VRef a) → k ∈ keys h (VRef a) →
  K k ∧ named_in (prop h (VRef a) k).
Proof.
  intros Hnamed Hk. unfold keys in Hk.
  destruct (h !! a) as [[class props|l]|] eqn:Ha; try by apply elem_of_nil in Hk.
  split.
  - apply Hnamed. by eapply holds_own.
  - intros key Hchild. apply Hnamed. by eapply holds_prop.
Qed.

Lemma named_in_elem a item :
  named_in (VRef a) → item ∈ elems h (VRef a) → named_in item.
Proof.
  intros Hnamed Hitem key Hchild. unfold elems in Hitem.
  destruct (h !! a) as [[class props|l]|] eqn:Ha; try by apply elem_of_nil in Hitem.
  apply Hnamed. by eapply holds_elem.
Qed.

(** Two traversals of a value whose property names are in [K] go in
    step. *)
Lemma processStructure_on fuel :
  ∀ v level path, named_in v →
    related in_step (processStructure xxHash32 h fuel v level path)
                     (processStructure xxHash32 h fuel v level path) (λ _ _, True).
Proof.
  induction fuel as [|fuel IH]; intros v level path Hv; simpl.
  { by intros t1 t2 _. }
  eapply related_bind; [apply seed_on|]. intros _ _ _.
  eapply related_bind; [apply add_on|]. intros _ _ _.
  destruct (negb (String.eqb (getType h v) "object")
            && negb (String.eqb (getType h v) "array")) eqn:Hscalar.
  { by apply related_ret. }
  destruct (isObject h v || isArray h v); [|by apply related_ret].
  destruct v as [| |b1|x1|s1|z1|d1|n1|a]; try by apply related_ret.
  eapply related_bind; [apply related_get|]. intros t1 t2 Ht.
  destruct Ht as (Hlh & Hkeys & Hom). rewrite <-Hom.
  destruct (objectMap t1 !! a) as [circularPath|].
  { eapply related_bind; [by apply getBit_on, HK|]. intros ? ? <-. apply add_on. }
  eapply related_bind.
  { apply related_modify. intros ?? (?&?&Hom'). repeat split; simpl; try done.
    by rewrite Hom'. }
  intros _ _ _.
  eapply related_bind.
  { apply getBit_on, HK. by destruct (isArray h (VRef a)). }
  intros ? ? <-.
  eapply related_bind; [apply add_on|]. intros _ _ _.
  destruct (negb (Nat.eqb level 0) || _); [|by apply related_ret].
  destruct (String.eqb (getType h (VRef a)) "object").
  - apply related_for_each with (P := λ x y, x = y ∧ x ∈ keys h (VRef a)).
    { apply Forall_Forall2_diag, Forall_forall. intros key Hkey. split; [done|].
      unfold Js.sort in Hkey. by rewrite merge_sort_Permutation in Hkey. }
    intros _ multiplier key ? [<- Hkey].
    destruct (named_in_prop _ _ Hv Hkey) as [HKkey Hchild].
    eapply related_bind; [by apply getBit_on|]. intros ? ? <-.
    eapply related_bind; [apply add_on|]. intros _ _ _.
    eapply related_bind; [apply add_on|]. intros _ _ _.
    by apply IH.
  - destruct (String.eqb (getType h (VRef a)) "array"); [|by apply related_ret].
    eapply related_bind; [by apply getBit_on, HK|]. intros ? ? <-.
    eapply related_bind; [apply add_on|]. intros _ _ _.
    apply related_for_each with (P := λ x y, x = y ∧ x ∈ elems h (VRef a)).
    { apply Forall_Forall2_diag, Forall_forall. by intros item Hitem. }
    intros i multiplier item ? [<- Hitem].
    eapply related_bind; [by apply getBit_on, HK|]. intros ? ? <-.
    eapply related_bind; [apply add_on|]. intros _ _ _.
    eapply related_bind; [apply add_on|]. intros _ _ _.
    apply IH. by eapply named_in_elem.
Qed.

Lemma levels_on g1 g2 v :
  named_in v →
  keys_agree_on xxHash32 K (GLOBAL_KEY_MAP g1) (GLOBAL_KEY_MAP g2) →
  levels xxHash32 h g1 v = levels xxHash32 h g2 v.
Proof.
  intros Hv Hkeys.
  pose proof (processStructure_on (depth_bound h) v 0%nat [] Hv
                (mkTrav g1 ∅ ∅) (mkTrav g2 ∅ ∅)) as Hrun.
  unfold levels, traverse.
  destruct (processStructure _ _ _ v _ _ (mkTrav g1 ∅ ∅)) as [[] t1|e1 t1|],
           (processStructure _ _ _ v _ _ (mkTrav g2 ∅ ∅)) as [[] t2|e2 t2|]; try done.
  all: try (exfalso; apply Hrun; by split).
  destruct Hrun as [_ (Hlh & _)]; [by split|]. by rewrite Hlh.
Qed.

(** No signature is the string ["__proto__"]: it is empty or starts
    with the [L] of a label. *)
Lemma signature_not_proto lh : Js.join "-" (structureLevels lh) ≠ "__proto__".
Proof.
  unfold structureLevels.
  destruct (sort_levels _) as [|e [|e' l]]; [done| |]; simpl; by destruct e.
Qed.

Local Abbreviation consistent := (cache_consistent xxHash32 h).
Local Abbreviation gen := (generateStructureId xxHash32 h).
Local Abbreviation genMany := (generateMany xxHash32 h).
Local Abbreviation alike := (same_answers xxHash32 h K).

(** A call on a value whose property names are in [K] answers two such
    states alike and leaves two such states. *)
Lemma same_answers_step obj config g1 g2 :
  named_in obj →
  alike g1 g2 →
  returned (gen obj config g1) = returned (gen obj config g2)
  ∧ alike (final g1 (gen obj config g1))
          (final g2 (gen obj config g2)).
Proof.
  intros Hobj (Hk & Hc & Hcfg & Hg1 & Hg2).
  destruct (traversed h obj) eqn:Htrav.
  2:{ rewrite !generateStructureId_fixed by done. simpl. by repeat split. }
  destruct (traversed_ref h _ Htrav) as [a ->].
  pose proof (levels_on g1 g2 (VRef a) Hobj Hk) as Hlevels.
  destruct (final_keeps xxHash32 h (VRef a) config g1) as (Hk1 & Hcfg1 & Hcons1).
  destruct (final_keeps xxHash32 h (VRef a) config g2) as (Hk2 & Hcfg2 & Hcons2).
  assert (keys_agree_on xxHash32 K
            (GLOBAL_KEY_MAP (final g1 (gen (VRef a) config g1)))
            (GLOBAL_KEY_MAP (final g2 (gen (VRef a) config g2)))) as Hk'.
  { by eapply keys_agree_on_step. }
  destruct (collisionMode (default (globalConfig g1) config)) eqn:Hmode1.
  - assert (collisionMode (default (globalConfig g2) config) = true) as Hmode2
      by (by rewrite <-Hcfg).
    split.
    { rewrite !returned_counted by done. rewrite Hlevels.
      destruct (levels xxHash32 h g2 (VRef a)) as [lh|]; [|done]. simpl.
      unfold countedId. by rewrite (Hc _ (signature_not_proto lh)). }
    split; [done|]. split; [|split; [congruence|auto]].
    revert Hlevels. unfold levels.
    rewrite !generateStructureId_traversed by done. cbv zeta. rewrite Hmode1, Hmode2.
    pose proof (traverse_during xxHash32 h g1 (VRef a)) as Hrun1.
    pose proof (traverse_during xxHash32 h g2 (VRef a)) as Hrun2.
    destruct (traverse xxHash32 h g1 (VRef a)) as [[] t1|e1 t1|],
             (traverse xxHash32 h g2 (VRef a)) as [[] t2|e2 t2|]; try done; simpl.
    + destruct Hrun1 as (_ & Hc1 & _), Hrun2 as (_ & Hc2 & _).
      intros [= ->] signature Hsignature. rewrite <-Hc1, <-Hc2.
      rewrite (Hc _ (signature_not_proto (levelHashes t2))).
      destruct (decide (Js.join "-" (structureLevels (levelHashes t2)) = signature))
        as [<-|Hne].
      * by rewrite !lookup_insert_eq.
      * rewrite !lookup_insert_ne by done. by apply Hc.
    + destruct Hrun1 as (_ & (Hc1 & _) & _), Hrun2 as (_ & (Hc2 & _) & _).
      intros _ signature Hsignature. rewrite <-Hc1, <-Hc2. by apply Hc.
  - assert (collisionMode (default (globalConfig g2) config) = false) as Hmode2
      by (by rewrite <-Hcfg).
    split.
    { rewrite !returned_stable by done. unfold stableIdOf. by rewrite Hlevels. }
    split; [done|]. split; [|split; [congruence|auto]].
    pose proof (generateStructureId_outcome xxHash32 h (VRef a) config g1) as Hout1.
    pose proof (generateStructureId_outcome xxHash32 h (VRef a) config g2) as Hout2.
    destruct (gen (VRef a) config g1) as [id1 g1'|e1 g1'|],
             (gen (VRef a) config g2) as [id2 g2'|e2 g2'|]; try done; simpl.
    + destruct Hout1 as (_ & _ & Hc1 & _), Hout2 as (_ & _ & Hc2 & _).
      rewrite Hc1, Hc2 by done. done.
    + destruct Hout1 as (_ & _ & Hc1 & _), Hout2 as (_ & (Hc2 & _) & _).
      rewrite Hc1 by done. rewrite <-Hc2. done.
    + destruct Hout1 as (_ & (Hc1 & _) & _), Hout2 as (_ & _ & Hc2 & _).
      rewrite Hc2 by done. rewrite <-Hc1. done.
    + destruct Hout1 as (_ & (Hc1 & _) & _), Hout2 as (_ & (Hc2 & _) & _).
      rewrite <-Hc1, <-Hc2. done.
Qed.

Lemma same_answers_many calls : ∀ g1 g2,
  (∀ c, c ∈ calls → named_in c.1) →
  alike g1 g2 →
  returned (genMany calls g1) = returned (genMany calls g2).
Proof.
  induction calls as [|c calls IH]; intros g1 g2 Hcalls Hg; [done|]. simpl.
  destruct (same_answers_step c.1 c.2 g1 g2) as [Hret Hfinal];
    [apply Hcalls; by left|done|]. unfold bind.
  destruct (gen c.1 c.2 g1) as [id1 g1'|e1 g1'|],
           (gen c.1 c.2 g2) as [id2 g2'|e2 g2'|]; try done.
  simpl in Hret, Hfinal. injection Hret as ->.
  assert (returned (genMany calls g1') = returned (genMany calls g2')) as Hrest.
  { apply IH; [|done]. intros c' Hc'. apply Hcalls. by right. }
  destruct (genMany calls g1') as [ids1 g1''|? ?|],
           (genMany calls g2') as [ids2 g2''|? ?|]; try done.
  simpl in *. by injection Hrest as ->.
Qed.

End Asked.

(** ** Export and import *)

Section RoundTrip.
Variable xxHash32 : string → string.
Variable hash : string → string.
Variable h : heap.

(** *** Export and import *)

Lemma store_all_list_to_map {V} (l : list (string * V)) m :
  NoDup l.*1 → store_all l m = list_to_map l ∪ m.
Proof.
  unfold store_all. revert m.
  induction l as [|[k v] l IH]; intros m Hnodup.
  { simpl. by rewrite (left_id_L ∅ (∪)). }
  rewrite fmap_cons in Hnodup. apply NoDup_cons in Hnodup as [Hk Hnodup].
  simpl. rewrite IH by done.
  rewrite <-insert_union_l. symmetry. apply insert_union_r.
  by apply not_elem_of_list_to_map_1.
Qed.

Lemma store_all_map_to_list {V} (m : gmap string V) : store_all (map_to_list m) ∅ = m.
Proof.
  rewrite store_all_list_to_map by apply NoDup_fst_map_to_list.
  by rewrite list_to_map_to_list, (right_id_L ∅ (∪)).
Qed.

Lemma bind_Ok {St A B} (m : M St A) (k : A → M St B) s a s' :
  m s = Ok a s' → bind m k s = k a s'.
Proof. unfold bind. by intros ->. Qed.

Lemma bind_Throw {St A B} (m : M St A) (k : A → M St B) s e s' :
  m s = Throw e s' → bind m k s = Throw e s'.
Proof. unfold bind. by intros ->. Qed.


Lemma import_keys_run l : ∀ g,
  for_of import_key l g =
    let (good, complete) := parse_entries l in
    if complete then Ok tt (set_GLOBAL_KEY_MAP (store_all good (GLOBAL_KEY_MAP g)) g)
    else Throw Js.SyntaxError (set_GLOBAL_KEY_MAP (store_all good (GLOBAL_KEY_MAP g)) g).
Proof.
  induction l as [|e l IH]; intros g.
  { by destruct g. }
  cbn [for_of parse_entries].
  destruct (Js.BigInt_of_string e.2) as [bit|] eqn:Hbit.
  - rewrite (bind_Ok _ _ g tt (set_GLOBAL_KEY_MAP (<[e.1 := bit]> (GLOBAL_KEY_MAP g)) g)).
    2:{ unfold import_key, BigInt. by rewrite Hbit. }
    rewrite IH. by destruct (parse_entries l) as [good []].
  - rewrite (bind_Throw _ _ g Js.SyntaxError g).
    2:{ unfold import_key, BigInt. by rewrite Hbit. }
    by destruct g.
Qed.

Lemma import_counters_run l : ∀ g,
  for_of import_counter l g =
    Ok tt (set_STRUCTURE_HASH_COUNTER (store_all l (STRUCTURE_HASH_COUNTER g)) g).
Proof.
  induction l as [|e l IH]; intros g.
  { by destruct g. }
  cbn [for_of].
  rewrite (bind_Ok _ _ g tt
             (set_STRUCTURE_HASH_COUNTER (<[e.1 := e.2]> (STRUCTURE_HASH_COUNTER g)) g))
    by done.
  by rewrite IH.
Qed.

Lemma import_max_run l good : ∀ g,
  parse_entries l = (good, true) →
  for_of (λ bitStr : string, let* bit := BigInt bitStr in ret tt) l.*2 g = Ok tt g.
Proof.
  revert good. induction l as [|e l IH]; intros good g; [done|].
  rewrite fmap_cons. cbn [for_of parse_entries].
  destruct (Js.BigInt_of_string e.2) as [bit|] eqn:Hbit; [|done].
  destruct (parse_entries l) as [good' complete] eqn:Hl. intros [= <- ->].
  rewrite (bind_Ok _ _ g tt g).
  2:{ unfold bind, BigInt. by rewrite Hbit. }
  by eapply IH.
Qed.

(** What an import does: no entry is validated beyond what [BigInt]
    reads, and the state is reset before the first entry is read. *)
Lemma importStructureState_run st g :
  importStructureState st g =
    let (good, complete) := parse_entries (keyMap st) in
    if complete then
      Ok tt (mkState (store_all good ∅) (store_all (collisionCounters st) ∅)
               ∅ ∅ ∅ (globalConfig g))
    else
      Throw Js.SyntaxError (mkState (store_all good ∅) ∅ ∅ ∅ ∅ (globalConfig g)).
Proof.
  unfold importStructureState, resetState.
  rewrite (bind_Ok _ _ g tt (mkState ∅ ∅ ∅ ∅ ∅ (globalConfig g))) by done.
  pose proof (import_keys_run (keyMap st) (mkState ∅ ∅ ∅ ∅ ∅ (globalConfig g))) as Hkeys.
  destruct (parse_entries (keyMap st)) as [good [|]] eqn:Hparse.
  - rewrite (bind_Ok _ _ _ _ _ Hkeys).
    rewrite (bind_Ok _ _ _ _ _ (import_counters_run _ _)).
    by rewrite (import_max_run _ _ _ Hparse).
  - by rewrite (bind_Throw _ _ _ _ _ Hkeys).
Qed.

End RoundTrip.

(** *** The snapshot *)

Lemma assign_foldl {V W} (f : V → W) (l : list (string * V)) : ∀ record : gmap string W,
  foldl (λ record e, assign record e.1 (f e.2)) record l
  = store_all ((λ e, (e.1, f e.2)) <$> filter (λ e, e.1 ≠ "__proto__") l) record.
Proof.
  induction l as [|[k v] l IH]; intros record; [done|].
  cbn [foldl]. rewrite IH. unfold assign. cbn [fst snd].
  rewrite filter_cons. cbn [fst].
  destruct (String.eqb_spec k "__proto__") as [->|Hne].
  - by rewrite decide_False by (by intros ?).
  - by rewrite decide_True by done.
Qed.

Lemma store_all_fmap {V W} (f : V → W) (l : list (string * V)) :
  NoDup l.*1 →
  store_all ((λ e, (e.1, f e.2)) <$> l) ∅ = f <$> (list_to_map l : gmap string V).
Proof.
  intros Hnodup. rewrite store_all_list_to_map.
  2:{ rewrite <-list_fmap_compose. by erewrite list_fmap_ext. }
  rewrite (right_id_L ∅ (∪)). clear Hnodup.
  induction l as [|[k v] l IH]; [symmetry; apply fmap_empty|].
  rewrite fmap_cons. cbn [list_to_map foldr fst snd]. rewrite fmap_insert.
  f_equal. exact IH.
Qed.

(** The plain object that the loop of an export fills. *)
Lemma assign_map_to_list {V W} (f : V → W) (m : gmap string V) :
  foldl (λ record e, assign record e.1 (f e.2)) ∅ (map_to_list m)
  = f <$> delete "__proto__" m.
Proof.
  rewrite assign_foldl.
  assert (NoDup (filter (λ e : string * V, e.1 ≠ "__proto__") (map_to_list m)).*1)
    as Hnodup.
  { apply (sublist_NoDup _ (map_to_list m).*1); [apply NoDup_fst_map_to_list|].
    apply fmap_sublist, sublist_filter. }
  rewrite store_all_fmap by done. f_equal.
  apply map_eq. intros k. apply option_eq. intros v.
  rewrite <-elem_of_list_to_map by done.
  rewrite list_elem_of_filter, elem_of_map_to_list, lookup_delete_Some. simpl.
  split; intros [??]; by split.
Qed.

(** What [BigInt] reads from the strings of bigints. *)
Lemma parse_entries_strings (m : gmap string Z) :
  ∃ good, parse_entries (map_to_list (Js.toString <$> m)) = (good, true)
          ∧ store_all good ∅ = m.
Proof.
  assert (∀ l : list (string * string),
            Forall (λ e, ∃ z, e.2 = Js.toString z) l →
            parse_entries l
            = ((λ e, (e.1, default 0 (Js.BigInt_of_string e.2))) <$> l, true)) as Hread.
  { induction l as [|[k s] l IH]; [done|]. intros Hl.
    apply Forall_cons in Hl as [[z Hz] Hl]. simpl in Hz. subst s.
    rewrite fmap_cons. cbn [parse_entries fst snd].
    by rewrite JsFacts.BigInt_toString, IH. }
  eexists. split.
  - apply Hread, Forall_forall. intros [k s] Hin.
    apply elem_of_map_to_list in Hin. rewrite lookup_fmap in Hin.
    destruct (m !! k) as [z|]; [|done]. simpl in Hin. exists z. by simplify_eq.
  - rewrite (store_all_fmap (λ s, default 0 (Js.BigInt_of_string s)))
      by apply NoDup_fst_map_to_list.
    rewrite list_to_map_to_list, <-map_fmap_compose.
    rewrite <-(map_fmap_id m) at 2. apply map_fmap_ext. intros k z _. simpl.
    by rewrite JsFacts.BigInt_toString.
Qed.

(** What an export returns. *)
Lemma exportStructureState_run g :
  exportStructureState g
  = Ok (mkStructureState
          (map_to_list (Js.toString <$> delete "__proto__" (GLOBAL_KEY_MAP g)))
          (map_to_list (delete "__proto__" (STRUCTURE_HASH_COUNTER g)))) g.
Proof.
  unfold exportStructureState, bind, get, ret.
  rewrite (assign_map_to_list Js.toString).
  pose proof (assign_map_to_list id (STRUCTURE_HASH_COUNTER g)) as Hcounters.
  unfold id in Hcounters at 1. rewrite Hcounters.
  by rewrite map_fmap_id.
Qed.

(** And what the import of it leaves, from whatever state. *)
Lemma import_of_export g g0 :
  ∃ snapshot,
    exportStructureState g = Ok snapshot g
    ∧ importStructureState snapshot g0
      = Ok tt (mkState (delete "__proto__" (GLOBAL_KEY_MAP g))
                 (delete "__proto__" (STRUCTURE_HASH_COUNTER g)) ∅ ∅ ∅ (globalConfig g0)).
Proof.
  eexists. split; [apply exportStructureState_run|].
  rewrite importStructureState_run. cbn [keyMap collisionCounters].
  destruct (parse_entries_strings (delete "__proto__" (GLOBAL_KEY_MAP g)))
    as (good & -> & ->).
  by rewrite store_all_map_to_list.
Qed.

(** ** Disambiguating mode *)

Section Strings.
Lemma app_nil_l (s : string) : EmptyString +:+ s = s.
Proof. done. Qed.

Lemma app_cons (c : ascii) (s1 s2 : string) : String c s1 +:+ s2 = String c (s1 +:+ s2).
Proof. done. Qed.

Lemma length_app (s1 s2 : string) :
  String.length (s1 +:+ s2) = (String.length s1 + String.length s2)%nat.
Proof.
  induction s1 as [|c s1 IH]; [done|].
  rewrite app_cons. simpl. by rewrite IH.
Qed.

Lemma app_inv_tail (s1 s2 r : string) : s1 +:+ r = s2 +:+ r → s1 = s2.
Proof.
  revert s2. induction s1 as [|c1 s1 IH]; intros [|c2 s2] Heq; [done|..].
  - apply (f_equal String.length) in Heq.
    rewrite app_nil_l, app_cons in Heq. simpl in Heq. rewrite length_app in Heq. lia.
  - apply (f_equal String.length) in Heq.
    rewrite app_nil_l, app_cons in Heq. simpl in Heq. rewrite length_app in Heq. lia.
  - rewrite !app_cons in Heq. injection Heq as -> Heq. f_equal. by apply IH.
Qed.
End Strings.


Section Counting.
Variable xxHash32 : string → string.
Variable h : heap.

Local Abbreviation gen := (generateStructureId xxHash32 h).
Local Abbreviation genMany := (generateMany xxHash32 h).
Local Abbreviation sigOf := (signatureOf xxHash32 h).

Lemma numbered_inj signature : Inj (=) (=) (numbered signature).
Proof.
  intros k1 k2 Heq. unfold numbered in Heq.
  apply String.app_inj in Heq. apply app_inv_tail in Heq.
  apply (inj _) in Heq. lia.
Qed.

(** One call in disambiguating mode on a value of a given signature. *)
Lemma generateStructureId_numbered obj config g signature count :
  traversed h obj = true →
  collisionMode (default (globalConfig g) config) = true →
  sigOf g obj = Some signature →
  default 0 (STRUCTURE_HASH_COUNTER g !! signature) = Z.of_nat count →
  ∃ g', gen obj config g = Ok (numbered signature count) g'
    ∧ keys_agree xxHash32 (GLOBAL_KEY_MAP g) (GLOBAL_KEY_MAP g')
    ∧ globalConfig g' = globalConfig g
    ∧ STRUCTURE_HASH_COUNTER g' = <[signature := Z.of_nat (S count)]> (STRUCTURE_HASH_COUNTER g).
Proof.
  intros Htrav Hmode Hsig Hcount.
  destruct (traversed_ref h _ Htrav) as [a ->].
  rewrite generateStructureId_traversed by done. cbv zeta. rewrite Hmode.
  unfold signatureOf, levels in Hsig.
  pose proof (traverse_during xxHash32 h g (VRef a)) as Hrun.
  pose proof (traverse_has_level_1 xxHash32 h g a) as Hlevel.
  destruct (traverse xxHash32 h g (VRef a)) as [[] t|e t|]; [|done..].
  simpl in Hsig. injection Hsig as Hsig.
  destruct Hrun as (Hk & Hc & _ & _ & _ & Hcfg). specialize (Hlevel t tt Htrav eq_refl).
  assert (Js.join "-" (idParts (<[0%nat := Z.of_nat count]> (levelHashes t)))
          = numbered signature count) as Hid.
  { rewrite idParts_insert_0.
    rewrite join_cons by (by apply structureLevels_nonempty).
    by rewrite Hsig. }
  simpl. rewrite Hsig, <-Hc, Hcount, Hid.
  eexists. split; [done|]. simpl. split; [done|]. split; [done|].
  f_equal. lia.
Qed.

Lemma generateMany_numbered calls signature : ∀ g count,
  (∀ c, c ∈ calls →
     traversed h c.1 = true
     ∧ collisionMode (default (globalConfig g) c.2) = true
     ∧ sigOf g c.1 = Some signature) →
  default 0 (STRUCTURE_HASH_COUNTER g !! signature) = Z.of_nat count →
  returned (genMany calls g) = Some (numbered signature <$> seq count (length calls)).
Proof.
  induction calls as [|c calls IH]; intros g count Hcalls Hcount; [done|].
  destruct (Hcalls c) as (Htrav & Hmode & Hsig); [by left|].
  destruct (generateStructureId_numbered _ _ _ _ _ Htrav Hmode Hsig Hcount)
    as (g' & Hrun & Hk & Hcfg & Hc).
  cbn [generateMany]. rewrite (bind_Ok _ _ _ _ _ Hrun).
  specialize (IH g' (S count)).
  assert (returned (genMany calls g')
          = Some (numbered signature <$> seq (S count) (length calls))) as Hrest.
  { apply IH.
    - intros c' Hc'. destruct (Hcalls c') as (? & ? & ?); [by right|].
      split; [done|]. split; [by rewrite Hcfg|].
      by rewrite <-(signatureOf_agree xxHash32 h g g').
    - rewrite Hc, lookup_insert_eq. done. }
  unfold bind. destruct (genMany calls g') as [ids g''|? ?|]; [|done..].
  simpl in *. by injection Hrest as ->.
Qed.

End Counting.

(** * The claims *)

(** The sample data, evaluated: the empty record; a record with two
    numbers (seed 1, the bit 128 of a record, the bit of ["type:object"],
    and per key the bit of the key and the bit 1 of a number, times the
    rank of the key); an array that holds one record twice, the second
    time as an object already seen. *)
Example empty_record :
  returned (generateStructureId sample_hash sample_heap (VRef 5%nat) None initial)
  = Some "{}".
Proof. by vm_compute. Qed.

Example record_of_two_numbers :
  returned (generateStructureId sample_hash sample_heap (VRef 1%nat) None initial)
  = Some "L0:3735928694-L1:4"
  ∧ 3735928694 = 1 + 128 + 3735928559 + (1 + 1) * 1 + (1 + 1) * 2.
Proof. split; by vm_compute. Qed.

Example shared_record :
  returned (generateStructureId sample_hash sample_heap (VRef 4%nat) None initial)
  = Some "L0:24758992377-L1:5883412471-L2:6".
Proof. by vm_compute. Qed.

Lemma sample_hash_contract : hash_contract sample_hash.
Proof.
  intros key. unfold sample_hash.
  destruct (String.length key mod 4)%nat as [|[|[|n]]]; by eexists.
Qed.

Lemma sample_shape_correspondence : shape_correspondence sample_heap sample_shape.
Proof.
  split.
  - by intros a b b' [-> ->] [_ ->].
  - by intros a a' b [-> ->] [-> _].
  - intros a b [-> ->]. split; [apply perm_swap|].
    intros key [->|[->|[]%elem_of_nil]%elem_of_cons]%elem_of_cons; reflexivity.
Qed.

(** C1, as amended. Order independence: two records that correspond to
    each other in shape get the same identifier, where a correspondence
    of shape matches the objects reached from the one with the objects
    reached from the other, one to one: records with records on the same
    key set whatever the order of insertion, arrays with arrays of the
    same length, children with children of the same type, and an object
    that occurs twice with an object that occurs twice. From every state
    that the public operations reach, under every configuration, a call
    on the one and a call on the other return the same identifier; in
    stable mode the second call also returns it when it follows the
    first; and under the contract of the hash the calls do return. *)
Theorem order_independence xxHash32 hash h R a b classA propsA classB propsB config g :
  shape_correspondence h R →
  R a b →
  h !! a = Some (HObject classA propsA) →
  h !! b = Some (HObject classB propsB) →
  reachable xxHash32 hash h g →
  propsA.*1 ≡ₚ propsB.*1
  ∧ Sorted String.le (Js.sort propsA.*1)
  ∧ Js.sort propsA.*1 = Js.sort propsB.*1
  ∧ returned (generateStructureId xxHash32 h (VRef a) config g)
    = returned (generateStructureId xxHash32 h (VRef b) config g)
  ∧ (collisionMode (default (globalConfig g) config) = false →
     returned (generateStructureId xxHash32 h (VRef b) config
                 (final g (generateStructureId xxHash32 h (VRef a) config g)))
     = returned (generateStructureId xxHash32 h (VRef a) config g))
  ∧ (hash_contract xxHash32 →
     is_Some (returned (generateStructureId xxHash32 h (VRef a) config g))).
Proof.
  intros HR Hab Ha Hb Hreach.
  pose proof (reachable_consistent _ _ _ _ Hreach) as Hg.
  assert (propsA.*1 ≡ₚ propsB.*1) as Hperm.
  { pose proof (shape_objects _ _ HR a b Hab) as Hobj. rewrite Ha, Hb in Hobj.
    by destruct Hobj. }
  split; [done|]. split; [apply Sorted_merge_sort, _|].
  split; [by apply JsFacts.sort_Permutation|].
  split; [by apply (same_shape_same_answer _ _ R)|].
  split; [intros Hmode; by apply (same_shape_same_answer_after _ _ R)|].
  intros Hhash.
  destruct (generateStructureId_returns xxHash32 h (VRef a) config g Hhash) as (id & g' & ->).
  by eexists.
Qed.

Lemma order_independence_witness :
  returned (generateStructureId sample_hash sample_heap (VRef 1%nat) None initial)
  = returned (generateStructureId sample_hash sample_heap (VRef 2%nat) None initial).
Proof.
  refine (proj1 (proj2 (proj2 (proj2
    (order_independence sample_hash sample_digest sample_heap sample_shape
       1%nat 2%nat "Object" [("a", VNumber 1); ("b", VNumber 2)]
       "Object" [("b", VNumber 2); ("a", VNumber 1)] None initial _ _ _ _ _))))).
  - exact sample_shape_correspondence.
  - by split.
  - reflexivity.
  - reflexivity.
  - apply reachable_initial.
Defined.

(** C1 as stated fails on shared children: the records [{x: c, y: c}]
    and [{y: e, x: d}] have the same key set and, under each key,
    children of the same type and of the same shape, [c], [d] and [e]
    being three records [{v: 1}]; the cycle tracker of a call, which is
    never cleared, takes the second occurrence of [c] for an object
    already seen, and the identifiers differ, in either mode. *)
Lemma sharing_is_told_apart :
  keys sample_sharing (VRef 1%nat) ≡ₚ keys sample_sharing (VRef 2%nat)
  ∧ (∀ key, key ∈ keys sample_sharing (VRef 1%nat) →
       ∃ R, shape_correspondence sample_sharing R
            ∧ val_rel sample_sharing R (prop sample_sharing (VRef 1%nat) key)
                                       (prop sample_sharing (VRef 2%nat) key))
  ∧ returned (generateStructureId sample_hash sample_sharing (VRef 1%nat) None initial)
    = Some "L0:3735929075-L1:5883412466-L2:5"
  ∧ returned (generateStructureId sample_hash sample_sharing (VRef 2%nat) None initial)
    = Some "L0:3735929075-L1:7471857380-L2:6"
  ∧ returned (generateStructureId sample_hash sample_sharing (VRef 1%nat) disambiguating
                initial)
    ≠ returned (generateStructureId sample_hash sample_sharing (VRef 2%nat) disambiguating
                  initial).
Proof.
  split; [apply perm_swap|]. split; [|by vm_compute].
  assert (∀ b, (b = 4%nat ∨ b = 5%nat) →
            shape_correspondence sample_sharing (λ x y, x = 3%nat ∧ y = b)) as Hchild.
  { intros b Hb. split.
    - by intros ??? [_ ->] [_ ->].
    - by intros ??? [-> _] [-> _].
    - intros ?? [-> ->]. destruct Hb as [->| ->]; (split; [done|]);
        intros key ->%list_elem_of_singleton; reflexivity. }
  intros key [->|[->|[]%elem_of_nil]%elem_of_cons]%elem_of_cons.
  - exists (λ x y, x = 3%nat ∧ y = 4%nat). split; [apply Hchild; by left|done].
  - exists (λ x y, x = 3%nat ∧ y = 5%nat). split; [apply Hchild; by right|done].
Qed.

(** C2, as amended. Disambiguation counts: in disambiguating mode,
    successive calls on values that reach the traversal (records with a
    property, arrays with an element) and share one structural signature,
    from a state in which that signature is not registered, return
    pairwise distinct identifiers: the [k]-th is the segment [L0:k]
    followed by the signature, the same for all. *)
Theorem disambiguation_counts xxHash32 h calls g signature :
  (∀ c, c ∈ calls →
     traversed h c.1 = true
     ∧ collisionMode (default (globalConfig g) c.2) = true
     ∧ signatureOf xxHash32 h g c.1 = Some signature) →
  STRUCTURE_HASH_COUNTER g !! signature = None →
  let ids := (λ k : nat, "L0:" +:+ Js.toString (Z.of_nat k) +:+ "-" +:+ signature)
               <$> seq 0 (length calls) in
  returned (generateMany xxHash32 h calls g) = Some ids ∧ NoDup ids.
Proof.
  intros Hcalls Hfresh ids. split.
  - apply (generateMany_numbered xxHash32 h calls signature g 0%nat Hcalls).
    by rewrite Hfresh.
  - apply (@NoDup_fmap_2 _ _ (numbered signature) (numbered_inj signature)), NoDup_seq.
Qed.

Lemma disambiguation_counts_witness :
  returned (generateMany sample_hash sample_heap
              [(VRef 1%nat, disambiguating); (VRef 2%nat, disambiguating);
               (VRef 1%nat, disambiguating)] initial)
  = Some ["L0:0-L1:4"; "L0:1-L1:4"; "L0:2-L1:4"].
Proof.
  refine (proj1 (disambiguation_counts sample_hash sample_heap
           [(VRef 1%nat, disambiguating); (VRef 2%nat, disambiguating);
            (VRef 1%nat, disambiguating)] initial "L1:4" _ _)).
  - intros c Hc.
    apply elem_of_cons in Hc as [->|Hc]; [by vm_compute|].
    apply elem_of_cons in Hc as [->|Hc]; [by vm_compute|].
    apply elem_of_cons in Hc as [->|Hc]; [by vm_compute|].
    by apply elem_of_nil in Hc.
  - reflexivity.
Defined.

(** C2 as stated fails on scalars: two calls on the number 42 in
    disambiguating mode share the signature, which is not registered,
    and return one and the same identifier, whose level 0 is not a
    count. *)
Lemma scalars_are_not_counted :
  returned (getStructureSignature sample_hash sample_heap (VNumber 42) initial)
    = Some "type:number"
  ∧ STRUCTURE_HASH_COUNTER initial !! "type:number" = None
  ∧ STRUCTURE_HASH_COUNTER initial !! "L1:1" = None
  ∧ returned (generateMany sample_hash sample_heap
                [(VNumber 42, disambiguating); (VNumber 42, disambiguating)] initial)
    = Some ["L0:1-L1:1"; "L0:1-L1:1"]
  ∧ ¬ NoDup ["L0:1-L1:1"; "L0:1-L1:1"].
Proof.
  split; [by vm_compute|]. split; [by vm_compute|]. split; [by vm_compute|].
  split; [by vm_compute|].
  intros Hnodup. apply NoDup_cons in Hnodup as [Hin _]. apply Hin. by left.
Qed.

(** C3. Export/import round trip: in every state that the public
    operations reach, exporting returns a snapshot that importing
    accepts. The snapshot holds every key of the Key Bit map but
    ["__proto__"], which a plain object does not take as a property; the
    import leaves the two Maps as they were but for their entries under
    that key; and every sequence of later calls of
    [generateStructureId] returns the identifiers it would have returned
    without the export and import, when the property names of the values
    are all in the exported map, or more generally when none of them is
    ["__proto__"], or when the Key Bit map had no other bit for that name
    than the hash gives. *)
Theorem export_import_round_trip xxHash32 hash h g :
  reachable xxHash32 hash h g →
  ∃ snapshot g',
    exportStructureState g = Ok snapshot g
    ∧ importStructureState snapshot g = Ok tt g'
    ∧ (∀ key, key ∈ (keyMap snapshot).*1
              ↔ key ≠ "__proto__" ∧ is_Some (GLOBAL_KEY_MAP g !! key))
    ∧ GLOBAL_KEY_MAP g' = delete "__proto__" (GLOBAL_KEY_MAP g)
    ∧ STRUCTURE_HASH_COUNTER g' = delete "__proto__" (STRUCTURE_HASH_COUNTER g)
    ∧ ∀ calls,
        (∀ c, c ∈ calls → ∀ key, holds_key h key c.1 → key ∈ (keyMap snapshot).*1)
        ∨ (∀ c, c ∈ calls → ¬ holds_key h "__proto__" c.1)
        ∨ bitOf xxHash32 (GLOBAL_KEY_MAP g) "__proto__" = bitOf xxHash32 ∅ "__proto__" →
        returned (generateMany xxHash32 h calls g')
        = returned (generateMany xxHash32 h calls g).
Proof.
  intros Hreach.
  pose proof (reachable_consistent _ _ _ _ Hreach) as Hg.
  destruct (import_of_export g g) as (snapshot & Hexport & Himport).
  eexists _, _. split; [exact Hexport|]. split; [exact Himport|].
  split.
  { rewrite exportStructureState_run in Hexport. injection Hexport as <-.
    intros key. cbn [keyMap]. rewrite list_elem_of_fmap. split.
    - intros ([k s] & -> & Hin). apply elem_of_map_to_list in Hin.
      rewrite lookup_fmap in Hin. simpl.
      destruct (decide (k = "__proto__")) as [->|Hne].
      + by rewrite lookup_delete_eq in Hin.
      + rewrite lookup_delete_ne in Hin by done. split; [done|].
        destruct (GLOBAL_KEY_MAP g !! k); [by eexists|done].
    - intros [Hne [bit Hbit]]. exists (key, Js.toString bit). split; [done|].
      apply elem_of_map_to_list. by rewrite lookup_fmap, lookup_delete_ne, Hbit. }
  assert (∀ key, key ∈ (keyMap snapshot).*1 → key ≠ "__proto__") as Hexported.
  { rewrite exportStructureState_run in Hexport. injection Hexport as <-.
    intros key. cbn [keyMap]. rewrite list_elem_of_fmap.
    intros ([k s] & Hk & Hin) Hproto. simpl in Hk. subst key k.
    apply elem_of_map_to_list in Hin.
    by rewrite lookup_fmap, lookup_delete_eq in Hin. }
  split; [done|]. split; [done|].
  assert (∀ signature, signature ≠ "__proto__" →
            delete "__proto__" (STRUCTURE_HASH_COUNTER g) !! signature
            = STRUCTURE_HASH_COUNTER g !! signature) as Hcounters.
  { intros signature Hsignature. by rewrite lookup_delete_ne. }
  intros calls Hcalls.
  assert ((∀ c, c ∈ calls → ¬ holds_key h "__proto__" c.1)
          ∨ bitOf xxHash32 (GLOBAL_KEY_MAP g) "__proto__" = bitOf xxHash32 ∅ "__proto__")
    as [Hnone|Hbit].
  { destruct Hcalls as [Hused|[?|?]]; [left|by left|by right].
    intros c Hc Hholds. by apply (Hexported _ (Hused c Hc _ Hholds)). }
  clear Hcalls. rename Hnone into Hcalls.
  - apply (same_answers_many xxHash32 h (λ key, key ≠ "__proto__")); [done| |].
    { intros c Hc key Hkey ->. by apply (Hcalls c). }
    split.
    { intros key Hkey. cbn [GLOBAL_KEY_MAP]. unfold bitOf. by rewrite lookup_delete_ne. }
    split; [done|]. split; [done|]. split; [by apply cache_consistent_empty|done].
  - apply (same_answers_many xxHash32 h (λ _, True)); [done|done|].
    split.
    { intros key _. cbn [GLOBAL_KEY_MAP].
      destruct (decide (key = "__proto__")) as [->|Hne].
      - rewrite Hbit. unfold bitOf. by rewrite lookup_delete_eq, lookup_empty.
      - unfold bitOf. by rewrite lookup_delete_ne. }
    split; [done|]. split; [done|]. split; [by apply cache_consistent_empty|done].
Qed.

Lemma export_import_round_trip_witness :
  ∃ snapshot g',
    exportStructureState after_one_call = Ok snapshot after_one_call
    ∧ importStructureState snapshot after_one_call = Ok tt g'
    ∧ (∀ key, key ∈ (keyMap snapshot).*1
              ↔ key ≠ "__proto__" ∧ is_Some (GLOBAL_KEY_MAP after_one_call !! key))
    ∧ GLOBAL_KEY_MAP g' = delete "__proto__" (GLOBAL_KEY_MAP after_one_call)
    ∧ STRUCTURE_HASH_COUNTER g' = delete "__proto__" (STRUCTURE_HASH_COUNTER after_one_call)
    ∧ ∀ calls,
        (∀ c, c ∈ calls →
           ∀ key, holds_key sample_heap key c.1 → key ∈ (keyMap snapshot).*1)
        ∨ (∀ c, c ∈ calls → ¬ holds_key sample_heap "__proto__" c.1)
        ∨ bitOf sample_hash (GLOBAL_KEY_MAP after_one_call) "__proto__"
          = bitOf sample_hash ∅ "__proto__" →
        returned (generateMany sample_hash sample_heap calls g')
        = returned (generateMany sample_hash sample_heap calls after_one_call).
Proof.
  apply (export_import_round_trip sample_hash sample_digest sample_heap).
  apply reachable_perform, reachable_initial.
Defined.

(** The entry of ["__proto__"] does not survive: after the import of a
    bit 7 for that key and a call on a record that has an own property
    of that name, the Key Bit map holds every key of the record; the
    snapshot holds but the other one, and once it is imported the record
    gets another identifier, the bit of ["__proto__"] being taken from
    the hash. *)
Example proto_entry_is_dropped :
  GLOBAL_KEY_MAP proto_imported !! "__proto__" = Some 7
  ∧ is_Some (GLOBAL_KEY_MAP proto_imported !! "type:object")
  ∧ ∃ snapshot g',
      exportStructureState proto_imported = Ok snapshot proto_imported
      ∧ (keyMap snapshot).*1 = ["type:object"]
      ∧ importStructureState snapshot proto_imported = Ok tt g'
      ∧ returned (generateStructureId sample_hash sample_proto (VRef 1%nat) None
                    proto_imported) = Some "L0:3735928696-L1:3"
      ∧ returned (generateStructureId sample_hash sample_proto (VRef 1%nat) None g')
        = Some "L0:3735928690-L1:3".
Proof.
  split; [by vm_compute|]. split; [eexists; by vm_compute|]. eexists _, _.
  split; [by vm_compute|]. split; [done|]. split; [by vm_compute|].
  split; by vm_compute.
Qed.

(** C4. The root null: [generateStructureId(null)] carries the bit that
    [TYPE_BITS] gives the string ["object"], which [typeof null] is, and
    not the bit 16 that the table keeps for null and that the traversal
    adds for a null it meets below the root. *)
Theorem root_null_identifier xxHash32 h config g :
  generateStructureId xxHash32 h VNull config g = Ok "L0:128-L1:128" g
  ∧ TYPE_BITS !! "null" = Some 16
  ∧ ∀ fuel level path t,
      processStructure xxHash32 h (S fuel) VNull level path t
      = (seed level;; add level 16) t.
Proof. by split. Qed.

(** The other scalars at the root carry the bit of their own type, and 0
    when the table has none. *)
Lemma root_scalar_identifier xxHash32 h obj config g :
  match obj with VRef _ | VNull => False | _ => True end →
  generateStructureId xxHash32 h obj config g =
    Ok match obj with
       | VUndefined => "L0:32-L1:32"
       | VBoolean _ => "L0:4-L1:4"
       | VNumber _ => "L0:1-L1:1"
       | VString _ => "L0:2-L1:2"
       | VBigInt _ => "L0:8-L1:8"
       | VSymbol _ => "L0:64-L1:64"
       | _ => "L0:0-L1:0"
       end g.
Proof. by destruct obj. Qed.

(** C5, as amended. An import replaces the state without validating
    it: the state is reset first; the entries of [keyMap] are stored in
    order up to the first value that [BigInt] cannot read, at which the
    host's SyntaxError is raised with the reset state and the entries
    stored so far left behind; when all are read, every entry of
    [collisionCounters] is stored as given and the call returns. *)
Theorem import_replaces_without_validation st g :
  importStructureState st g =
    if (parse_entries (keyMap st)).2 then
      Ok tt (mkState (store_all (parse_entries (keyMap st)).1 ∅)
               (store_all (collisionCounters st) ∅) ∅ ∅ ∅ (globalConfig g))
    else
      Throw Js.SyntaxError
        (mkState (store_all (parse_entries (keyMap st)).1 ∅) ∅ ∅ ∅ ∅ (globalConfig g)).
Proof.
  rewrite importStructureState_run. by destruct (parse_entries (keyMap st)) as [good []].
Qed.

(** C5 as stated fails: a value of [keyMap] that is not numeric raises
    SyntaxError after the state was reset and an earlier entry stored,
    and a negative counter is imported without any error. *)
Lemma import_is_neither_validated_nor_atomic :
  (∃ g', importStructureState
           (mkStructureState [("b", "7"); ("x", "seven")] []) imported
         = Throw Js.SyntaxError g'
         ∧ GLOBAL_KEY_MAP imported !! "a" = Some 1
         ∧ GLOBAL_KEY_MAP g' !! "a" = None
         ∧ GLOBAL_KEY_MAP g' !! "b" = Some 7
         ∧ STRUCTURE_HASH_COUNTER imported !! "L1:4" = Some 3
         ∧ STRUCTURE_HASH_COUNTER g' !! "L1:4" = None)
  ∧ (∃ g', importStructureState (mkStructureState [] [("L1:4", -1)]) imported = Ok tt g'
         ∧ STRUCTURE_HASH_COUNTER g' !! "L1:4" = Some (-1)).
Proof. split; eexists; by vm_compute. Qed.

Lemma bind_modify {St B} (f : St → St) (k : unit → M St B) s :
  bind (modify f) k s = k tt (f s).
Proof. done. Qed.

(** C6. Cycle termination: under the contract of the hash, every call
    of [generateStructureId], on every value of every heap, cyclic or
    not, returns an identifier, the traversal being the same under every
    recursion bound from [depth_bound] on; and a reference that the cycle
    tracker of the call already holds adds the bit of ["circular:"]
    followed by the stored label to the accumulator of its level and is
    not entered again, whatever recursion depth is left. *)
Theorem cycles_terminate xxHash32 h :
  hash_contract xxHash32 →
  (∀ obj config g, ∃ id g', generateStructureId xxHash32 h obj config g = Ok id g')
  ∧ (∀ fuel obj g,
       (depth_bound h ≤ fuel)%nat →
       ∃ t, processStructure xxHash32 h fuel obj 0 [] (mkTrav g ∅ ∅) = Ok tt t
            ∧ traverse xxHash32 h g obj = Ok tt t)
  ∧ (∀ fuel a level path t label,
       objectMap t !! a = Some label →
       processStructure xxHash32 h (S fuel) (VRef a) level path t
       = (seed level;;
          add level (type_bit (getType h (VRef a)));;
          let* bit := global (getBit xxHash32 ("circular:" +:+ label)) in
          add level bit) t).
Proof.
  intros Hhash. split.
  { intros obj config g. by apply generateStructureId_returns. }
  split.
  { intros fuel obj g Hfuel. rewrite traverse_deeper by done.
    pose proof (traverse_during xxHash32 h g obj) as Hrun.
    destruct (traverse xxHash32 h g obj) as [[] t|e t|]; [by eexists| |done].
    by destruct Hrun as (_ & _ & ?). }
  intros fuel a level path t label Hseen.
  cbn [processStructure]. unfold seed, add. rewrite !bind_modify.
  match goal with |- _ ?t' = _ => assert (objectMap t' !! a = Some label) as Hseen' end.
  { destruct (levelHashes t !! level) as [z|]; [destruct (z =? 0)|]; exact Hseen. }
  match goal with |- _ ?t' = _ => generalize dependent t' end. intros t' Hseen'.
  assert (isObject h (VRef a) || isArray h (VRef a) = true) as ->.
  { unfold isObject, isArray. simpl. by destruct (h !! a) as [[]|]. }
  assert (negb (String.eqb (getType h (VRef a)) "object")
          && negb (String.eqb (getType h (VRef a)) "array") = false) as ->.
  { unfold getType, isArray. simpl. by destruct (h !! a) as [[]|]. }
  cbv iota. unfold bind at 1, get. by rewrite Hseen'.
Qed.

Lemma cycles_terminate_witness :
  ∃ id g', generateStructureId sample_hash sample_heap (VRef 3%nat) None initial = Ok id g'.
Proof.
  exact (proj1 (cycles_terminate sample_hash sample_heap sample_hash_contract)
           (VRef 3%nat) None initial).
Defined.

(** The record that holds itself. *)
Example self_reference :
  returned (generateStructureId sample_hash sample_heap (VRef 3%nat) None initial)
  = Some "L0:4323738380-L1:133".
Proof. by vm_compute. Qed.

(** A call in stable mode returns under the contract of the hash and
    leaves the Collision Counter map as it was. *)
Lemma stable_call_returns xxHash32 h obj g :
  hash_contract xxHash32 →
  ∃ id g', generateStructureId xxHash32 h obj stable g = Ok id g'
    ∧ STRUCTURE_HASH_COUNTER g' = STRUCTURE_HASH_COUNTER g.
Proof.
  intros Hhash.
  pose proof (generateStructureId_outcome xxHash32 h obj stable g) as Hout.
  destruct (generateStructureId xxHash32 h obj stable g) as [id g'|e g'|]; [| |done].
  - exists id, g'. split; [done|]. destruct Hout as (_ & _ & Hc & _). by apply Hc.
  - by destruct Hout as (_ & _ & ?).
Qed.

(** C7, as amended. [getStructureInfo] never modifies the Collision
    Counter map, in either mode. For a value that is not a reference the
    count it returns is 0; for a reference with a cached bundle it
    returns that bundle as it was stored; and for a reference without
    one the count is the current counter of the signature that
    [getStructureSignature] gives the value, 0 when it is not
    registered. *)
Theorem getStructureInfo_reads_counter xxHash32 h obj config g :
  hash_contract xxHash32 →
  ∃ i g',
    getStructureInfo xxHash32 h obj config g = Ok i g'
    ∧ STRUCTURE_HASH_COUNTER g' = STRUCTURE_HASH_COUNTER g
    ∧ match obj with
      | VRef a =>
          match STRUCTURE_INFO_CACHE g !! a with
          | Some cached => i = cached
          | None =>
              ∃ signature g'',
                getStructureSignature xxHash32 h obj g = Ok signature g''
                ∧ info_collisionCount i
                  = default 0 (STRUCTURE_HASH_COUNTER g !! signature)
          end
      | _ => info_collisionCount i = 0
      end.
Proof.
  intros Hhash.
  destruct (getStructureInfo xxHash32 h obj config g) as [i g'|e g'|] eqn:Hrun.
  2,3: exfalso.
  all: unfold getStructureInfo in Hrun; rewrite (bind_Ok get _ g g g eq_refl) in Hrun.
  all: destruct obj as [| |b1|x1|s1|z1|d1|n1|a];
         try (cbn [typeof is_null String.eqb Ascii.eqb Bool.eqb negb orb] in Hrun;
              cbv iota in Hrun; unfold bind in Hrun;
              rewrite generateStructureId_fixed in Hrun by done; simplify_eq;
              by eexists _, _).
  all: cbn [typeof is_null String.eqb Ascii.eqb Bool.eqb negb orb] in Hrun;
       cbv iota in Hrun.
  all: destruct (STRUCTURE_INFO_CACHE g !! a) as [cached|];
         [simplify_eq; by eexists _, _|].
  all: change (Some (mkConfig (Some false))) with stable in Hrun.
  all: assert (∃ signature g1 g'',
            (match OBJECT_SIGNATURE_CACHE g !! a with
             | Some cached => ret cached
             | None => let* id := generateStructureId xxHash32 h (VRef a) stable in
                       ret (strip_L0 id)
             end) g = Ok signature g1
            ∧ STRUCTURE_HASH_COUNTER g1 = STRUCTURE_HASH_COUNTER g
            ∧ getStructureSignature xxHash32 h (VRef a) g = Ok signature g'')
    as (signature & g1 & g'' & Hsig & Hc1 & Hsig')
    by (unfold getStructureSignature;
        cbn [typeof is_null String.eqb Ascii.eqb Bool.eqb negb orb]; cbv iota;
        rewrite (bind_Ok get _ g g g eq_refl);
        change (Some (mkConfig (Some false))) with stable;
        destruct (OBJECT_SIGNATURE_CACHE g !! a) as [cached|];
          [exists cached, g, g; split; [reflexivity|split; reflexivity]|];
        destruct (stable_call_returns xxHash32 h (VRef a) g Hhash)
          as (id & g1 & Hgen & Hc1);
        exists (strip_L0 id), g1; eexists; rewrite !(bind_Ok _ _ _ _ _ Hgen);
        split; [reflexivity|split; [exact Hc1|reflexivity]]).
  all: rewrite (bind_Ok _ _ _ _ _ Hsig), (bind_Ok get _ g1 g1 g1 eq_refl) in Hrun.
  all: assert (∃ id g2,
            (if collisionMode (default (globalConfig g) config)
             then ret (Js.join "-" ["L0:" +:+ Js.toString
                                      (default 0 (STRUCTURE_HASH_COUNTER g1 !! signature));
                                    signature])
             else match OBJECT_ID_CACHE g1 !! a with
                  | Some cached => ret cached
                  | None => generateStructureId xxHash32 h (VRef a) stable
                  end) g1 = Ok id g2
            ∧ STRUCTURE_HASH_COUNTER g2 = STRUCTURE_HASH_COUNTER g1)
    as (id & g2 & Hid & Hc2)
    by (destruct (collisionMode _);
          [eexists _, g1; split; reflexivity|];
        destruct (OBJECT_ID_CACHE g1 !! a) as [cached|];
          [exists cached, g1; split; reflexivity|];
        by apply stable_call_returns).
  all: rewrite (bind_Ok _ _ _ _ _ Hid) in Hrun; try done.
  injection Hrun as <- <-.
  eexists _, _. split; [reflexivity|]. simpl. split; [congruence|].
  exists signature, g''. split; [done|]. by rewrite Hc1.
Qed.

Lemma getStructureInfo_reads_counter_witness :
  ∃ i g',
    getStructureInfo sample_hash sample_heap (VRef 1%nat) disambiguating after_one_call
    = Ok i g'
    ∧ STRUCTURE_HASH_COUNTER g' = STRUCTURE_HASH_COUNTER after_one_call
    ∧ match STRUCTURE_INFO_CACHE after_one_call !! 1%nat with
      | Some cached => i = cached
      | None =>
          ∃ signature g'',
            getStructureSignature sample_hash sample_heap (VRef 1%nat) after_one_call
            = Ok signature g''
            ∧ info_collisionCount i
              = default 0 (STRUCTURE_HASH_COUNTER after_one_call !! signature)
      end.
Proof.
  exact (getStructureInfo_reads_counter sample_hash sample_heap (VRef 1%nat)
           disambiguating after_one_call sample_hash_contract).
Defined.

(** C7 as stated fails on a cached bundle: after the bundle of the first
    record is computed and its signature is then registered with the
    count 5, [getStructureInfo] still answers with the count 0. *)
Lemma cached_bundle_is_stale :
  returned (getStructureSignature sample_hash sample_heap (VRef 1%nat) registered)
    = Some "L1:4"
  ∧ STRUCTURE_HASH_COUNTER registered !! "L1:4" = Some 5
  ∧ info_collisionCount
      <$> returned (getStructureInfo sample_hash sample_heap (VRef 1%nat) None registered)
    = Some 0.
Proof.
  split; [by vm_compute|]. split; [by vm_compute|]. by vm_compute.
Qed.






(** C10. [getStructureSignature(null)] is the literal ["type:object"], in
    every state: the branch for values that are no references answers
    with [typeof], which is ["object"] for null, and leaves the state as
    it was, so that null is not traversed and the type ["null"] that the
    traversal has for it plays no part. *)
Theorem getStructureSignature_null xxHash32 h g :
  getStructureSignature xxHash32 h VNull g = Ok ("type:" +:+ typeof VNull) g
  ∧ "type:" +:+ typeof VNull = "type:object"
  ∧ getType h VNull = "null".
Proof.
  split; [|split].
  - unfold getStructureSignature. by destruct (negb _ || _) eqn:Hbranch.
  - reflexivity.
  - reflexivity.
Qed.

(** * Further properties *)

Lemma bind_Ok_inv {St A B} (m : M St A) (k : A → M St B) s b s' :
  bind m k s = Ok b s' → ∃ a s1, m s = Ok a s1 ∧ k a s1 = Ok b s'.
Proof. unfold bind. destruct (m s) as [a s1|e s1|]; [|done..]. eauto. Qed.

(** X1. [getBit] memoises: a call that returns leaves the bit it
    returned under the key in [GLOBAL_KEY_MAP], overwrites no entry and
    touches nothing else; from then on the key is answered from the
    table with that bit, whatever the hash would say. *)
Theorem getBit_memoises xxHash32 key g bit g' :
  getBit xxHash32 key g = Ok bit g' →
  GLOBAL_KEY_MAP g' !! key = Some bit
  ∧ GLOBAL_KEY_MAP g ⊆ GLOBAL_KEY_MAP g'
  ∧ same_but_keys g g'
  ∧ ∀ other, getBit other key g' = Ok bit g'.
Proof.
  unfold getBit. rewrite (bind_Ok get _ g g g eq_refl).
  destruct (GLOBAL_KEY_MAP g !! key) as [cached|] eqn:Hkey.
  - intros [= <- <-]. split; [done|]. split; [done|]. split; [done|].
    intros other. unfold getBit, bind, get. by rewrite Hkey.
  - destruct (Js.BigInt_of_string _) as [parsed|]; [|done].
    rewrite bind_modify. intros [= <- <-]. cbn [GLOBAL_KEY_MAP set_GLOBAL_KEY_MAP].
    rewrite lookup_insert_eq.
    split; [done|]. split; [by apply insert_subseteq|]. split; [done|].
    intros other. unfold getBit, bind, get. cbn [GLOBAL_KEY_MAP set_GLOBAL_KEY_MAP].
    by rewrite lookup_insert_eq.
Qed.

Lemma getBit_memoises_witness :
  GLOBAL_KEY_MAP (set_GLOBAL_KEY_MAP {["a" := 1]} initial) !! "a" = Some 1.
Proof.
  refine (proj1 (getBit_memoises sample_hash "a" initial 1 _ _)).
  reflexivity.
Defined.

Section Caches.
Variable xxHash32 : string → string.
Variable hash : string → string.
Variable h : heap.

Local Abbreviation gen := (generateStructureId xxHash32 h).

(** What a returning call on a traversed value leaves in the caches. *)
Lemma generateStructureId_caches a config g id g' :
  traversed h (VRef a) = true →
  gen (VRef a) config g = Ok id g' →
  globalConfig g' = globalConfig g
  ∧ (collisionMode (default (globalConfig g) config) = false →
     OBJECT_ID_CACHE g' !! a = Some id
     ∧ STRUCTURE_HASH_COUNTER g' = STRUCTURE_HASH_COUNTER g)
  ∧ (∀ b, b ≠ a →
       OBJECT_ID_CACHE g' !! b = OBJECT_ID_CACHE g !! b
       ∧ OBJECT_SIGNATURE_CACHE g' !! b = OBJECT_SIGNATURE_CACHE g !! b
       ∧ STRUCTURE_INFO_CACHE g' !! b = STRUCTURE_INFO_CACHE g !! b).
Proof.
  intros Htrav. rewrite generateStructureId_traversed by done. cbv zeta.
  pose proof (traverse_during xxHash32 h g (VRef a)) as Hrun.
  destruct (collisionMode (default (globalConfig g) config)) eqn:Hmode.
  - destruct (traverse xxHash32 h g (VRef a)) as [[] t|e t|]; [|done..].
    destruct Hrun as (_ & Hc & Hid & Hsig & Hinfo & Hcfg).
    intros [= <- <-]. cbn. split; [done|]. split; [done|].
    intros b Hb. rewrite Hid, Hsig, Hinfo.
    by rewrite lookup_insert_ne, lookup_delete_ne.
  - destruct (OBJECT_ID_CACHE g !! a) as [cached|] eqn:Hcached.
    { intros [= <- <-]. by repeat split. }
    destruct (traverse xxHash32 h g (VRef a)) as [[] t|e t|]; [|done..].
    destruct Hrun as (_ & Hc & Hid & Hsig & Hinfo & Hcfg).
    intros [= <- <-]. cbn. split; [done|]. split.
    { intros _. by rewrite lookup_insert_eq. }
    intros b Hb. rewrite Hid, Hsig, Hinfo.
    by rewrite !lookup_insert_ne, lookup_delete_ne.
Qed.

(** X2. A call in stable mode is idempotent: when it has returned an
    identifier, a second call on the same value in stable mode, under
    whatever configuration says so, returns the same identifier and
    leaves the state as the first call left it. *)
Theorem stable_call_is_idempotent obj config config' g id g' :
  collisionMode (default (globalConfig g) config) = false →
  collisionMode (default (globalConfig g) config') = false →
  gen obj config g = Ok id g' →
  gen obj config' g' = Ok id g'.
Proof.
  intros Hmode Hmode'. destruct (traversed h obj) eqn:Htrav.
  2:{ rewrite !generateStructureId_fixed by done. by intros [= <- <-]. }
  destruct (traversed_ref h _ Htrav) as [a ->]. intros Hrun.
  destruct (generateStructureId_caches a config g id g' Htrav Hrun)
    as (Hcfg & Hcached & _).
  destruct (Hcached Hmode) as [Hid _].
  rewrite generateStructureId_traversed by done. cbv zeta.
  by rewrite Hcfg, Hmode', Hid.
Qed.

End Caches.

Lemma stable_call_is_idempotent_witness :
  ∃ g', generateStructureId sample_hash sample_heap (VRef 1%nat) stable g'
        = Ok "L0:3735928694-L1:4" g'.
Proof.
  eexists.
  refine (stable_call_is_idempotent sample_hash sample_heap (VRef 1%nat) None stable
            initial "L0:3735928694-L1:4" _ _ _ _).
  - reflexivity.
  - reflexivity.
  - by vm_compute.
Defined.

Section Cached.
Variable xxHash32 : string → string.
Variable hash : string → string.
Variable h : heap.

Local Abbreviation gen := (generateStructureId xxHash32 h).

Lemma is_scalar_cases obj :
  negb (String.eqb (typeof obj) "object") || is_null obj = false → ∃ a, obj = VRef a.
Proof. destruct obj; try done. eauto. Qed.

(** A returning call of [getStructureSignature] on a reference leaves
    the signature it returns in the cache. *)
Lemma getStructureSignature_caches a g signature g' :
  getStructureSignature xxHash32 h (VRef a) g = Ok signature g' →
  OBJECT_SIGNATURE_CACHE g' !! a = Some signature.
Proof.
  unfold getStructureSignature.
  cbn [typeof is_null String.eqb Ascii.eqb Bool.eqb negb orb]. cbv iota.
  rewrite (bind_Ok get _ g g g eq_refl).
  destruct (OBJECT_SIGNATURE_CACHE g !! a) as [cached|] eqn:Hcached.
  { by intros [= <- <-]. }
  intros (tempId & g1 & Hgen & Hrest)%bind_Ok_inv.
  rewrite bind_modify in Hrest. injection Hrest as <- <-.
  cbn. by rewrite lookup_insert_eq.
Qed.

(** X9. [getStructureSignature] answers a second call with the
    signature of the first, and then leaves the state as it is. *)
Theorem signature_is_cached obj g signature g' :
  getStructureSignature xxHash32 h obj g = Ok signature g' →
  getStructureSignature xxHash32 h obj g' = Ok signature g'.
Proof.
  intros Hrun.
  destruct (negb (String.eqb (typeof obj) "object") || is_null obj) eqn:Hscalar.
  { unfold getStructureSignature in *. rewrite Hscalar in *. by injection Hrun as <- <-. }
  destruct (is_scalar_cases _ Hscalar) as [a ->].
  apply getStructureSignature_caches in Hrun.
  unfold getStructureSignature.
  cbn [typeof is_null String.eqb Ascii.eqb Bool.eqb negb orb]. cbv iota.
  by rewrite (bind_Ok get _ g' g' g' eq_refl), Hrun.
Qed.

(** A returning call of [getStructureInfo] on a reference leaves the
    bundle it returns in the cache. *)
Lemma getStructureInfo_caches a config g i g' :
  getStructureInfo xxHash32 h (VRef a) config g = Ok i g' →
  STRUCTURE_INFO_CACHE g' !! a = Some i.
Proof.
  unfold getStructureInfo. rewrite (bind_Ok get _ g g g eq_refl).
  cbn [typeof is_null String.eqb Ascii.eqb Bool.eqb negb orb]. cbv iota.
  destruct (STRUCTURE_INFO_CACHE g !! a) as [cached|] eqn:Hcached.
  { by intros [= <- <-]. }
  intros (signature & g1 & _ & Hrest)%bind_Ok_inv.
  rewrite (bind_Ok get _ g1 g1 g1 eq_refl) in Hrest.
  apply bind_Ok_inv in Hrest as (id & g2 & _ & Hrest).
  rewrite bind_modify in Hrest. injection Hrest as <- <-.
  cbn. by rewrite lookup_insert_eq.
Qed.

(** X15. [getStructureInfo] answers a second call on the same value
    with the bundle of the first, whatever configuration the second call
    is given: for a reference the bundle comes from
    [STRUCTURE_INFO_CACHE], where the first call left it. *)
Theorem bundle_is_cached obj config config' g i g' :
  getStructureInfo xxHash32 h obj config g = Ok i g' →
  getStructureInfo xxHash32 h obj config' g' = Ok i g'.
Proof.
  intros Hrun.
  destruct (negb (String.eqb (typeof obj) "object") || is_null obj) eqn:Hscalar.
  { unfold getStructureInfo in *.
    rewrite (bind_Ok get _ g g g eq_refl), Hscalar in Hrun.
    rewrite (bind_Ok get _ g' g' g' eq_refl), Hscalar.
    assert (traversed h obj = false) as Htrav by (by destruct obj).
    unfold bind in *. rewrite generateStructureId_fixed in * by done.
    by injection Hrun as <- <-. }
  destruct (is_scalar_cases _ Hscalar) as [a ->].
  apply getStructureInfo_caches in Hrun.
  unfold getStructureInfo. rewrite (bind_Ok get _ g' g' g' eq_refl).
  cbn [typeof is_null String.eqb Ascii.eqb Bool.eqb negb orb]. cbv iota.
  by rewrite Hrun.
Qed.

(** X22. [getCompactInfo] writes the digest into the bundle that
    [STRUCTURE_INFO_CACHE] holds: after a call on a reference,
    [getStructureInfo] returns the bundle with the digest as its
    identifier, and a second [getCompactInfo] returns the digest of the
    digest. *)
Theorem getCompactInfo_hashes_the_cached_bundle a config config' g i g' :
  getCompactInfo xxHash32 hash h (VRef a) config g = Ok i g' →
  getStructureInfo xxHash32 h (VRef a) config' g' = Ok i g'
  ∧ ∃ g'', getCompactInfo xxHash32 hash h (VRef a) config' g'
           = Ok (mkInfo (hash (info_id i)) (info_levels i) (info_collisionCount i)) g''.
Proof.
  unfold getCompactInfo at 1.
  intros (i0 & g1 & Hinfo & Hrest)%bind_Ok_inv.
  rewrite bind_modify in Hrest. injection Hrest as <- <-.
  assert (getStructureInfo xxHash32 h (VRef a) config'
            (set_STRUCTURE_INFO_CACHE
               (<[a := mkInfo (hash (info_id i0)) (info_levels i0) (info_collisionCount i0)]>
                  (STRUCTURE_INFO_CACHE g1)) g1)
          = Ok (mkInfo (hash (info_id i0)) (info_levels i0) (info_collisionCount i0))
               (set_STRUCTURE_INFO_CACHE
                  (<[a := mkInfo (hash (info_id i0)) (info_levels i0) (info_collisionCount i0)]>
                     (STRUCTURE_INFO_CACHE g1)) g1)) as Hagain.
  { unfold getStructureInfo. rewrite (bind_Ok get _ _ _ _ eq_refl).
    cbn [typeof is_null String.eqb Ascii.eqb Bool.eqb negb orb]. cbv iota.
    cbn [STRUCTURE_INFO_CACHE set_STRUCTURE_INFO_CACHE].
    by rewrite lookup_insert_eq. }
  split; [exact Hagain|].
  unfold getCompactInfo. rewrite (bind_Ok _ _ _ _ _ Hagain), bind_modify.
  by eexists.
Qed.

End Cached.

Lemma signature_is_cached_witness :
  ∃ g', getStructureSignature sample_hash sample_heap (VRef 1%nat) g' = Ok "L1:4" g'.
Proof.
  eexists.
  refine (signature_is_cached sample_hash sample_heap (VRef 1%nat) initial "L1:4" _ _).
  by vm_compute.
Defined.

Lemma bundle_is_cached_witness :
  ∃ g', getStructureInfo sample_hash sample_heap (VRef 1%nat) disambiguating g'
        = Ok (mkInfo "L0:3735928694-L1:4" 2 0) g'.
Proof.
  eexists.
  refine (bundle_is_cached sample_hash sample_heap (VRef 1%nat) None disambiguating
            initial (mkInfo "L0:3735928694-L1:4" 2 0) _ _).
  by vm_compute.
Defined.

Lemma getCompactInfo_hashes_the_cached_bundle_witness :
  ∃ g' g'',
    getCompactInfo sample_hash sample_mark sample_heap (VRef 1%nat) None g'
    = Ok (mkInfo "##L0:3735928694-L1:4" 2 0) g''.
Proof.
  eexists.
  refine (proj2 (getCompactInfo_hashes_the_cached_bundle sample_hash sample_mark
                   sample_heap 1%nat None None initial
                   (mkInfo "#L0:3735928694-L1:4" 2 0) _ _)).
  by vm_compute.
Defined.

Section Steady.
Variable xxHash32 : string → string.
Variable hash : string → string.
Variable h : heap.
Variable g0 : state.

Local Abbreviation gen := (generateStructureId xxHash32 h).
Local Abbreviation still := (steady xxHash32 g0).
Local Abbreviation failed := (broken xxHash32 g0).

Lemma steady_refl g : steady xxHash32 g g.
Proof. split; [apply keys_agree_refl|done]. Qed.

Lemma steady_same g g' :
  GLOBAL_KEY_MAP g' = GLOBAL_KEY_MAP g → globalConfig g' = globalConfig g →
  still g → still g'.
Proof. intros Hk Hc [??]. split; [by rewrite Hk|by rewrite Hc]. Qed.

Lemma generateStructureId_steady obj config :
  triple still (gen obj config) (λ _, still) failed.
Proof.
  intros g [Hk Hcfg]. pose proof (generateStructureId_outcome xxHash32 h obj config g) as Hout.
  destruct (gen obj config g) as [id g'|e g'|]; [..|done].
  - destruct Hout as (Hk' & Hcfg' & _). split; [by eapply keys_agree_trans|congruence].
  - destruct Hout as (Hk' & (_&_&_&_&Hcfg') & Hbroken).
    split; [|done]. split; [by eapply keys_agree_trans|congruence].
Qed.

Lemma getStructureSignature_steady obj :
  triple still (getStructureSignature xxHash32 h obj) (λ _, still) failed.
Proof.
  unfold getStructureSignature.
  destruct (negb _ || _). { by apply triple_ret. }
  destruct obj as [| |b1|x1|s1|z1|d1|n1|a]; try by apply triple_ret.
  eapply triple_bind with (Q := λ _, still); [by apply triple_get|].
  intros g. destruct (OBJECT_SIGNATURE_CACHE g !! a). { by apply triple_ret. }
  eapply triple_bind; [apply generateStructureId_steady|]. intros tempId.
  eapply triple_bind with (Q := λ _, still); [|intros []; by apply triple_ret].
  apply triple_modify. intros g'. by apply steady_same.
Qed.

Lemma registerStructure_steady obj n :
  triple still (registerStructure xxHash32 h obj n) (λ _, still) failed.
Proof.
  unfold registerStructure.
  eapply triple_bind; [apply getStructureSignature_steady|]. intros signature.
  apply triple_modify. intros g'. by apply steady_same.
Qed.

Lemma getStructureInfo_steady obj config :
  triple still (getStructureInfo xxHash32 h obj config) (λ _, still) failed.
Proof.
  unfold getStructureInfo.
  eapply triple_bind with (Q := λ _, still); [by apply triple_get|].
  intros g. destruct (negb _ || _).
  { eapply triple_bind; [apply generateStructureId_steady|]. intros id.
    by apply triple_ret. }
  destruct obj as [| |b1|x1|s1|z1|d1|n1|a]; try by apply triple_ret.
  destruct (STRUCTURE_INFO_CACHE g !! a). { by apply triple_ret. }
  eapply triple_bind with (Q := λ _, still).
  { destruct (OBJECT_SIGNATURE_CACHE g !! a); [by apply triple_ret|].
    eapply triple_bind; [apply generateStructureId_steady|]. intros id.
    by apply triple_ret. }
  intros structureSignature.
  eapply triple_bind with (Q := λ _, still); [by apply triple_get|].
  intros g'.
  eapply triple_bind with (Q := λ _, still).
  { destruct (collisionMode _); [by apply triple_ret|].
    destruct (OBJECT_ID_CACHE g' !! a); [by apply triple_ret|].
    apply generateStructureId_steady. }
  intros id.
  eapply triple_bind with (Q := λ _, still); [|intros []; by apply triple_ret].
  apply triple_modify. intros g''. by apply steady_same.
Qed.

End Steady.

Section Operations.
Variable xxHash32 : string → string.
Variable hash : string → string.
Variable h : heap.


(** Every operation but the three leaves the memo table answering as
    it did and the configuration as it was, and raises only when the hash
    breaks its contract. *)
Lemma operation_steady c g :
  keeps_table c = true →
  steady xxHash32 g (perform xxHash32 hash h c g)
  ∧ (hash_contract xxHash32 → completes xxHash32 hash h c g = true).
Proof.
  intros Hc.
  assert (∀ A (m : M state A),
            triple (steady xxHash32 g) m (λ _, steady xxHash32 g) (broken xxHash32 g) →
            steady xxHash32 g (final g (m g))
            ∧ (hash_contract xxHash32 → completed (m g) = true)) as Hfinal.
  { intros A m Hm. specialize (Hm g (steady_refl _ _)).
    destruct (m g) as [a g'|e g'|]; [done| |done].
    destruct Hm as [? ?]. done. }
  destruct c; try done; unfold perform, completes; apply Hfinal.
  - apply generateStructureId_steady.
  - apply getStructureSignature_steady.
  - apply registerStructure_steady.
  - apply triple_for_of. intros ??. apply registerStructure_steady.
  - apply triple_for_of. intros ??. apply triple_modify.
    intros g'. by apply steady_same.
  - apply getStructureInfo_steady.
  - eapply triple_bind; [apply generateStructureId_steady|]. intros ?.
    by apply triple_ret.
  - eapply triple_bind; [apply getStructureInfo_steady|]. intros i.
    destruct obj; try by apply triple_ret.
    eapply triple_bind with (Q := λ _, steady xxHash32 g); [|intros []; by apply triple_ret].
    apply triple_modify. intros g'. by apply steady_same.
Qed.

End Operations.

Section HistoryFacts.
Variable xxHash32 : string → string.
Variable hash : string → string.
Variable h : heap.

Lemma reachable_by_reachable allowed g :
  reachable_by xxHash32 hash h allowed g → reachable xxHash32 hash h g.
Proof. induction 1; by constructor. Qed.

Lemma reachable_by_honest g :
  reachable_by xxHash32 hash h (λ c, is_import c = false) g → honest xxHash32 g.
Proof.
  induction 1 as [|c g Hc Hreach IH]; [apply keys_agree_refl|].
  destruct (keeps_table c) eqn:Hkeeps.
  - destruct (operation_steady xxHash32 hash h c g Hkeeps) as [[Hk _] _].
    by eapply keys_agree_trans.
  - by destruct c.
Qed.

End HistoryFacts.

(** X18. The global configuration changes only by
    [setStructureIdConfig]: every other operation, whether it returns or
    raises, a reset and an import included, leaves it as it was, so that
    a configuration given to one call never becomes the global one; and
    [getStructureIdConfig] returns what was set. *)
Theorem configuration_changes_only_by_setter xxHash32 hash h c g :
  globalConfig (perform xxHash32 hash h c g)
  = match c with
    | CallSetStructureIdConfig config => config
    | _ => globalConfig g
    end
  ∧ ∀ config,
      c = CallSetStructureIdConfig config →
      getStructureIdConfig (perform xxHash32 hash h c g)
      = Ok config (perform xxHash32 hash h c g).
Proof.
  split.
  - destruct (keeps_table c) eqn:Hkeeps.
    + destruct (operation_steady xxHash32 hash h c g Hkeeps) as [[_ Hcfg] _].
      rewrite Hcfg. by destruct c.
    + destruct c; try done. unfold perform.
      rewrite importStructureState_run. by destruct (parse_entries (keyMap st)) as [good []].
  - by intros config ->.
Qed.

(** X19. No operation but [importStructureState] raises, as long as
    the counts are integers: under the contract of the hash, every call
    of every other operation that is given integer counts, on every
    value and from every state whose counts are integers, returns. (A
    count that is no integer is outside the development: [BigInt] of it
    raises a [RangeError] in [generateStructureId] and
    [getStructureInfo].) *)
Theorem only_import_raises xxHash32 hash h c g :
  hash_contract xxHash32 → is_import c = false →
  completes xxHash32 hash h c g = true.
Proof.
  intros Hhash Hc. destruct (keeps_table c) eqn:Hkeeps.
  - by apply operation_steady.
  - by destruct c.
Qed.

Lemma only_import_raises_witness :
  completes sample_hash sample_mark sample_heap (CallGetCompactInfo (VRef 3%nat) None)
    initial = true.
Proof.
  apply (only_import_raises sample_hash sample_mark sample_heap
           (CallGetCompactInfo (VRef 3%nat) None) initial sample_hash_contract).
  reflexivity.
Defined.

(** X5. The stable identifier does not depend on the history: in
    every state that the operations reach without an import, whatever
    was computed, registered, configured or reset before, a call in stable
    mode returns the identifier that a freshly loaded module returns for
    the value. *)
Theorem stable_identifier_ignores_history xxHash32 hash h obj config g :
  reachable_by xxHash32 hash h (λ c, is_import c = false) g →
  collisionMode (default (globalConfig g) config) = false →
  returned (generateStructureId xxHash32 h obj config g)
  = returned (generateStructureId xxHash32 h obj (Some (mkConfig (Some false))) initial).
Proof.
  intros Hreach Hmode.
  pose proof (reachable_by_honest _ _ _ _ Hreach) as Hhonest.
  pose proof (reachable_consistent _ _ _ _ (reachable_by_reachable _ _ _ _ _ Hreach)) as Hg.
  destruct (traversed h obj) eqn:Htrav.
  2:{ by rewrite !generateStructureId_fixed. }
  destruct (traversed_ref h _ Htrav) as [a ->].
  rewrite (returned_stable xxHash32 h a config g Htrav Hmode Hg).
  rewrite (returned_stable xxHash32 h a (Some (mkConfig (Some false))) initial Htrav eq_refl
             (cache_consistent_empty xxHash32 h initial eq_refl)).
  apply stableIdOf_agree, keys_agree_sym, Hhonest.
Qed.

Lemma stable_identifier_ignores_history_witness :
  returned (generateStructureId sample_hash sample_heap (VRef 2%nat) None registered)
  = returned (generateStructureId sample_hash sample_heap (VRef 2%nat)
                (Some (mkConfig (Some false))) initial).
Proof.
  apply (stable_identifier_ignores_history sample_hash sample_digest sample_heap).
  - apply reachable_by_perform; [reflexivity|].
    apply reachable_by_perform; [reflexivity|]. apply reachable_by_initial.
  - reflexivity.
Defined.

Section HoareRules.
Context {St : Type}.

Lemma hoare_ret {A} (P : St → Prop) (a : A) (Q : A → St → Prop) T :
  (∀ s, P s → Q a s) → hoare P (ret a) Q T.
Proof. intros HQ s Hs. by apply HQ. Qed.

Lemma hoare_bind {A B} (P : St → Prop) (m : M St A) (k : A → M St B)
    (Q : A → St → Prop) (Q' : B → St → Prop) T :
  hoare P m Q T → (∀ a, hoare (Q a) (k a) Q' T) → hoare P (bind m k) Q' T.
Proof.
  intros Hm Hk s Hs. unfold bind. specialize (Hm s Hs).
  destruct (m s) as [a s'|e s'|]; [|done..]. by apply Hk.
Qed.

Lemma hoare_modify (P : St → Prop) (f : St → St) (Q : unit → St → Prop) T :
  (∀ s, P s → Q tt (f s)) → hoare P (modify f) Q T.
Proof. intros HQ s Hs. by apply HQ. Qed.

Lemma hoare_get (P : St → Prop) (Q : St → St → Prop) T :
  (∀ s, P s → Q s s) → hoare P get Q T.
Proof. intros HQ s Hs. by apply HQ. Qed.

Lemma hoare_conseq {A} (P P' : St → Prop) (m : M St A)
    (Q Q' : A → St → Prop) (T T' : St → Prop) :
  hoare P' m Q' T' → (∀ s, P s → P' s) → (∀ a s, Q' a s → Q a s) →
  (∀ s, T' s → T s) → hoare P m Q T.
Proof.
  intros Hm HP HQ HT s Hs. specialize (Hm s (HP s Hs)).
  destruct (m s); auto.
Qed.

(** The loops of [processStructure]: the multiplier starts at 1 and
    grows. *)
Lemma hoare_for_each {A} (P : St → Prop) (body : nat → Z → A → M St unit) T l :
  (∀ i multiplier x, 1 ≤ multiplier → hoare P (body i multiplier x) (λ _, P) T) →
  ∀ i multiplier, 1 ≤ multiplier → hoare P (for_each body i multiplier l) (λ _, P) T.
Proof.
  induction l as [|x l' IH]; intros Hbody i multiplier Hm; simpl.
  - by apply hoare_ret.
  - eapply hoare_bind; [by apply Hbody|].
    intros ?. apply IH; [done|lia].
Qed.

Lemma hoare_for_of {A} (P : St → Prop) (body : A → M St unit) T l :
  (∀ x, x ∈ l → hoare P (body x) (λ _, P) T) →
  hoare P (for_of body l) (λ _, P) T.
Proof.
  induction l as [|x l' IH]; intros Hbody; simpl.
  - by apply hoare_ret.
  - eapply hoare_bind; [apply Hbody; by left|].
    intros ?. apply IH. intros ??. apply Hbody. by right.
Qed.

Lemma triple_hoare {A} (P : St → Prop) (m : M St A) Q T :
  triple P m Q T → hoare P m Q T.
Proof. intros Hm s Hs. specialize (Hm s Hs). by destruct (m s). Qed.

(** What holds of the state that a call leaves. *)
Lemma hoare_final {A} (P : St → Prop) (m : M St A) s :
  hoare P m (λ _, P) P → P s → P (final s (m s)).
Proof. intros Hm Hs. specialize (Hm s Hs). by destruct (m s). Qed.

End HoareRules.

(** ** Numerals *)

Section Numerals.
Import Js.

Lemma trim_end_cons a s :
  is_white a = false → trim_end (String a s) = String a (trim_end s).
Proof. intros Ha. simpl. rewrite Ha. by destruct (trim_end s). Qed.

(** A hexadecimal literal is no negative number. *)
Lemma BigInt_hex_nonneg s z : BigInt_of_string ("0x" +:+ s) = Some z → 0 ≤ z.
Proof.
  unfold BigInt_of_string, trim.
  change ("0x" +:+ s) with (String "0" (String "x" s)).
  change (trim_start (String "0" (String "x" s))) with (String "0" (String "x" s)).
  rewrite !trim_end_cons by done.
  unfold parse_digits. destruct (trim_end s); [done|].
  destruct (parse_radix _ _ _) as [n|]; [|done]. intros [= <-]. lia.
Qed.

Lemma type_bit_nonneg t : 0 ≤ type_bit t.
Proof.
  unfold type_bit. destruct (TYPE_BITS !! t) as [z|] eqn:Ht; [|done].
  destruct (z =? 0); [done|].
  apply elem_of_list_to_map_2 in Ht.
  repeat (apply elem_of_cons in Ht as [[= _ ->]|Ht]; [lia|]).
  by apply elem_of_nil in Ht.
Qed.

Lemma all_chars_app P s1 s2 :
  all_chars P (s1 +:+ s2) = all_chars P s1 && all_chars P s2.
Proof.
  induction s1 as [|a s1 IH]; [done|].
  rewrite app_cons. simpl. by rewrite IH, andb_assoc.
Qed.

Lemma decimal_no_dash s : all_chars is_decimal s = true → no_dash s = true.
Proof.
  unfold no_dash. induction s as [|a s IH]; [done|]. simpl.
  intros [Ha Hs]%andb_prop. rewrite IH by done.
  destruct a as [[] [] [] [] [] [] [] []]; by vm_compute in Ha |- *.
Qed.

Lemma pretty_N_decimal (n : N) : all_chars is_decimal (pretty n) = true.
Proof.
  unfold pretty, pretty_N. destruct (decide (n = 0)%N); [done|].
  by apply JsFacts.pretty_N_go_decimal.
Qed.

Lemma natToString_no_dash n : no_dash (natToString n) = true.
Proof. apply decimal_no_dash. unfold natToString, pretty, pretty_nat. apply pretty_N_decimal. Qed.

Lemma toString_no_dash z : 0 ≤ z → no_dash (toString z) = true.
Proof.
  intros Hz. apply decimal_no_dash. unfold toString, pretty, pretty_Z.
  destruct z as [|p|p]; [done| |lia].
  unfold pretty, pretty_positive. apply pretty_N_decimal.
Qed.

Lemma no_dash_app s1 s2 : no_dash (s1 +:+ s2) = no_dash s1 && no_dash s2.
Proof. apply all_chars_app. Qed.

Lemma level_label_no_dash level z : 0 ≤ z → no_dash (level_label (level, z)) = true.
Proof.
  intros Hz. unfold level_label. simpl.
  rewrite !no_dash_app, natToString_no_dash, toString_no_dash by done. done.
Qed.

(** *** [split] and [join] *)

Lemma split_nonempty c s : split c s ≠ [].
Proof. destruct s as [|a s]; [done|]. simpl. destruct (Ascii.eqb a c); [done|]. by destruct (split c s). Qed.

Lemma split_no_dash s : no_dash s = true → split "-" s = [s].
Proof.
  induction s as [|a s IH]; [done|]. unfold no_dash. simpl.
  intros [Ha Hs]%andb_prop. apply negb_true_iff in Ha. rewrite Ha.
  by rewrite IH.
Qed.

Lemma split_app_dash s1 s2 :
  no_dash s1 = true → split "-" (s1 +:+ "-" +:+ s2) = s1 :: split "-" s2.
Proof.
  induction s1 as [|a s1 IH].
  { intros _. by rewrite app_nil_l. }
  unfold no_dash. simpl all_chars. intros [Ha Hs]%andb_prop. apply negb_true_iff in Ha.
  rewrite app_cons. simpl. rewrite Ha. by rewrite IH.
Qed.

Lemma join_split s : join "-" (split "-" s) = s.
Proof.
  induction s as [|a s IH]; [done|]. simpl.
  destruct (Ascii.eqb_spec a "-") as [->|Hne].
  - pose proof (split_nonempty "-" s) as Hne.
    unfold join in *. simpl. destruct (split "-" s) as [|x l]; [done|].
    by rewrite IH.
  - unfold join in *. destruct (split "-" s) as [|x l]; [by inversion IH|].
    simpl in *. destruct l; by rewrite <-IH.
Qed.

End Numerals.

Lemma strip_L0_app s1 s2 :
  no_dash s1 = true → strip_L0 (s1 +:+ "-" +:+ s2) = s2.
Proof.
  intros Hs1. unfold strip_L0. rewrite split_app_dash by done.
  unfold Js.slice1. simpl. apply join_split.
Qed.

Lemma calculateIdLevels_app s1 s2 :
  no_dash s1 = true →
  calculateIdLevels (s1 +:+ "-" +:+ s2) = S (calculateIdLevels s2).
Proof. intros Hs1. unfold calculateIdLevels. by rewrite split_app_dash. Qed.

Section NonNegative.
Variable xxHash32 : string → string.
Variable h : heap.

Lemma seed_nonneg level : hoare nonneg (seed level) (λ _, nonneg) nonneg.
Proof.
  apply hoare_modify. intros t [Hk Hlh].
  assert (nonneg (set_levelHashes (<[level := Z.shiftl 1 (Z.of_nat level)]> (levelHashes t)) t))
    as Hseeded.
  { split; [done|]. intros k z. cbn [levelHashes set_levelHashes].
    destruct (decide (level = k)) as [<-|Hne].
    - rewrite lookup_insert_eq. intros [= <-]. apply Z.shiftl_nonneg. lia.
    - rewrite lookup_insert_ne by done. apply Hlh. }
  destruct (levelHashes t !! level) as [z|]; [destruct (z =? 0)|]; done.
Qed.

Lemma add_nonneg level x : 0 ≤ x → hoare nonneg (add level x) (λ _, nonneg) nonneg.
Proof.
  intros Hx. apply hoare_modify. intros t [Hk Hlh]. split; [done|].
  intros k z. cbn [levelHashes set_levelHashes].
  destruct (decide (level = k)) as [<-|Hne].
  - rewrite lookup_alter_eq. destruct (levelHashes t !! level) as [z'|] eqn:Hz; [|done].
    intros [= <-]. specialize (Hlh _ _ Hz). lia.
  - rewrite lookup_alter_ne by done. apply Hlh.
Qed.

Lemma getBit_nonneg_keys key :
  hoare nonneg_keys (getBit xxHash32 key) (λ bit g, 0 ≤ bit ∧ nonneg_keys g) nonneg_keys.
Proof.
  intros g Hg. unfold getBit. rewrite (bind_Ok get _ g g g eq_refl).
  destruct (GLOBAL_KEY_MAP g !! key) as [cached|] eqn:Hkey.
  { split; [by eapply Hg|done]. }
  destruct (Js.BigInt_of_string _) as [parsed|] eqn:Hparse; [|done].
  rewrite bind_modify. apply BigInt_hex_nonneg in Hparse.
  split; [done|]. intros key' bit. cbn [GLOBAL_KEY_MAP set_GLOBAL_KEY_MAP].
  destruct (decide (key = key')) as [<-|Hne].
  - rewrite lookup_insert_eq. by intros [= <-].
  - rewrite lookup_insert_ne by done. apply Hg.
Qed.

Lemma getBit_nonneg key :
  hoare nonneg (global (getBit xxHash32 key)) (λ bit t, 0 ≤ bit ∧ nonneg t) nonneg.
Proof.
  intros t [Hk Hlh]. unfold global.
  pose proof (getBit_nonneg_keys key (globals t) Hk) as Hbit.
  destruct (getBit xxHash32 key (globals t)) as [bit g|e g|]; [| |done].
  - destruct Hbit as [Hbit Hg]. by repeat split.
  - by split.
Qed.

(** The traversal keeps the accumulators and the key bits from
    negative numbers. *)
Lemma processStructure_nonneg fuel :
  ∀ value level path,
    hoare nonneg (processStructure xxHash32 h fuel value level path) (λ _, nonneg) nonneg.
Proof.
  induction fuel as [|fuel IH]; intros value level path; simpl.
  { by intros t _. }
  eapply hoare_bind; [apply seed_nonneg|]. intros [].
  eapply hoare_bind; [apply add_nonneg, type_bit_nonneg|]. intros [].
  destruct (negb _ && negb _). { by apply hoare_ret. }
  destruct (isObject h value || isArray h value); [|by apply hoare_ret].
  destruct value as [| |b1|x1|s1|z1|d1|n1|a]; try by apply hoare_ret.
  eapply hoare_bind with (Q := λ _, nonneg); [by apply hoare_get|].
  intros t. destruct (objectMap t !! a) as [circularPath|].
  { eapply hoare_bind; [apply getBit_nonneg|]. intros bit.
    intros t' [Hbit Ht']. by apply add_nonneg. }
  eapply hoare_bind with (Q := λ _, nonneg); [by apply hoare_modify|]. intros [].
  eapply hoare_bind; [apply getBit_nonneg|]. intros bit.
  eapply hoare_bind with (Q := λ _, nonneg).
  { intros t' [Hbit Ht']. by apply add_nonneg. }
  intros [].
  destruct (negb (Nat.eqb level 0) || _); [|by apply hoare_ret].
  destruct (String.eqb (getType h (VRef a)) "object").
  - apply hoare_for_each; [|done]. intros _ multiplier key Hm.
    eapply hoare_bind; [apply getBit_nonneg|]. intros keyBit.
    eapply hoare_bind with (Q := λ _, nonneg).
    { intros t' [Hbit Ht']. apply add_nonneg; [nia|done]. }
    intros [].
    eapply hoare_bind; [apply add_nonneg|].
    { pose proof (type_bit_nonneg (getType h (prop h (VRef a) key))). nia. }
    intros []. apply IH.
  - destruct (String.eqb (getType h (VRef a)) "array"); [|by apply hoare_ret].
    eapply hoare_bind; [apply getBit_nonneg|]. intros lengthBit.
    eapply hoare_bind with (Q := λ _, nonneg).
    { intros t' [Hbit Ht']. by apply add_nonneg. }
    intros [].
    apply hoare_for_each; [|done]. intros i multiplier item Hm.
    eapply hoare_bind; [apply getBit_nonneg|]. intros indexBit.
    eapply hoare_bind with (Q := λ _, nonneg).
    { intros t' [Hbit Ht']. apply add_nonneg; [nia|done]. }
    intros [].
    eapply hoare_bind; [apply add_nonneg|].
    { pose proof (type_bit_nonneg (getType h item)). nia. }
    intros []. apply IH.
Qed.

Lemma traverse_nonneg g obj :
  nonneg_keys g →
  match traverse xxHash32 h g obj with
  | Ok _ t | Throw _ t => nonneg t
  | OutOfFuel => True
  end.
Proof.
  intros Hg.
  pose proof (processStructure_nonneg (depth_bound h) obj 0%nat [] (mkTrav g ∅ ∅)) as Hrun.
  unfold traverse. destruct (processStructure _ _ _ _ _ _ _); try done; apply Hrun.
  all: split; [done|]; intros ??; cbn [levelHashes]; by rewrite lookup_empty.
Qed.

(** The accumulator of the root is there when the traversal returns. *)
Lemma traverse_has_level_0 g obj t u :
  traverse xxHash32 h g obj = Ok u t → has_level 0 t.
Proof.
  intros Hrun. unfold traverse in Hrun.
  eapply (processStructure_has_level xxHash32 h) in Hrun; [done|by right].
Qed.

(** The stable identifier of a traversed value, from a memo table
    without negative bits: the label of level 0, which holds no dash, in
    front of the signature. *)
Lemma stable_identifier_text g a lh :
  nonneg_keys g → traversed h (VRef a) = true →
  levels xxHash32 h g (VRef a) = Some lh →
  ∃ root,
    lh !! 0%nat = Some root ∧ 0 ≤ root
    ∧ Js.join "-" (idParts lh)
      = level_label (0%nat, root) +:+ "-" +:+ Js.join "-" (structureLevels lh)
    ∧ strip_L0 (Js.join "-" (idParts lh)) = Js.join "-" (structureLevels lh).
Proof.
  intros Hg Htrav. unfold levels.
  pose proof (traverse_nonneg g (VRef a) Hg) as Hnonneg.
  pose proof (traverse_has_level_0 g (VRef a)) as Hlevel0.
  pose proof (traverse_has_level_1 xxHash32 h g a) as Hlevel1.
  destruct (traverse xxHash32 h g (VRef a)) as [[] t|e t|]; [|done..].
  intros [= <-]. specialize (Hlevel0 t tt eq_refl). specialize (Hlevel1 t tt Htrav eq_refl).
  apply elem_of_dom in Hlevel0 as [root Hroot]. exists root.
  destruct Hnonneg as [_ Hlh]. pose proof (Hlh _ _ Hroot) as Hpos.
  assert (Js.join "-" (idParts (levelHashes t))
          = level_label (0%nat, root) +:+ "-" +:+ Js.join "-" (structureLevels (levelHashes t)))
    as Htext.
  { rewrite <-(insert_id (levelHashes t) 0%nat root Hroot) at 1.
    rewrite idParts_insert_0. by apply join_cons, structureLevels_nonempty. }
  split; [done|]. split; [done|]. split; [done|].
  rewrite Htext. by apply strip_L0_app, level_label_no_dash.
Qed.

End NonNegative.

Section Coherent.
Variable xxHash32 : string → string.
Variable hash : string → string.
Variable h : heap.

Local Abbreviation gen := (generateStructureId xxHash32 h).
Local Abbreviation sound := (coherent xxHash32 h).

Lemma signature_coherent_update g g' :
  keys_agree xxHash32 (GLOBAL_KEY_MAP g) (GLOBAL_KEY_MAP g') →
  (∀ a s, OBJECT_SIGNATURE_CACHE g' !! a = Some s →
     OBJECT_SIGNATURE_CACHE g !! a = Some s
     ∨ (if traversed h (VRef a) then signatureOf xxHash32 h g (VRef a) = Some s
        else s = EmptyString)) →
  signature_coherent xxHash32 h g → signature_coherent xxHash32 h g'.
Proof.
  intros Hk Hcache Hg a s Ha.
  assert (if traversed h (VRef a) then signatureOf xxHash32 h g (VRef a) = Some s
          else s = EmptyString) as Hs.
  { destruct (Hcache a s Ha) as [Hold|Hnew]; [by apply Hg|done]. }
  destruct (traversed h (VRef a)); [|done].
  by rewrite <-(signatureOf_agree xxHash32 h g g').
Qed.

Lemma coherent_same g g' :
  GLOBAL_KEY_MAP g' = GLOBAL_KEY_MAP g →
  OBJECT_ID_CACHE g' = OBJECT_ID_CACHE g →
  OBJECT_SIGNATURE_CACHE g' = OBJECT_SIGNATURE_CACHE g →
  sound g → sound g'.
Proof.
  intros Hk Hid Hsig (Hn & Hc & Hs & Ht). split; [|split; [|split]].
  - intros key bit. rewrite Hk. apply Hn.
  - by apply (cache_consistent_same xxHash32 h g g').
  - apply (signature_coherent_update g g'); [rewrite Hk; apply keys_agree_refl| |done].
    intros a s. rewrite Hsig. auto.
  - intros a id. rewrite Hid. apply Ht.
Qed.

Lemma coherent_empty g :
  nonneg_keys g → OBJECT_ID_CACHE g = ∅ → OBJECT_SIGNATURE_CACHE g = ∅ → sound g.
Proof.
  intros Hn Hid Hsig. split; [done|]. split; [by apply cache_consistent_empty|]. split.
  - intros a s. by rewrite Hsig, lookup_empty.
  - intros a s. by rewrite Hid, lookup_empty.
Qed.

(** What a call of [gen] leaves in the signature cache. *)
Lemma generateStructureId_signatures obj config g :
  nonneg_keys g →
  match gen obj config g with
  | Ok _ g' | Throw _ g' =>
      nonneg_keys g'
      ∧ ∀ a s, OBJECT_SIGNATURE_CACHE g' !! a = Some s →
          OBJECT_SIGNATURE_CACHE g !! a = Some s
          ∨ (traversed h (VRef a) = true ∧ signatureOf xxHash32 h g (VRef a) = Some s)
  | OutOfFuel => True
  end.
Proof.
  intros Hg. destruct (traversed h obj) eqn:Htrav.
  2:{ rewrite generateStructureId_fixed by done. by auto. }
  destruct (traversed_ref h _ Htrav) as [a ->].
  rewrite generateStructureId_traversed by done. cbv zeta.
  pose proof (traverse_during xxHash32 h g (VRef a)) as Hrun.
  pose proof (traverse_nonneg xxHash32 h g (VRef a) Hg) as Hnonneg.
  assert (∀ t u, traverse xxHash32 h g (VRef a) = Ok u t →
            same_but_keys g (globals t) → nonneg t →
            ∀ a' s,
              <[a := Js.join "-" (structureLevels (levelHashes t))]>
                (OBJECT_SIGNATURE_CACHE (globals t)) !! a' = Some s →
              OBJECT_SIGNATURE_CACHE g !! a' = Some s
              ∨ (traversed h (VRef a') = true
                 ∧ signatureOf xxHash32 h g (VRef a') = Some s)) as Hentry.
  { intros t u Htraverse (_ & _ & Hsig & _) _ a' s.
    destruct (decide (a = a')) as [<-|Hne].
    - rewrite lookup_insert_eq. intros [= <-]. right. split; [done|].
      unfold signatureOf, levels. by rewrite Htraverse.
    - rewrite lookup_insert_ne by done. rewrite <-Hsig. auto. }
  destruct (collisionMode (default (globalConfig g) config)).
  - destruct (traverse xxHash32 h g (VRef a)) as [[] t|e t|] eqn:Htraverse; [| |done].
    + destruct Hrun as (_ & Hsame). split; [apply Hnonneg|].
      by apply (Hentry t tt).
    + destruct Hrun as (_ & (_ & _ & Hsig & _) & _). split; [apply Hnonneg|].
      intros a' s. rewrite <-Hsig. auto.
  - destruct (OBJECT_ID_CACHE g !! a) as [cached|]; [by auto|].
    destruct (traverse xxHash32 h g (VRef a)) as [[] t|e t|] eqn:Htraverse; [| |done].
    + destruct Hrun as (_ & Hsame). split; [apply Hnonneg|].
      by apply (Hentry t tt).
    + destruct Hrun as (_ & (_ & _ & Hsig & _) & _). split; [apply Hnonneg|].
      intros a' s. rewrite <-Hsig. auto.
Qed.

(** What a call of [gen] leaves in the identifier cache. *)
Lemma generateStructureId_identifiers obj config g :
  cached_are_traversed h g →
  cached_are_traversed h (final g (gen obj config g)).
Proof.
  intros Hg. destruct (traversed h obj) eqn:Htrav.
  2:{ by rewrite generateStructureId_fixed. }
  destruct (traversed_ref h _ Htrav) as [a ->].
  pose proof (generateStructureId_outcome xxHash32 h (VRef a) config g) as Hout.
  pose proof (generateStructureId_caches xxHash32 h a config g) as Hcaches.
  destruct (gen (VRef a) config g) as [id g'|e g'|]; simpl; [| |done].
  - destruct (Hcaches id g' Htrav eq_refl) as (_ & _ & Hother).
    intros b id'. destruct (decide (b = a)) as [->|Hne]; [done|].
    destruct (Hother b Hne) as (-> & _). apply Hg.
  - destruct Hout as (_ & (_ & Hid & _) & _). intros b id'. rewrite <-Hid. apply Hg.
Qed.

Lemma generateStructureId_coherent obj config :
  hoare sound (gen obj config) (λ _, sound) sound.
Proof.
  intros g (Hn & Hc & Hs & Ht).
  pose proof (generateStructureId_outcome xxHash32 h obj config g) as Hout.
  pose proof (generateStructureId_consistent xxHash32 h obj config g Hc) as Hcons.
  pose proof (generateStructureId_signatures obj config g Hn) as Hsigs.
  pose proof (generateStructureId_identifiers obj config g Ht) as Hids.
  destruct (gen obj config g) as [id g'|e g'|]; [| |done].
  - destruct Hout as (Hk & _), Hsigs as (Hn' & Hsigs).
    split; [done|]. split; [done|]. split; [|done].
    apply (signature_coherent_update g g'); [done| |done].
    intros a s Ha. destruct (Hsigs a s Ha) as [?|[Htrav ?]]; [by left|right].
    by rewrite Htrav.
  - destruct Hout as (Hk & _), Hsigs as (Hn' & Hsigs).
    split; [done|]. split; [done|]. split; [|done].
    apply (signature_coherent_update g g'); [done| |done].
    intros a s Ha. destruct (Hsigs a s Ha) as [?|[Htrav ?]]; [by left|right].
    by rewrite Htrav.
Qed.

(** A stable-mode call on a reference from a coherent state: the
    identifier it returns, without its first segment, is the signature. *)
Lemma generateStructureId_strip a config g id g' :
  sound g →
  collisionMode (default (globalConfig g) config) = false →
  gen (VRef a) config g = Ok id g' →
  if traversed h (VRef a)
  then stableIdOf xxHash32 h g (VRef a) = Some id
       ∧ signatureOf xxHash32 h g (VRef a) = Some (strip_L0 id)
  else strip_L0 id = EmptyString ∧ g' = g ∧ id = fixed_id h (VRef a).
Proof.
  intros (Hn & Hc & Hs & _) Hmode Hrun. destruct (traversed h (VRef a)) eqn:Htrav.
  - pose proof (returned_stable xxHash32 h a config g Htrav Hmode Hc) as Hid.
    rewrite Hrun in Hid. simpl in Hid. split; [done|].
    unfold stableIdOf, signatureOf in *.
    destruct (levels xxHash32 h g (VRef a)) as [lh|] eqn:Hlevels; [|done].
    destruct (stable_identifier_text xxHash32 h g a lh Hn Htrav Hlevels)
      as (root & _ & _ & _ & Hstrip).
    simpl in *. injection Hid as ->. by rewrite Hstrip.
  - rewrite generateStructureId_fixed in Hrun by done. injection Hrun as <- <-.
    split; [|done]. unfold fixed_id. by destruct (h !! a) as [[]|].
Qed.

Lemma getStructureSignature_coherent obj :
  hoare sound (getStructureSignature xxHash32 h obj) (λ _, sound) sound.
Proof.
  intros g Hg. unfold getStructureSignature.
  destruct (negb _ || _). { done. }
  destruct obj as [| |b1|x1|s1|z1|d1|n1|a]; try done.
  rewrite (bind_Ok get _ g g g eq_refl).
  destruct (OBJECT_SIGNATURE_CACHE g !! a) eqn:Hcached. { done. }
  pose proof (generateStructureId_coherent (VRef a) (Some (mkConfig (Some false))) g Hg)
    as Hsound.
  pose proof (generateStructureId_outcome xxHash32 h (VRef a)
                (Some (mkConfig (Some false))) g) as Hout.
  pose proof (generateStructureId_strip a (Some (mkConfig (Some false))) g) as Hstrip.
  unfold bind at 1.
  destruct (gen (VRef a) (Some (mkConfig (Some false))) g) as [id g'|e g'|]; [| |done].
  2:{ done. }
  specialize (Hstrip id g' Hg eq_refl eq_refl).
  rewrite bind_modify. destruct Hsound as (Hn & Hc & Hs & Ht), Hout as (Hk & _).
  split; [done|]. split; [by apply (cache_consistent_same xxHash32 h g')|].
  split; [|done].
  intros a' s. cbn [OBJECT_SIGNATURE_CACHE set_OBJECT_SIGNATURE_CACHE].
  destruct (decide (a = a')) as [<-|Hne].
  - rewrite lookup_insert_eq. intros [= <-].
    destruct (traversed h (VRef a)); [|by destruct Hstrip].
    destruct Hstrip as [_ Hsig].
    by rewrite <-(signatureOf_agree xxHash32 h g).
  - rewrite lookup_insert_ne by done. intros Ha'. specialize (Hs a' s Ha').
    destruct (traversed h (VRef a')); [|done].
    by rewrite <-(signatureOf_agree xxHash32 h g').
Qed.

Lemma registerStructure_coherent obj n :
  hoare sound (registerStructure xxHash32 h obj n) (λ _, sound) sound.
Proof.
  unfold registerStructure.
  eapply hoare_bind; [apply getStructureSignature_coherent|]. intros signature.
  apply hoare_modify. intros g'. by apply coherent_same.
Qed.

Lemma getStructureInfo_coherent obj config :
  hoare sound (getStructureInfo xxHash32 h obj config) (λ _, sound) sound.
Proof.
  unfold getStructureInfo.
  eapply hoare_bind with (Q := λ _, sound); [by apply hoare_get|].
  intros g. destruct (negb _ || _).
  { eapply hoare_bind; [apply generateStructureId_coherent|]. intros id.
    by apply hoare_ret. }
  destruct obj as [| |b1|x1|s1|z1|d1|n1|a]; try by apply hoare_ret.
  destruct (STRUCTURE_INFO_CACHE g !! a). { by apply hoare_ret. }
  eapply hoare_bind with (Q := λ _, sound).
  { destruct (OBJECT_SIGNATURE_CACHE g !! a); [by apply hoare_ret|].
    eapply hoare_bind; [apply generateStructureId_coherent|]. intros id.
    by apply hoare_ret. }
  intros structureSignature.
  eapply hoare_bind with (Q := λ _, sound); [by apply hoare_get|].
  intros g'.
  eapply hoare_bind with (Q := λ _, sound).
  { destruct (collisionMode _); [by apply hoare_ret|].
    destruct (OBJECT_ID_CACHE g' !! a); [by apply hoare_ret|].
    apply generateStructureId_coherent. }
  intros id.
  eapply hoare_bind with (Q := λ _, sound); [|intros []; by apply hoare_ret].
  apply hoare_modify. intros g''. by apply coherent_same.
Qed.

Lemma store_all_nonneg (l : list (string * Z)) (m : gmap string Z) :
  (∀ e, e ∈ l → 0 ≤ e.2) → (∀ key bit, m !! key = Some bit → 0 ≤ bit) →
  ∀ key bit, store_all l m !! key = Some bit → 0 ≤ bit.
Proof.
  unfold store_all. revert m. induction l as [|e l IH]; intros m Hl Hm; [done|].
  simpl. apply IH.
  - intros e' He'. apply Hl. by right.
  - intros key bit. destruct (decide (e.1 = key)) as [<-|Hne].
    + rewrite lookup_insert_eq. intros [= <-]. apply Hl. by left.
    + rewrite lookup_insert_ne by done. apply Hm.
Qed.

Lemma parse_entries_nonneg l :
  (∀ e bit, e ∈ l → Js.BigInt_of_string e.2 = Some bit → 0 ≤ bit) →
  ∀ e, e ∈ (parse_entries l).1 → 0 ≤ e.2.
Proof.
  induction l as [|e l IH]; intros Hl e' He'; [by apply elem_of_nil in He'|].
  cbn [parse_entries] in He'.
  destruct (Js.BigInt_of_string e.2) as [bit|] eqn:Hbit; [|by apply elem_of_nil in He'].
  destruct (parse_entries l) as [good complete] eqn:Hparse. simpl in *.
  apply elem_of_cons in He' as [->|He'].
  - eapply Hl; [by left|done].
  - apply IH; [|done]. intros e'' bit' ?. apply Hl. by right.
Qed.

(** Every state that the operations reach, without an import of a
    negative key bit, is coherent. *)
Lemma reachable_coherent g :
  reachable_by xxHash32 hash h nonneg_import g → sound g.
Proof.
  induction 1 as [|c g Hc Hreach IH].
  { by apply coherent_empty. }
  destruct c; unfold perform.
  - by apply hoare_final; [apply generateStructureId_coherent|].
  - by apply hoare_final; [apply getStructureSignature_coherent|].
  - by apply hoare_final; [apply registerStructure_coherent|].
  - apply hoare_final; [|done]. apply hoare_for_of. intros ??.
    apply registerStructure_coherent.
  - apply hoare_final; [|done]. apply hoare_for_of. intros ??.
    apply hoare_modify. intros g'. by apply coherent_same.
  - by apply hoare_final; [apply getStructureInfo_coherent|].
  - by apply (coherent_same g).
  - done.
  - by apply coherent_empty.
  - done.
  - rewrite importStructureState_run.
    pose proof (parse_entries_nonneg (keyMap st) Hc) as Hgood.
    destruct (parse_entries (keyMap st)) as [good [|]]; simpl in *.
    + apply coherent_empty; [|done..]. unfold nonneg_keys. cbn [GLOBAL_KEY_MAP].
      apply store_all_nonneg; [done|]. intros ??. by rewrite lookup_empty.
    + apply coherent_empty; [|done..]. unfold nonneg_keys. cbn [GLOBAL_KEY_MAP].
      apply store_all_nonneg; [done|]. intros ??. by rewrite lookup_empty.
  - apply hoare_final; [|done].
    eapply hoare_bind; [apply generateStructureId_coherent|]. intros ?.
    by apply hoare_ret.
  - apply hoare_final; [|done].
    eapply hoare_bind; [apply getStructureInfo_coherent|]. intros i.
    destruct obj; try by apply hoare_ret.
    eapply hoare_bind with (Q := λ _, sound); [|intros []; by apply hoare_ret].
    apply hoare_modify. intros g'. by apply coherent_same.
Qed.

End Coherent.

(** The range of [safe_count] ends where the addition of numbers
    leaves the integers: [2^53 - 1] is the last count that [+ 1] takes to
    its successor, and [2^53 + 1] is [2^53] again. *)
Example safe_count_limits :
  safe_count (2 ^ 53 - 1) ∧ ¬ safe_count (2 ^ 53)
  ∧ (9007199254740991 + 1 =? 9007199254740992)%float = true
  ∧ (9007199254740992 + 1 =? 9007199254740992)%float = true.
Proof.
  unfold safe_count. split; [lia|]. split; [lia|]. split; reflexivity.
Qed.

Section Agreement.
Variable xxHash32 : string → string.
Variable hash : string → string.
Variable h : heap.

Local Abbreviation gen := (generateStructureId xxHash32 h).
Local Abbreviation sound := (coherent xxHash32 h).
Local Abbreviation sigOf := (signatureOf xxHash32 h).

(** One call in disambiguating mode, whatever the counter holds. *)
Lemma generateStructureId_counted a config g signature :
  traversed h (VRef a) = true →
  collisionMode (default (globalConfig g) config) = true →
  sigOf g (VRef a) = Some signature →
  let count := default 0 (STRUCTURE_HASH_COUNTER g !! signature) in
  ∃ g', gen (VRef a) config g
        = Ok ("L0:" +:+ Js.toString count +:+ "-" +:+ signature) g'
    ∧ keys_agree xxHash32 (GLOBAL_KEY_MAP g) (GLOBAL_KEY_MAP g')
    ∧ globalConfig g' = globalConfig g
    ∧ STRUCTURE_HASH_COUNTER g' = <[signature := count + 1]> (STRUCTURE_HASH_COUNTER g)
    ∧ OBJECT_SIGNATURE_CACHE g' !! a = Some signature
    ∧ STRUCTURE_INFO_CACHE g' !! a = None.
Proof.
  intros Htrav Hmode Hsig count.
  rewrite generateStructureId_traversed by done. cbv zeta. rewrite Hmode.
  unfold signatureOf, levels in Hsig.
  pose proof (traverse_during xxHash32 h g (VRef a)) as Hrun.
  pose proof (traverse_has_level_1 xxHash32 h g a) as Hlevel.
  destruct (traverse xxHash32 h g (VRef a)) as [[] t|e t|]; [|done..].
  simpl in Hsig. injection Hsig as Hsig.
  destruct Hrun as (Hk & Hc & _ & _ & _ & Hcfg). specialize (Hlevel t tt Htrav eq_refl).
  assert (Js.join "-" (idParts (<[0%nat := count]> (levelHashes t)))
          = "L0:" +:+ Js.toString count +:+ "-" +:+ signature) as Hid.
  { rewrite idParts_insert_0.
    rewrite join_cons by (by apply structureLevels_nonempty).
    by rewrite Hsig. }
  cbn [STRUCTURE_HASH_COUNTER set_OBJECT_SIGNATURE_CACHE]. rewrite Hsig, <-Hc.
  fold count. rewrite Hid.
  eexists. split; [done|]. cbn. split; [done|]. split; [done|]. split; [done|].
  by rewrite lookup_insert_eq, lookup_delete_eq.
Qed.

(** What [getStructureSignature] answers from a coherent state. *)
Lemma getStructureSignature_outcome a g signature g' :
  sound g → traversed h (VRef a) = true →
  getStructureSignature xxHash32 h (VRef a) g = Ok signature g' →
  sigOf g (VRef a) = Some signature
  ∧ sound g'
  ∧ keys_agree xxHash32 (GLOBAL_KEY_MAP g) (GLOBAL_KEY_MAP g')
  ∧ globalConfig g' = globalConfig g
  ∧ STRUCTURE_HASH_COUNTER g' = STRUCTURE_HASH_COUNTER g.
Proof.
  intros Hg Htrav Hrun.
  pose proof (getStructureSignature_coherent xxHash32 h (VRef a) g Hg) as Hsound.
  rewrite Hrun in Hsound. split; [|split; [done|]]; revert Hrun.
  all: unfold getStructureSignature;
       cbn [typeof is_null String.eqb Ascii.eqb Bool.eqb negb orb]; cbv iota;
       rewrite (bind_Ok get _ g g g eq_refl).
  all: destruct (OBJECT_SIGNATURE_CACHE g !! a) as [cached|] eqn:Hcached.
  - intros [= <- <-]. destruct Hg as (_ & _ & Hs & _). specialize (Hs a cached Hcached).
    by rewrite Htrav in Hs.
  - intros (id & g1 & Hgen & Hrest)%bind_Ok_inv.
    rewrite bind_modify in Hrest. injection Hrest as <- <-.
    pose proof (generateStructureId_strip xxHash32 h a (Some (mkConfig (Some false)))
                  g id g1 Hg eq_refl Hgen) as Hstrip.
    rewrite Htrav in Hstrip. by destruct Hstrip.
  - intros [= <- <-]. split; [apply keys_agree_refl|done].
  - intros (id & g1 & Hgen & Hrest)%bind_Ok_inv.
    rewrite bind_modify in Hrest. injection Hrest as <- <-.
    pose proof (generateStructureId_outcome xxHash32 h (VRef a)
                  (Some (mkConfig (Some false))) g) as Hout.
    rewrite Hgen in Hout. destruct Hout as (Hk & Hcfg & Hc & _). cbn.
    split; [done|]. split; [done|]. by apply Hc.
Qed.

(** What [getStructureInfo] answers from a coherent state for a
    traversed value without a cached bundle. *)
Lemma getStructureInfo_outcome a config g i g' :
  sound g → traversed h (VRef a) = true →
  STRUCTURE_INFO_CACHE g !! a = None →
  getStructureInfo xxHash32 h (VRef a) config g = Ok i g' →
  ∃ signature,
    sigOf g (VRef a) = Some signature
    ∧ info_collisionCount i = default 0 (STRUCTURE_HASH_COUNTER g !! signature)
    ∧ info_levels i = calculateIdLevels (info_id i)
    ∧ (if collisionMode (default (globalConfig g) config)
       then info_id i = "L0:" +:+ Js.toString (info_collisionCount i) +:+ "-" +:+ signature
       else stableIdOf xxHash32 h g (VRef a) = Some (info_id i))
    ∧ sound g'
    ∧ keys_agree xxHash32 (GLOBAL_KEY_MAP g) (GLOBAL_KEY_MAP g')
    ∧ globalConfig g' = globalConfig g
    ∧ STRUCTURE_HASH_COUNTER g' = STRUCTURE_HASH_COUNTER g.
Proof.
  intros Hg Htrav Hinfo Hrun.
  pose proof (getStructureInfo_coherent xxHash32 h (VRef a) config g Hg) as Hsound.
  rewrite Hrun in Hsound. revert Hrun.
  unfold getStructureInfo. rewrite (bind_Ok get _ g g g eq_refl).
  cbn [typeof is_null String.eqb Ascii.eqb Bool.eqb negb orb]. cbv iota.
  rewrite Hinfo.
  intros (signature & g1 & Hsig & Hrest)%bind_Ok_inv.
  rewrite (bind_Ok get _ g1 g1 g1 eq_refl) in Hrest.
  apply bind_Ok_inv in Hrest as (id & g2 & Hid & Hrest).
  rewrite bind_modify in Hrest. injection Hrest as <- <-.
  cbn [info_id info_levels info_collisionCount].
  (* the signature *)
  assert (sigOf g (VRef a) = Some signature ∧ sound g1
          ∧ keys_agree xxHash32 (GLOBAL_KEY_MAP g) (GLOBAL_KEY_MAP g1)
          ∧ globalConfig g1 = globalConfig g
          ∧ STRUCTURE_HASH_COUNTER g1 = STRUCTURE_HASH_COUNTER g)
    as (Hsignature & Hg1 & Hk1 & Hcfg1 & Hc1).
  { destruct (OBJECT_SIGNATURE_CACHE g !! a) as [cached|] eqn:Hcached.
    - injection Hsig as <- <-. split; [|split; [done|split; [apply keys_agree_refl|done]]].
      destruct Hg as (_ & _ & Hs & _). specialize (Hs a cached Hcached).
      by rewrite Htrav in Hs.
    - apply bind_Ok_inv in Hsig as (id0 & g0 & Hgen & [= <- <-]).
      pose proof (generateStructureId_strip xxHash32 h a (Some (mkConfig (Some false)))
                    g id0 g0 Hg eq_refl Hgen) as Hstrip.
      pose proof (generateStructureId_coherent xxHash32 h (VRef a)
                    (Some (mkConfig (Some false))) g Hg) as Hsound0.
      pose proof (generateStructureId_outcome xxHash32 h (VRef a)
                    (Some (mkConfig (Some false))) g) as Hout.
      rewrite Hgen in Hsound0, Hout. rewrite Htrav in Hstrip.
      destruct Hout as (Hk & Hcfg & Hc & _), Hstrip as [_ Hstrip].
      split; [done|]. split; [done|]. split; [done|]. split; [done|]. by apply Hc. }
  exists signature. split; [done|]. rewrite <-Hc1. split; [done|]. split; [done|].
  (* the identifier *)
  destruct (collisionMode (default (globalConfig g) config)) eqn:Hmode.
  - injection Hid as <- <-. split; [done|]. split; [done|]. split; [done|]. by split.
  - assert (stableIdOf xxHash32 h g1 (VRef a) = Some id
            ∧ keys_agree xxHash32 (GLOBAL_KEY_MAP g1) (GLOBAL_KEY_MAP g2)
            ∧ globalConfig g2 = globalConfig g1
            ∧ STRUCTURE_HASH_COUNTER g2 = STRUCTURE_HASH_COUNTER g1)
      as (Hstable & Hk2 & Hcfg2 & Hc2).
    { destruct (OBJECT_ID_CACHE g1 !! a) as [cached|] eqn:Hcached.
      - injection Hid as <- <-. split; [|split; [apply keys_agree_refl|done]].
        destruct Hg1 as (_ & Hcons & _). by apply Hcons.
      - pose proof (generateStructureId_strip xxHash32 h a (Some (mkConfig (Some false)))
                      g1 id g2 Hg1 eq_refl Hid) as Hstrip.
        pose proof (generateStructureId_outcome xxHash32 h (VRef a)
                      (Some (mkConfig (Some false))) g1) as Hout.
        rewrite Hid in Hout. rewrite Htrav in Hstrip.
        destruct Hout as (Hk & Hcfg & Hc & _), Hstrip as [Hstrip _].
        split; [done|]. split; [done|]. split; [done|]. by apply Hc. }
    split; [by rewrite (stableIdOf_agree xxHash32 h g g1)|]. split; [done|].
    cbn. split; [by eapply keys_agree_trans|]. split; congruence.
Qed.

(** X10. The signature is the identifier without its first segment:
    in every state that the operations reach without the import of a
    negative key bit, when [getStructureSignature] returns a signature for
    a traversed value, [generateStructureId] in stable mode returns
    [L0:n-] followed by that signature, with [n] no negative number. *)
Theorem signature_is_identifier_without_level_0 a g signature g1 :
  reachable_by xxHash32 hash h nonneg_import g →
  traversed h (VRef a) = true →
  getStructureSignature xxHash32 h (VRef a) g = Ok signature g1 →
  ∃ root id g2,
    gen (VRef a) (Some (mkConfig (Some false))) g = Ok id g2
    ∧ id = "L0:" +:+ Js.toString root +:+ "-" +:+ signature
    ∧ 0 ≤ root
    ∧ strip_L0 id = signature.
Proof.
  intros Hreach Htrav Hrun.
  pose proof (reachable_coherent _ _ _ _ Hreach) as Hg.
  destruct (getStructureSignature_outcome a g signature g1 Hg Htrav Hrun) as (Hsig & _).
  unfold signatureOf in Hsig.
  destruct (levels xxHash32 h g (VRef a)) as [lh|] eqn:Hlevels; [|done].
  injection Hsig as Hsig.
  destruct Hg as (Hn & Hc & Hs & _).
  destruct (stable_identifier_text xxHash32 h g a lh Hn Htrav Hlevels)
    as (root & _ & Hroot & Htext & Hstrip).
  pose proof (returned_stable xxHash32 h a (Some (mkConfig (Some false))) g
                Htrav eq_refl Hc) as Hid.
  unfold stableIdOf in Hid. rewrite Hlevels in Hid. simpl in Hid.
  destruct (gen (VRef a) (Some (mkConfig (Some false))) g) as [id g2|e g2|]; [|done..].
  injection Hid as ->.
  exists root, (Js.join "-" (idParts lh)), g2.
  split; [done|]. rewrite Hstrip, Htext, Hsig. done.
Qed.

(** X12. A registered count is the first segment of the next
    identifier: after [registerStructure] with an integer count from
    [-2^53] to [2^53 - 1], on which the addition of the code is that of
    the integers, on a traversed value, the next call of
    [generateStructureId] on it in disambiguating mode returns
    [L0:count-] followed by the signature that [getStructureSignature]
    gives the value, and leaves [count + 1] in the Collision Counter. *)
Theorem registered_count_is_next_level_0 a count config g g1 :
  reachable_by xxHash32 hash h nonneg_import g →
  traversed h (VRef a) = true →
  safe_count count →
  registerStructure xxHash32 h (VRef a) count g = Ok tt g1 →
  collisionMode (default (globalConfig g1) config) = true →
  ∃ signature g2,
    getStructureSignature xxHash32 h (VRef a) g1 = Ok signature g1
    ∧ gen (VRef a) config g1
      = Ok ("L0:" +:+ Js.toString count +:+ "-" +:+ signature) g2
    ∧ STRUCTURE_HASH_COUNTER g2 !! signature = Some (count + 1).
Proof.
  intros Hreach Htrav _ Hrun Hmode.
  pose proof (reachable_coherent _ _ _ _ Hreach) as Hg.
  unfold registerStructure in Hrun.
  apply bind_Ok_inv in Hrun as (signature & g' & Hsig & [= <-]).
  destruct (getStructureSignature_outcome a g signature g' Hg Htrav Hsig)
    as (Hsignature & Hg' & Hk & Hcfg & Hc).
  apply getStructureSignature_caches in Hsig as Hcached.
  exists signature.
  destruct (generateStructureId_counted a config
              (set_STRUCTURE_HASH_COUNTER
                 (<[signature := count]> (STRUCTURE_HASH_COUNTER g')) g') signature)
    as (g2 & Hgen & _ & _ & Hcount & _); [done|done| |].
  { by rewrite <-(signatureOf_agree xxHash32 h g). }
  cbn [STRUCTURE_HASH_COUNTER set_STRUCTURE_HASH_COUNTER] in Hgen, Hcount.
  rewrite lookup_insert_eq in Hgen, Hcount. simpl in Hgen, Hcount.
  exists g2. split; [|split; [done|]].
  - unfold getStructureSignature.
    cbn [typeof is_null String.eqb Ascii.eqb Bool.eqb negb orb]. cbv iota.
    rewrite (bind_Ok get _ _ _ _ eq_refl).
    cbn [OBJECT_SIGNATURE_CACHE set_STRUCTURE_HASH_COUNTER]. by rewrite Hcached.
  - by rewrite Hcount, lookup_insert_eq.
Qed.

(** X16. The bundle predicts the identifier: for a traversed value
    without a cached bundle, the identifier in the bundle that
    [getStructureInfo] returns is the identifier that the next call of
    [generateStructureId] with the same configuration returns, in stable
    and in disambiguating mode. *)
Theorem bundle_predicts_identifier a config g i g1 :
  reachable_by xxHash32 hash h nonneg_import g →
  traversed h (VRef a) = true →
  STRUCTURE_INFO_CACHE g !! a = None →
  getStructureInfo xxHash32 h (VRef a) config g = Ok i g1 →
  returned (gen (VRef a) config g1) = Some (info_id i).
Proof.
  intros Hreach Htrav Hinfo Hrun.
  pose proof (reachable_coherent _ _ _ _ Hreach) as Hg.
  destruct (getStructureInfo_outcome a config g i g1 Hg Htrav Hinfo Hrun)
    as (signature & Hsig & Hcount & _ & Hid & Hg1 & Hk & Hcfg & Hc).
  destruct (collisionMode (default (globalConfig g) config)) eqn:Hmode.
  - destruct (generateStructureId_counted a config g1 signature)
      as (g2 & Hgen & _); [done|by rewrite Hcfg| |].
    { by rewrite <-(signatureOf_agree xxHash32 h g). }
    rewrite Hgen. simpl. by rewrite Hid, Hcount, Hc.
  - destruct Hg1 as (_ & Hcons & _).
    rewrite returned_stable by (rewrite ?Hcfg; done).
    by rewrite <-(stableIdOf_agree xxHash32 h g).
Qed.

End Agreement.

Lemma signature_is_identifier_without_level_0_witness :
  ∃ root id g2,
    generateStructureId sample_hash sample_heap (VRef 1%nat)
      (Some (mkConfig (Some false))) initial = Ok id g2
    ∧ id = "L0:" +:+ Js.toString root +:+ "-" +:+ "L1:4"
    ∧ 0 ≤ root
    ∧ strip_L0 id = "L1:4".
Proof.
  refine (signature_is_identifier_without_level_0 sample_hash sample_digest sample_heap
            1%nat initial "L1:4" _ _ _ _).
  - apply reachable_by_initial.
  - reflexivity.
  - by vm_compute.
Defined.

Lemma registered_count_is_next_level_0_witness :
  let g1 := final initial
              (registerStructure sample_hash sample_heap (VRef 1%nat) 7 initial) in
  ∃ signature g2,
    getStructureSignature sample_hash sample_heap (VRef 1%nat) g1 = Ok signature g1
    ∧ generateStructureId sample_hash sample_heap (VRef 1%nat) disambiguating g1
      = Ok ("L0:" +:+ Js.toString 7 +:+ "-" +:+ signature) g2
    ∧ STRUCTURE_HASH_COUNTER g2 !! signature = Some (7 + 1).
Proof.
  refine (registered_count_is_next_level_0 sample_hash sample_digest sample_heap
            1%nat 7 disambiguating initial _ _ _ _ _ _).
  - apply reachable_by_initial.
  - reflexivity.
  - unfold safe_count. lia.
  - by vm_compute.
  - reflexivity.
Defined.

Lemma bundle_predicts_identifier_witness :
  ∃ g1, returned (generateStructureId sample_hash sample_heap (VRef 1%nat) disambiguating g1)
        = Some "L0:0-L1:4".
Proof.
  eexists.
  refine (bundle_predicts_identifier sample_hash sample_digest sample_heap
            1%nat disambiguating initial (mkInfo "L0:0-L1:4" 2 0) _ _ _ _ _).
  - apply reachable_by_initial.
  - reflexivity.
  - reflexivity.
  - by vm_compute.
Defined.

Section More.
Variable xxHash32 : string → string.
Variable hash : string → string.
Variable h : heap.

Local Abbreviation gen := (generateStructureId xxHash32 h).
Local Abbreviation sound := (coherent xxHash32 h).
Local Abbreviation sigOf := (signatureOf xxHash32 h).

(** X4. Arrays of one shape: two arrays that correspond in shape, by a
    correspondence that matches the objects reached from the one with
    the objects reached from the other, one to one, so that an object
    that occurs twice is matched with an object that occurs twice, have
    the same length and, element by element, values of the same type, and
    get the same identifier from every reachable state, whatever the
    values of their scalars. *)
Theorem arrays_of_one_shape R a b elemsA elemsB config g :
  shape_correspondence h R →
  R a b →
  h !! a = Some (HArray elemsA) →
  h !! b = Some (HArray elemsB) →
  reachable xxHash32 hash h g →
  length elemsA = length elemsB
  ∧ Forall2 (λ x y, getType h x = getType h y) elemsA elemsB
  ∧ returned (gen (VRef a) config g) = returned (gen (VRef b) config g).
Proof.
  intros HR Hab Ha Hb Hreach.
  pose proof (reachable_consistent _ _ _ _ Hreach) as Hg.
  pose proof (shape_objects _ _ HR a b Hab) as Hobj. rewrite Ha, Hb in Hobj.
  split; [by eapply Forall2_length|]. split.
  - eapply Forall2_impl; [exact Hobj|]. intros x y Hxy.
    by apply (getType_related h R HR).
  - by apply (same_shape_same_answer _ _ R).
Qed.

(** X21. [getCompactId] is the digest of the identifier: it leaves
    the state that [generateStructureId] leaves, and two values that
    correspond in shape, by a correspondence that matches the objects
    reached from them one to one, shared objects with shared objects,
    get the same compact identifier from every reachable state. *)
Theorem compact_identifier_of_one_shape R v1 v2 config g :
  shape_correspondence h R → val_rel h R v1 v2 →
  reachable xxHash32 hash h g →
  returned (getCompactId xxHash32 hash h v1 config g)
  = hash <$> returned (gen v1 config g)
  ∧ final g (getCompactId xxHash32 hash h v1 config g) = final g (gen v1 config g)
  ∧ returned (getCompactId xxHash32 hash h v1 config g)
    = returned (getCompactId xxHash32 hash h v2 config g).
Proof.
  intros HR Hv Hreach.
  pose proof (reachable_consistent _ _ _ _ Hreach) as Hg.
  pose proof (same_shape_same_answer xxHash32 h R v1 v2 config g HR Hv Hg) as Hsame.
  unfold getCompactId, bind.
  destruct (gen v1 config g) as [id1 g1|e1 g1|], (gen v2 config g) as [id2 g2|e2 g2|];
    simpl in *; try done.
  by injection Hsame as ->.
Qed.

(** X3. Only the value a call is made on gets cache entries: a call
    of [generateStructureId], whether it returns or raises, leaves the
    cached identifier, signature and bundle of every other object as
    they were, the objects nested in the value included. *)
Theorem only_the_root_is_cached obj config g b :
  obj ≠ VRef b →
  OBJECT_ID_CACHE (final g (gen obj config g)) !! b = OBJECT_ID_CACHE g !! b
  ∧ OBJECT_SIGNATURE_CACHE (final g (gen obj config g)) !! b = OBJECT_SIGNATURE_CACHE g !! b
  ∧ STRUCTURE_INFO_CACHE (final g (gen obj config g)) !! b = STRUCTURE_INFO_CACHE g !! b.
Proof.
  intros Hb. destruct (traversed h obj) eqn:Htrav.
  2:{ by rewrite generateStructureId_fixed. }
  destruct (traversed_ref h _ Htrav) as [a ->].
  pose proof (generateStructureId_outcome xxHash32 h (VRef a) config g) as Hout.
  pose proof (generateStructureId_caches xxHash32 h a config g) as Hcaches.
  destruct (gen (VRef a) config g) as [id g'|e g'|]; simpl; [| |done].
  - destruct (Hcaches id g' Htrav eq_refl) as (_ & _ & Hother).
    apply Hother. congruence.
  - destruct Hout as (_ & (_ & -> & -> & -> & _) & _). done.
Qed.

End More.

Lemma sample_arrays_correspondence : shape_correspondence sample_arrays sample_shape.
Proof.
  split.
  - by intros a b b' [-> ->] [_ ->].
  - by intros a a' b [-> ->] [-> _].
  - intros a b [-> ->]. by repeat constructor.
Qed.

Lemma arrays_of_one_shape_witness :
  returned (generateStructureId sample_hash sample_arrays (VRef 1%nat) None initial)
  = returned (generateStructureId sample_hash sample_arrays (VRef 2%nat) None initial).
Proof.
  refine (proj2 (proj2
    (arrays_of_one_shape sample_hash sample_digest sample_arrays sample_shape
       1%nat 2%nat [VNumber 1; VString "a"] [VNumber 2; VString "b"] None initial
       _ _ _ _ _))).
  - exact sample_arrays_correspondence.
  - by split.
  - reflexivity.
  - reflexivity.
  - apply reachable_initial.
Defined.

Lemma compact_identifier_of_one_shape_witness :
  returned (getCompactId sample_hash sample_mark sample_heap (VRef 1%nat) None initial)
  = returned (getCompactId sample_hash sample_mark sample_heap (VRef 2%nat) None initial).
Proof.
  refine (proj2 (proj2
    (compact_identifier_of_one_shape sample_hash sample_mark sample_heap sample_shape
       (VRef 1%nat) (VRef 2%nat) None initial _ _ _))).
  - exact sample_shape_correspondence.
  - by split.
  - apply reachable_initial.
Defined.

Lemma only_the_root_is_cached_witness :
  OBJECT_ID_CACHE
    (final initial (generateStructureId sample_hash sample_heap (VRef 4%nat) None initial))
    !! 1%nat
  = OBJECT_ID_CACHE initial !! 1%nat.
Proof.
  refine (proj1 (only_the_root_is_cached sample_hash sample_heap (VRef 4%nat) None initial
                   1%nat _)).
  discriminate.
Defined.

Lemma for_of_app {St A} (body : A → M St unit) l1 l2 s :
  for_of body (l1 ++ l2) s = (for_of body l1;; for_of body l2) s.
Proof.
  revert s. induction l1 as [|x l1 IH]; intros s; [reflexivity|].
  cbn [for_of app]. unfold bind. destruct (body x s) as [[] s'|e s'|]; [|done..].
  rewrite IH. reflexivity.
Qed.

Section Registration.
Variable xxHash32 : string → string.
Variable hash : string → string.
Variable h : heap.

Local Abbreviation gen := (generateStructureId xxHash32 h).
Local Abbreviation sound := (coherent xxHash32 h).
Local Abbreviation sigOf := (signatureOf xxHash32 h).

(** A stable-mode call leaves the counters alone. *)
Lemma getStructureSignature_counters obj g signature g' :
  getStructureSignature xxHash32 h obj g = Ok signature g' →
  STRUCTURE_HASH_COUNTER g' = STRUCTURE_HASH_COUNTER g.
Proof.
  unfold getStructureSignature.
  destruct (negb _ || _). { by intros [= _ <-]. }
  destruct obj as [| |b1|x1|s1|z1|d1|n1|a]; try by intros [= _ <-].
  rewrite (bind_Ok get _ g g g eq_refl).
  destruct (OBJECT_SIGNATURE_CACHE g !! a). { by intros [= _ <-]. }
  intros (id & g1 & Hgen & Hrest)%bind_Ok_inv.
  rewrite bind_modify in Hrest. injection Hrest as _ <-.
  pose proof (generateStructureId_outcome xxHash32 h (VRef a)
                (Some (mkConfig (Some false))) g) as Hout.
  rewrite Hgen in Hout. destruct Hout as (_ & _ & Hc & _). by apply Hc.
Qed.

(** What a registration leaves. *)
Lemma registerStructure_outcome obj count g g' :
  registerStructure xxHash32 h obj count g = Ok tt g' →
  ∃ signature,
    getStructureSignature xxHash32 h obj g' = Ok signature g'
    ∧ STRUCTURE_HASH_COUNTER g' = <[signature := count]> (STRUCTURE_HASH_COUNTER g).
Proof.
  unfold registerStructure.
  intros (signature & g1 & Hsig & [= <-])%bind_Ok_inv.
  exists signature. split.
  - destruct (negb (String.eqb (typeof obj) "object") || is_null obj) eqn:Hscalar.
    { unfold getStructureSignature in *. rewrite Hscalar in *. by injection Hsig as <- <-. }
    destruct (is_scalar_cases _ Hscalar) as [a ->].
    apply getStructureSignature_caches in Hsig.
    unfold getStructureSignature.
    cbn [typeof is_null String.eqb Ascii.eqb Bool.eqb negb orb]. cbv iota.
    rewrite (bind_Ok get _ _ _ _ eq_refl).
    cbn [OBJECT_SIGNATURE_CACHE set_STRUCTURE_HASH_COUNTER]. by rewrite Hsig.
  - cbn. by rewrite (getStructureSignature_counters obj g signature g1).
Qed.

(** X13. [registerStructures] registers in order, the last
    registration of a structure wins: after the call the Collision
    Counter holds the last count under the signature that
    [getStructureSignature] gives the last value. *)
Theorem last_registration_wins earlier obj count g g' :
  registerStructures xxHash32 h (earlier ++ [(obj, count)]) g = Ok tt g' →
  ∃ signature,
    getStructureSignature xxHash32 h obj g' = Ok signature g'
    ∧ STRUCTURE_HASH_COUNTER g' !! signature = Some count.
Proof.
  unfold registerStructures. rewrite for_of_app.
  intros ([] & g1 & _ & Hlast)%bind_Ok_inv.
  cbn [for_of fst snd] in Hlast.
  apply bind_Ok_inv in Hlast as ([] & g2 & Hreg & [= <-]).
  destruct (registerStructure_outcome obj count g1 g2 Hreg) as (signature & Hsig & Hc).
  exists signature. split; [done|]. by rewrite Hc, lookup_insert_eq.
Qed.


(** X17. After a call in disambiguating mode the bundle is computed
    afresh: from a state whose counts are from [-2^53] to [2^53 - 1], on
    which the addition of the code is that of the integers, when
    [generateStructureId] has returned [L0:count-signature], the next
    [getStructureInfo] on the value reports [count + 1] collisions, and
    in disambiguating mode the identifier [L0:(count + 1)-signature]. *)
Theorem bundle_follows_a_disambiguating_call a config config' g id g1 i g2 :
  reachable_by xxHash32 hash h nonneg_import g →
  safe_counters g →
  traversed h (VRef a) = true →
  collisionMode (default (globalConfig g) config) = true →
  gen (VRef a) config g = Ok id g1 →
  getStructureInfo xxHash32 h (VRef a) config' g1 = Ok i g2 →
  ∃ count signature,
    id = "L0:" +:+ Js.toString count +:+ "-" +:+ signature
    ∧ info_collisionCount i = count + 1
    ∧ (collisionMode (default (globalConfig g1) config') = true →
       info_id i = "L0:" +:+ Js.toString (count + 1) +:+ "-" +:+ signature).
Proof.
  intros Hreach _ Htrav Hmode Hgen Hinfo.
  pose proof (reachable_coherent _ _ _ _ Hreach) as Hg.
  pose proof (generateStructureId_coherent xxHash32 h (VRef a) config g Hg) as Hg1.
  rewrite Hgen in Hg1.
  assert (∃ signature, sigOf g (VRef a) = Some signature) as [signature Hsig].
  { rewrite generateStructureId_traversed in Hgen by done. cbv zeta in Hgen.
    rewrite Hmode in Hgen. unfold signatureOf, levels.
    destruct (traverse xxHash32 h g (VRef a)) as [[] t|e t|]; [|done..]. by eexists. }
  destruct (generateStructureId_counted xxHash32 h a config g signature Htrav Hmode Hsig)
    as (g1' & Hgen' & Hk & Hcfg & Hc & Hcached & Hfresh).
  rewrite Hgen in Hgen'. injection Hgen' as -> <-.
  destruct (getStructureInfo_outcome xxHash32 h a config' g1 i g2 Hg1 Htrav Hfresh Hinfo)
    as (signature' & Hsig' & Hcount & _ & Hid & _).
  rewrite <-(signatureOf_agree xxHash32 h g g1) in Hsig' by done.
  assert (signature' = signature) as -> by congruence.
  rewrite Hc, lookup_insert_eq in Hcount. simpl in Hcount.
  exists (default 0 (STRUCTURE_HASH_COUNTER g !! signature)), signature.
  split; [done|]. split; [done|]. intros Hmode'. rewrite Hmode' in Hid.
  by rewrite Hid, Hcount.
Qed.

End Registration.

Lemma last_registration_wins_witness :
  let g' := final initial (registerStructures sample_hash sample_heap
                             [(VRef 1%nat, 4); (VRef 2%nat, 9)] initial) in
  ∃ signature,
    getStructureSignature sample_hash sample_heap (VRef 2%nat) g' = Ok signature g'
    ∧ STRUCTURE_HASH_COUNTER g' !! signature = Some 9.
Proof.
  refine (last_registration_wins sample_hash sample_heap [(VRef 1%nat, 4)] (VRef 2%nat) 9
            initial _ _).
  by vm_compute.
Defined.

Lemma bundle_follows_a_disambiguating_call_witness :
  ∃ count signature,
    "L0:0-L1:4" = "L0:" +:+ Js.toString count +:+ "-" +:+ signature
    ∧ info_collisionCount (mkInfo "L0:1-L1:4" 2 1) = count + 1
    ∧ (collisionMode (default (globalConfig
         (final initial (generateStructureId sample_hash sample_heap (VRef 1%nat)
                           disambiguating initial))) disambiguating) = true →
       info_id (mkInfo "L0:1-L1:4" 2 1)
       = "L0:" +:+ Js.toString (count + 1) +:+ "-" +:+ signature).
Proof.
  refine (bundle_follows_a_disambiguating_call sample_hash sample_digest sample_heap
            1%nat disambiguating disambiguating initial "L0:0-L1:4" _
            (mkInfo "L0:1-L1:4" 2 1) _ _ _ _ _ _ _).
  - apply reachable_by_initial.
  - intros signature count Hcount. unfold initial in Hcount.
    cbn [STRUCTURE_HASH_COUNTER] in Hcount. by rewrite lookup_empty in Hcount.
  - reflexivity.
  - reflexivity.
  - by vm_compute.
  - by vm_compute.
Defined.

Section Flat.
Variable xxHash32 : string → string.
Variable h : heap.

(** A value that is no reference is not entered. *)
Lemma processStructure_scalar fuel v level path t :
  is_reference v = false →
  processStructure xxHash32 h (S fuel) v level path t
  = (seed level;; add level (type_bit (getType h v))) t.
Proof. by destruct v. Qed.

Lemma accumulate_Some z vs :
  accumulate h (Some z) vs = Some (z + type_bits_sum h vs).
Proof.
  revert z. induction vs as [|v vs IH]; intros z; simpl.
  - f_equal. lia.
  - rewrite IH. f_equal. simpl. lia.
Qed.

Lemma accumulate_None vs :
  vs ≠ [] → accumulate h None vs = Some (2 + type_bits_sum h vs).
Proof.
  destruct vs as [|v vs]; [done|]. intros _. simpl.
  rewrite accumulate_Some. f_equal. lia.
Qed.

Lemma type_bits_sum_nonneg vs : 0 ≤ type_bits_sum h vs.
Proof.
  induction vs as [|v vs IH]; simpl; [done|].
  pose proof (type_bit_nonneg (getType h v)). lia.
Qed.

Lemma type_bits_sum_Permutation vs1 vs2 :
  vs1 ≡ₚ vs2 → type_bits_sum h vs1 = type_bits_sum h vs2.
Proof. induction 1; simpl; lia. Qed.

Lemma child_seeded acc v :
  seeded acc → seeded (Some (default 2 acc + type_bit (getType h v))).
Proof.
  intros Hacc z [= <-]. pose proof (type_bit_nonneg (getType h v)).
  destruct acc as [z|]; simpl; [specialize (Hacc z eq_refl)|]; lia.
Qed.

Local Abbreviation nothing := (λ _ : trav, True).

Lemma getBit_level_1 acc key :
  hoare (level_1_is acc) (global (getBit xxHash32 key)) (λ _, level_1_is acc) nothing.
Proof.
  intros t Ht. unfold global. by destruct (getBit xxHash32 key (globals t)).
Qed.

Lemma add_0_level_1 acc x :
  hoare (level_1_is acc) (add 0 x) (λ _, level_1_is acc) nothing.
Proof.
  apply hoare_modify. intros t [H1 H2]. split; cbn [levelHashes set_levelHashes].
  - by rewrite lookup_alter_ne.
  - intros k Hk. rewrite lookup_alter_ne by lia. by apply H2.
Qed.

Lemma child_level_1 fuel v path acc :
  is_reference v = false → seeded acc →
  hoare (level_1_is acc) (processStructure xxHash32 h (S fuel) v 1 path)
    (λ _, level_1_is (Some (default 2 acc + type_bit (getType h v)))) nothing.
Proof.
  intros Hv Hacc t [H1 H2]. rewrite processStructure_scalar by done.
  unfold seed, add. rewrite !bind_modify. unfold modify. rewrite H1.
  destruct acc as [z|].
  - specialize (Hacc z eq_refl). destruct (Z.eqb_spec z 0) as [->|_]; [lia|].
    split; cbn [levelHashes set_levelHashes].
    + by rewrite lookup_alter_eq, H1.
    + intros k Hk. rewrite lookup_alter_ne by lia. by apply H2.
  - split; cbn [levelHashes set_levelHashes].
    + by rewrite lookup_alter_eq, lookup_insert_eq.
    + intros k Hk. rewrite lookup_alter_ne, lookup_insert_ne by lia. by apply H2.
Qed.

Lemma loop_level_1 {A} (body : nat → Z → A → M trav unit) (f : A → value) l :
  (∀ i multiplier x acc, seeded acc → x ∈ l →
     hoare (level_1_is acc) (body i multiplier x)
       (λ _, level_1_is (Some (default 2 acc + type_bit (getType h (f x))))) nothing) →
  ∀ i multiplier acc, seeded acc →
    hoare (level_1_is acc) (for_each body i multiplier l)
      (λ _, level_1_is (accumulate h acc (f <$> l))) nothing.
Proof.
  induction l as [|x l IH]; intros Hbody i multiplier acc Hacc; simpl.
  - by apply hoare_ret.
  - eapply hoare_bind; [apply Hbody; [done|by left]|]. intros [].
    apply IH; [|by apply child_seeded].
    intros ???? ? ?. apply Hbody; [done|by right].
Qed.

Lemma flat_cases a :
  flat h a = true →
  (∃ class props, h !! a = Some (HObject class props) ∧ props ≠ []
     ∧ Forall (λ v, is_reference v = false) props.*2)
  ∨ (∃ l, h !! a = Some (HArray l) ∧ l ≠ [] ∧ Forall (λ v, is_reference v = false) l).
Proof.
  unfold flat, child_values. intros [Hlen Hall]%andb_prop.
  assert (∀ l : list value,
            forallb (λ v, negb (is_reference v)) l = true →
            Forall (λ v, is_reference v = false) l) as Hrefs.
  { intros l Hl. apply Forall_forall. intros v Hv%list_elem_of_In.
    rewrite forallb_forall in Hl. specialize (Hl v Hv). by destruct (is_reference v). }
  destruct (h !! a) as [[class props|l]|]; [| |done].
  - left. exists class, props. split; [done|]. split; [|by apply Hrefs].
    intros ->. done.
  - right. exists l. split; [done|]. split; [|by apply Hrefs].
    intros ->. done.
Qed.

Lemma assoc_elem_of key (props : list (string * value)) :
  key ∈ props.*1 → ∃ v, assoc key props = Some v ∧ v ∈ props.*2.
Proof.
  induction props as [|[k v] props IH]; [by intros ?%elem_of_nil|].
  rewrite fmap_cons. simpl. intros Hkey.
  destruct (String.eqb_spec k key) as [->|Hne].
  - exists v. split; [done|]. by left.
  - apply elem_of_cons in Hkey as [->|Hkey]; [done|].
    destruct (IH Hkey) as (v' & ? & ?). exists v'. split; [done|]. by right.
Qed.

Lemma record_facts a class props :
  h !! a = Some (HObject class props) →
  getType h (VRef a) = "object" ∧ isObject h (VRef a) = true
  ∧ isArray h (VRef a) = false ∧ keys h (VRef a) = props.*1.
Proof. intros Ha. unfold getType, isObject, isArray, keys. simpl. by rewrite Ha. Qed.

Lemma array_facts a l :
  h !! a = Some (HArray l) →
  getType h (VRef a) = "array" ∧ isObject h (VRef a) = false
  ∧ isArray h (VRef a) = true ∧ elems h (VRef a) = l.
Proof. intros Ha. unfold getType, isObject, isArray, elems. simpl. by rewrite Ha. Qed.

(** The accumulator of level 1 after the traversal of a flat root. *)
Lemma root_level_1 fuel a :
  flat h a = true →
  hoare (λ t, levelHashes t = ∅ ∧ objectMap t = ∅)
    (processStructure xxHash32 h (S (S fuel)) (VRef a) 0 [])
    (λ _, level_1_is (Some (2 + type_bits_sum h (visited_values h a)))) nothing.
Proof.
  intros Hflat. remember (S fuel) as deeper eqn:Hdeeper.
  cbn [processStructure].
  eapply hoare_bind with (Q := λ _ t, level_1_is None t ∧ objectMap t = ∅).
  { apply hoare_modify. intros t [Hlh Hom]. rewrite Hlh, lookup_empty.
    split; [|done]. split; cbn [levelHashes set_levelHashes].
    - by rewrite lookup_insert_ne.
    - intros k Hk. by rewrite lookup_insert_ne by lia. }
  intros [].
  eapply hoare_bind with (Q := λ _ t, level_1_is None t ∧ objectMap t = ∅).
  { intros t [Ht Hom]. split; [|done]. by apply (add_0_level_1 None _ t). }
  intros [].
  unfold visited_values.
  destruct (flat_cases a Hflat) as [(class & props & Ha & Hne & Hrefs)|(l & Ha & Hne & Hrefs)].
  - destruct (record_facts a class props Ha) as (-> & -> & -> & ->). rewrite Ha.
    cbn [String.eqb Ascii.eqb Bool.eqb negb andb orb Nat.eqb].
    eapply hoare_bind with (Q := λ t' t, t' = t ∧ level_1_is None t ∧ objectMap t = ∅).
    { apply hoare_get. by intros t Ht. }
    intros t. destruct (objectMap t !! a) as [circularPath|] eqn:Hvisited.
    { intros t' (-> & _ & Hom). by rewrite Hom, lookup_empty in Hvisited. }
    apply hoare_conseq with
      (P' := level_1_is None)
      (Q' := λ _, level_1_is (Some (2 + type_bits_sum h (prop h (VRef a) <$> Js.sort props.*1))))
      (T' := nothing); [|by intros ? (_ & ? & _)|done..].
    eapply hoare_bind with (Q := λ _, level_1_is None); [by apply hoare_modify|]. intros [].
    eapply hoare_bind; [apply getBit_level_1|]. intros objTypeBit.
    eapply hoare_bind; [apply add_0_level_1|]. intros [].
    assert (Js.sort props.*1 ≠ []) as Hsorted.
    { apply sort_nonempty. by destruct props. }
    assert (negb ((length props.*1 =? 0)%nat || false) = true) as ->.
    { by destruct props. }
    rewrite <-accumulate_None by (by destruct (Js.sort props.*1)).
    apply loop_level_1; [|done].
    intros _ multiplier key acc Hacc Hkey.
    eapply hoare_bind; [apply getBit_level_1|]. intros keyBit.
    eapply hoare_bind; [apply add_0_level_1|]. intros [].
    eapply hoare_bind; [apply add_0_level_1|]. intros [].
    subst deeper. apply child_level_1; [|done].
    unfold Js.sort in Hkey. rewrite merge_sort_Permutation in Hkey.
    destruct (assoc_elem_of key props Hkey) as (v & Hv & Hin).
    unfold prop. rewrite Ha, Hv. simpl.
    by eapply Forall_forall in Hrefs.
  - destruct (array_facts a l Ha) as (-> & -> & -> & ->). rewrite Ha.
    cbn [String.eqb Ascii.eqb Bool.eqb negb andb orb Nat.eqb].
    eapply hoare_bind with (Q := λ t' t, t' = t ∧ level_1_is None t ∧ objectMap t = ∅).
    { apply hoare_get. by intros t Ht. }
    intros t. destruct (objectMap t !! a) as [circularPath|] eqn:Hvisited.
    { intros t' (-> & _ & Hom). by rewrite Hom, lookup_empty in Hvisited. }
    apply hoare_conseq with
      (P' := level_1_is None)
      (Q' := λ _, level_1_is (Some (2 + type_bits_sum h l)))
      (T' := nothing); [|by intros ? (_ & ? & _)|done..].
    eapply hoare_bind with (Q := λ _, level_1_is None); [by apply hoare_modify|]. intros [].
    eapply hoare_bind; [apply getBit_level_1|]. intros objTypeBit.
    eapply hoare_bind; [apply add_0_level_1|]. intros [].
    assert (negb (length l =? 0)%nat = true) as ->.
    { by destruct l. }
    eapply hoare_bind; [apply getBit_level_1|]. intros lengthBit.
    eapply hoare_bind; [apply add_0_level_1|]. intros [].
    rewrite <-accumulate_None by done.
    eapply hoare_conseq with (Q' := λ _, level_1_is (accumulate h None (id <$> l)));
      [apply loop_level_1; [|done]|done|intros _ t'; by rewrite list_fmap_id|done].
    intros i multiplier item acc Hacc Hitem.
    eapply hoare_bind; [apply getBit_level_1|]. intros indexBit.
    eapply hoare_bind; [apply add_0_level_1|]. intros [].
    eapply hoare_bind; [apply add_0_level_1|]. intros [].
    subst deeper. apply child_level_1; [|done].
    by eapply Forall_forall in Hrefs.
Qed.

Lemma assoc_fmap (props : list (string * value)) :
  NoDup props.*1 →
  (λ key, default VUndefined (assoc key props)) <$> props.*1 = props.*2.
Proof.
  induction props as [|[k v] props IH]; [done|].
  rewrite !fmap_cons. intros [Hk Hnodup]%NoDup_cons. cbn [assoc fst snd].
  rewrite String.eqb_refl. simpl. f_equal.
  rewrite <-IH by done. apply list_fmap_ext. intros i key Hkey.
  destruct (String.eqb_spec k key) as [->|Hne]; [|done].
  exfalso. apply Hk. by eapply list_elem_of_lookup_2.
Qed.

(** The traversal visits the values that the object holds, each once. *)
Lemma visited_values_Permutation a :
  NoDup (keys h (VRef a)) → visited_values h a ≡ₚ child_values h a.
Proof.
  unfold visited_values, child_values, keys, prop.
  destruct (h !! a) as [[class props|l]|]; [|done..]. intros Hnodup.
  rewrite <-(assoc_fmap props Hnodup). apply fmap_Permutation.
  unfold Js.sort. apply merge_sort_Permutation.
Qed.

Lemma flat_traversed a : flat h a = true → traversed h (VRef a) = true.
Proof.
  intros [(class & props & Ha & Hne & _)|(l & Ha & Hne & _)]%flat_cases;
    unfold traversed; rewrite Ha.
  - by destruct props.
  - by destruct l.
Qed.

(** The signature when the traversal leaves nothing above level 1. *)
Lemma structureLevels_level_1 t z :
  level_1_is (Some z) t → structureLevels (levelHashes t) = [level_label (1%nat, z)].
Proof.
  intros [H1 H2]. unfold structureLevels.
  change [level_label (1%nat, z)] with (level_label <$> [(1%nat, z)]). f_equal.
  apply Permutation_singleton_r. unfold sort_levels. rewrite merge_sort_Permutation.
  apply NoDup_Permutation.
  - apply NoDup_filter, NoDup_entries.
  - apply NoDup_singleton.
  - intros [k v]. rewrite list_elem_of_filter, elem_of_entries, list_elem_of_singleton.
    simpl. split.
    + intros [Hk Hv]. apply Nat.ltb_lt in Hk.
      destruct (decide (k = 1%nat)) as [->|Hne]; [congruence|].
      rewrite H2 in Hv by lia. done.
    + intros [= -> ->]. done.
Qed.

(** The signature that a traversal computes for a flat object. *)
Lemma flat_signatureOf a g signature :
  flat h a = true →
  signatureOf xxHash32 h g (VRef a) = Some signature →
  signature = "L1:" +:+ Js.toString (2 + type_bits_sum h (visited_values h a)).
Proof.
  intros Hflat. unfold signatureOf, levels, traverse, depth_bound.
  assert (∃ n, size h = S n) as [n ->].
  { destruct (size h) eqn:Hsize; [|by eexists].
    apply map_size_empty_iff in Hsize. apply flat_cases in Hflat.
    rewrite Hsize in Hflat. by destruct Hflat as [(?&?&?&_)|(?&?&_)]. }
  pose proof (root_level_1 n a Hflat (mkTrav g ∅ ∅) (conj eq_refl eq_refl)) as Hrun.
  destruct (processStructure _ _ _ _ _ _ _) as [[] t|e t|]; [|done..].
  simpl. intros [= <-]. by rewrite (structureLevels_level_1 t _ Hrun).
Qed.

End Flat.

(** X7. The signature of a flat object: for a record or an array that
    holds scalars only, [getStructureSignature] returns [L1:] followed by
    2 plus the sum of the type bits of the values; neither the names of
    the keys, nor their order, nor whether it is a record or an array
    enters the signature. *)
Theorem flat_signature_ignores_keys xxHash32 hash h a g :
  hash_contract xxHash32 →
  reachable_by xxHash32 hash h nonneg_import g →
  flat h a = true →
  NoDup (keys h (VRef a)) →
  returned (getStructureSignature xxHash32 h (VRef a) g)
  = Some ("L1:" +:+ Js.toString (2 + type_bits_sum h (child_values h a))).
Proof.
  intros Hhash Hreach Hflat Hnodup.
  pose proof (reachable_coherent _ _ _ _ Hreach) as Hg.
  pose proof (proj2 (operation_steady xxHash32 hash h (CallGetStructureSignature (VRef a)) g
                       eq_refl) Hhash) as Hreturns.
  cbn [completes] in Hreturns.
  destruct (getStructureSignature xxHash32 h (VRef a) g) as [signature g1|e g1|] eqn:Hrun;
    [|done..].
  destruct (getStructureSignature_outcome xxHash32 h a g signature g1 Hg
              (flat_traversed h a Hflat) Hrun) as (Hsig & _).
  apply (flat_signatureOf xxHash32 h a g signature Hflat) in Hsig. simpl.
  by rewrite Hsig, (type_bits_sum_Permutation h _ _ (visited_values_Permutation h a Hnodup)).
Qed.

Lemma flat_signature_ignores_keys_witness :
  returned (getStructureSignature sample_hash sample_heap (VRef 1%nat) registered)
  = Some ("L1:" +:+ Js.toString (2 + type_bits_sum sample_heap
                                     (child_values sample_heap 1%nat))).
Proof.
  apply (flat_signature_ignores_keys sample_hash sample_digest sample_heap 1%nat registered
           sample_hash_contract).
  - apply reachable_by_perform; [exact I|].
    apply reachable_by_perform; [exact I|]. apply reachable_by_initial.
  - reflexivity.
  - change (NoDup ["a"; "b"]). apply NoDup_cons_2; [|apply NoDup_singleton].
    by intros ?%list_elem_of_singleton.
Defined.

(** X11. Empty containers share the empty signature: for an empty
    record or array [getStructureSignature] returns the empty string, and
    [getStructureInfo] reports the count registered under it, with the
    identifier [L0:count-] of two levels in disambiguating mode and the
    literal of one level in stable mode. *)
Theorem empty_containers_share_a_signature xxHash32 hash h a config g :
  reachable_by xxHash32 hash h nonneg_import g →
  traversed h (VRef a) = false →
  STRUCTURE_INFO_CACHE g !! a = None →
  let count := default 0 (STRUCTURE_HASH_COUNTER g !! EmptyString) in
  returned (getStructureSignature xxHash32 h (VRef a) g) = Some EmptyString
  ∧ returned (getStructureInfo xxHash32 h (VRef a) config g)
    = Some (if collisionMode (default (globalConfig g) config)
            then mkInfo ("L0:" +:+ Js.toString count +:+ "-")
                   (calculateIdLevels ("L0:" +:+ Js.toString count +:+ "-")) count
            else mkInfo (fixed_id h (VRef a)) 1 count)
  ∧ (0 ≤ count → calculateIdLevels ("L0:" +:+ Js.toString count +:+ "-") = 2%nat).
Proof.
  intros Hreach Htrav Hinfo count.
  destruct (reachable_coherent _ _ _ _ Hreach) as (_ & _ & Hs & Ht).
  assert (fixed_id h (VRef a) = "{}" ∨ fixed_id h (VRef a) = "[]") as Hfixed.
  { unfold fixed_id. destruct (h !! a) as [[]|]; auto. }
  assert (strip_L0 (fixed_id h (VRef a)) = EmptyString) as Hstrip.
  { by destruct Hfixed as [-> | ->]. }
  assert (calculateIdLevels (fixed_id h (VRef a)) = 1%nat) as Hlevels.
  { by destruct Hfixed as [-> | ->]. }
  assert (OBJECT_ID_CACHE g !! a = None) as Hid.
  { destruct (OBJECT_ID_CACHE g !! a) as [id|] eqn:Hid; [|done].
    apply Ht in Hid. congruence. }
  split; [|split].
  - unfold getStructureSignature.
    cbn [typeof is_null String.eqb Ascii.eqb Bool.eqb negb orb]. cbv iota.
    rewrite (bind_Ok get _ g g g eq_refl).
    destruct (OBJECT_SIGNATURE_CACHE g !! a) as [cached|] eqn:Hcached.
    + specialize (Hs a cached Hcached). rewrite Htrav in Hs. by subst.
    + rewrite (bind_Ok _ _ _ _ _ (generateStructureId_fixed xxHash32 h _ _ g Htrav)).
      rewrite bind_modify. cbv zeta. unfold ret, returned. by rewrite Hstrip.
  - unfold getStructureInfo. rewrite (bind_Ok get _ g g g eq_refl).
    cbn [typeof is_null String.eqb Ascii.eqb Bool.eqb negb orb]. cbv iota.
    rewrite Hinfo.
    assert ((match OBJECT_SIGNATURE_CACHE g !! a with
             | Some cached => ret cached
             | None => let* id := generateStructureId xxHash32 h (VRef a)
                                     (Some (mkConfig (Some false))) in
                       ret (strip_L0 id)
             end) g = Ok EmptyString g) as Hsig.
    { destruct (OBJECT_SIGNATURE_CACHE g !! a) as [cached|] eqn:Hcached.
      - specialize (Hs a cached Hcached). rewrite Htrav in Hs. by subst.
      - rewrite (bind_Ok _ _ _ _ _ (generateStructureId_fixed xxHash32 h _ _ g Htrav)).
        unfold ret. by rewrite Hstrip. }
    rewrite (bind_Ok _ _ _ _ _ Hsig), (bind_Ok get _ g g g eq_refl).
    fold count.
    destruct (collisionMode (default (globalConfig g) config)).
    + reflexivity.
    + rewrite Hid.
      rewrite (bind_Ok _ _ _ _ _ (generateStructureId_fixed xxHash32 h _ _ g Htrav)).
      rewrite bind_modify. cbv zeta. unfold ret, returned. by rewrite Hlevels.
  - intros Hcount.
    change ("L0:" +:+ Js.toString count +:+ "-")
      with (("L0:" +:+ Js.toString count) +:+ "-" +:+ EmptyString).
    rewrite calculateIdLevels_app; [done|].
    rewrite no_dash_app, toString_no_dash by done. done.
Qed.

Lemma empty_containers_share_a_signature_witness :
  returned (getStructureSignature sample_hash sample_heap (VRef 5%nat) initial)
  = Some EmptyString.
Proof.
  refine (proj1 (empty_containers_share_a_signature sample_hash sample_digest sample_heap
                   5%nat None initial _ _ _)).
  - apply reachable_by_initial.
  - reflexivity.
  - reflexivity.
Defined.

Lemma ensures_and {St A} (P1 P2 Q1 Q2 : St → Prop) (m : M St A) :
  ensures P1 m Q1 → ensures P2 m Q2 → ensures (λ s, P1 s ∧ P2 s) m (λ s, Q1 s ∧ Q2 s).
Proof. intros H1 H2 s a s' [??] Hrun. split; [by eapply H1|by eapply H2]. Qed.

Lemma ensures_post {St A} (P Q Q' : St → Prop) (m : M St A) :
  (∀ s, Q' s → Q s) → ensures P m Q' → ensures P m Q.
Proof. intros HQ Hm s a s' Hs Hrun. apply HQ. by eapply Hm. Qed.

Section Consecutive.
Variable xxHash32 : string → string.
Variable h : heap.

Local Abbreviation closed := (λ t : trav, closed_levels (levelHashes t)).
Local Abbreviation entered := (λ (level : nat) (t : trav),
  closed_levels (levelHashes t) ∧ has_level level t).

Lemma seed_closed level :
  ensures (λ t, closed t ∧ (level = 0%nat ∨ has_level (level - 1) t))
    (seed level) (entered level).
Proof.
  apply ensures_modify. intros t [Hclosed Hbelow].
  assert (entered level
            (set_levelHashes (<[level := Z.shiftl 1 (Z.of_nat level)]> (levelHashes t)) t))
    as Hseeded.
  { unfold has_level, closed_levels. cbn [levelHashes set_levelHashes].
    rewrite dom_insert_L. split; [|apply elem_of_union_l, elem_of_singleton; done].
    intros k [Hk|Hk]%elem_of_union; apply elem_of_union; right.
    - apply elem_of_singleton in Hk. subst level. destruct Hbelow as [[=]|Hbelow].
      by replace (S k - 1)%nat with k in Hbelow by lia.
    - by apply Hclosed. }
  destruct (levelHashes t !! level) as [z|] eqn:Hz; [destruct (z =? 0)|]; try done.
  split; [done|]. by apply elem_of_dom.
Qed.

Lemma add_closed level x k : ensures (entered k) (add level x) (entered k).
Proof.
  apply ensures_modify. intros t [Hclosed Hk].
  unfold has_level, closed_levels in *. cbn [levelHashes set_levelHashes].
  by rewrite dom_alter_L.
Qed.

Lemma getBit_closed key k :
  ensures (entered k) (global (getBit xxHash32 key)) (entered k).
Proof.
  intros t bit t' Hk. unfold global.
  destruct (getBit xxHash32 key (globals t)); [|done..]. by intros [= _ <-].
Qed.

(** The traversal leaves no gap between the levels. *)
Lemma processStructure_closed fuel :
  ∀ value level path,
    ensures (λ t, closed t ∧ (level = 0%nat ∨ has_level (level - 1) t))
      (processStructure xxHash32 h fuel value level path) (entered level).
Proof.
  induction fuel as [|fuel IH]; intros value level path; simpl.
  { by intros t ? t' _ ?. }
  eapply ensures_bind; [apply seed_closed|]. intros [].
  eapply ensures_bind; [apply add_closed|]. intros [].
  destruct (negb _ && negb _). { apply ensures_ret. }
  destruct (isObject h value || isArray h value); [|apply ensures_ret].
  destruct value as [| |b1|x1|s1|z1|d1|n1|a]; try apply ensures_ret.
  eapply ensures_bind with (Q := entered level).
  { intros t ? t' Hk [= _ <-]. done. }
  intros t. destruct (objectMap t !! a) as [circularPath|].
  { eapply ensures_bind; [apply getBit_closed|]. intros bit. apply add_closed. }
  eapply ensures_bind with (Q := entered level);
    [apply ensures_modify; intros ? Hk; exact Hk|]. intros [].
  eapply ensures_bind; [apply getBit_closed|]. intros bit.
  eapply ensures_bind; [apply add_closed|]. intros [].
  assert (∀ child path',
            ensures (entered level)
              (processStructure xxHash32 h fuel child (level + 1) path')
              (entered level)) as Hchild.
  { intros child path'.
    eapply ensures_post; [|eapply ensures_pre; [|apply ensures_and;
      [apply IH|apply (processStructure_has_level xxHash32 h fuel level)]]].
    - intros t' [[Hclosed _] Hlevel]. by split.
    - intros t' [Hclosed Hlevel]. split; [split; [done|]|by left].
      right. by replace (level + 1 - 1)%nat with level by lia. }
  destruct (negb (Nat.eqb level 0) || _); [|apply ensures_ret].
  destruct (String.eqb (getType h (VRef a)) "object").
  - apply ensures_for_each. intros _ multiplier key.
    eapply ensures_bind; [apply getBit_closed|]. intros ?.
    eapply ensures_bind; [apply add_closed|]. intros [].
    eapply ensures_bind; [apply add_closed|]. intros [].
    apply Hchild.
  - destruct (String.eqb (getType h (VRef a)) "array"); [|apply ensures_ret].
    eapply ensures_bind; [apply getBit_closed|]. intros ?.
    eapply ensures_bind; [apply add_closed|]. intros [].
    apply ensures_for_each. intros i multiplier item.
    eapply ensures_bind; [apply getBit_closed|]. intros ?.
    eapply ensures_bind; [apply add_closed|]. intros [].
    eapply ensures_bind; [apply add_closed|]. intros [].
    apply Hchild.
Qed.

Lemma traverse_closed g obj t u :
  traverse xxHash32 h g obj = Ok u t → closed_levels (levelHashes t).
Proof.
  intros Hrun. unfold traverse in Hrun.
  eapply (processStructure_closed _ _ _ _ (mkTrav g ∅ ∅)) in Hrun; [by destruct Hrun|].
  split; [|by left]. intros k. cbn [levelHashes]. by rewrite dom_empty_L.
Qed.

End Consecutive.

(** *** Maps without a gap *)

Section Gapless.

Lemma closed_levels_below lh level k :
  closed_levels lh → level ∈ dom lh → (k ≤ level)%nat → k ∈ dom lh.
Proof.
  intros Hclosed Hlevel Hk. induction Hk as [|level Hk IH]; [done|].
  apply IH. by apply Hclosed.
Qed.

Lemma closed_levels_dom lh : closed_levels lh → dom lh = set_seq 0 (size lh).
Proof.
  intros Hclosed.
  assert (dom lh ⊆ set_seq (C := gset nat) 0 (size lh)) as Hsub.
  { intros level Hlevel. apply elem_of_set_seq. split; [lia|]. simpl.
    assert (set_seq (C := gset nat) 0 (S level) ⊆ dom lh) as Hbelow.
    { intros k [_ Hk]%elem_of_set_seq. apply (closed_levels_below lh level); [done..|lia]. }
    apply subseteq_size in Hbelow. rewrite size_set_seq, size_dom in Hbelow. lia. }
  apply set_subseteq_size_eq; [done|]. by rewrite size_set_seq, size_dom.
Qed.

Lemma zip_seq_fmap {A} (f : nat → A) (l : list nat) :
  zip l (f <$> l) = (λ k, (k, f k)) <$> l.
Proof.
  induction l as [|k l IH]; [done|]. rewrite !fmap_cons. cbn [zip_with].
  f_equal. exact IH.
Qed.

Lemma sorted_seq (f : nat → Z) start n :
  StronglySorted key_le ((λ k, (k, f k)) <$> seq start n).
Proof.
  revert start. induction n as [|n IH]; intros start; simpl; constructor; [apply IH|].
  apply Forall_fmap, Forall_forall. intros k [Hk _]%elem_of_seq.
  unfold key_le. simpl. lia.
Qed.

(** The parts of an identifier whose levels have no gap. *)
Lemma idParts_closed lh : closed_levels lh → idParts lh = labels (accumulators lh).
Proof.
  intros Hclosed. unfold idParts, labels, accumulators.
  rewrite length_fmap, length_seq, zip_seq_fmap. f_equal.
  pose proof (closed_levels_dom lh Hclosed) as Hdom.
  assert (∀ k v, lh !! k = Some v ↔ (k < size lh)%nat ∧ v = default 0 (lh !! k)) as Hentry.
  { intros k v. split.
    - intros Hk. split; [|by rewrite Hk].
      assert (k ∈ dom lh) as Hin by (by apply elem_of_dom).
      rewrite Hdom in Hin. apply elem_of_set_seq in Hin. lia.
    - intros [Hk ->].
      assert (k ∈ dom lh) as [v Hv]%elem_of_dom.
      { rewrite Hdom. apply elem_of_set_seq. lia. }
      by rewrite Hv. }
  apply (StronglySorted_unique_strong key_le).
  - intros [k1 v1] [k2 v2] H1 H2 Hle1 Hle2. unfold key_le in *. simpl in *.
    assert (k1 = k2) as <- by lia. f_equal.
    apply elem_of_sort_levels, elem_of_entries in H1. simpl in H1.
    apply Hentry in H1 as [_ ->].
    apply list_elem_of_fmap in H2 as (k & [= -> ->] & _). done.
  - apply StronglySorted_merge_sort; apply _.
  - apply sorted_seq.
  - apply NoDup_Permutation.
    + unfold sort_levels. rewrite merge_sort_Permutation. apply NoDup_entries.
    + apply NoDup_fmap_2; [|apply NoDup_seq]. by intros k1 k2 [= ->].
    + intros [k v]. rewrite elem_of_sort_levels, elem_of_entries, Hentry. simpl.
      rewrite list_elem_of_fmap. split.
      * intros [Hk ->]. exists k. split; [done|]. apply elem_of_seq. lia.
      * intros (k' & [= -> ->] & Hk'%elem_of_seq). split; [lia|done].
Qed.

Lemma calculateIdLevels_join parts :
  parts ≠ [] → Forall (λ part, no_dash part = true) parts →
  calculateIdLevels (Js.join "-" parts) = length parts.
Proof.
  induction parts as [|x parts IH]; [done|]. intros _ [Hx Hparts]%Forall_cons.
  destruct parts as [|y parts].
  - unfold calculateIdLevels. by rewrite split_no_dash.
  - rewrite join_cons by done. rewrite calculateIdLevels_app by done.
    by rewrite IH.
Qed.

Lemma labels_length vs : length (labels vs) = length vs.
Proof.
  unfold labels. rewrite length_fmap, length_zip, length_seq. lia.
Qed.

Lemma labels_no_dash vs :
  Forall (λ v, 0 ≤ v) vs → Forall (λ part, no_dash part = true) (labels vs).
Proof.
  intros Hvs. unfold labels. apply Forall_fmap, Forall_forall.
  intros [k v] Hin%elem_of_zip_r. apply level_label_no_dash.
  by eapply Forall_forall in Hvs.
Qed.

End Gapless.

(** X6. The levels of an identifier are consecutive: a stable
    identifier of a traversed value is the labels [L0:v0], [L1:v1], ...,
    without a gap, joined by dashes, of at least two accumulators none of
    which is negative, and [calculateIdLevels] returns their number. *)
Theorem identifier_levels_are_consecutive xxHash32 hash h a config g id g' :
  reachable_by xxHash32 hash h nonneg_import g →
  traversed h (VRef a) = true →
  collisionMode (default (globalConfig g) config) = false →
  generateStructureId xxHash32 h (VRef a) config g = Ok id g' →
  ∃ vs,
    (2 ≤ length vs)%nat
    ∧ Forall (λ v, 0 ≤ v) vs
    ∧ id = Js.join "-" (labels vs)
    ∧ calculateIdLevels id = length vs.
Proof.
  intros Hreach Htrav Hmode Hrun.
  destruct (reachable_coherent _ _ _ _ Hreach) as (Hn & Hc & _).
  pose proof (returned_stable xxHash32 h a config g Htrav Hmode Hc) as Hid.
  rewrite Hrun in Hid. simpl in Hid. unfold stableIdOf, levels in Hid.
  pose proof (traverse_nonneg xxHash32 h g (VRef a) Hn) as Hnonneg.
  pose proof (traverse_closed xxHash32 h g (VRef a)) as Hclosed.
  pose proof (traverse_has_level_1 xxHash32 h g a) as Hlevel1.
  destruct (traverse xxHash32 h g (VRef a)) as [[] t|e t|]; [|done..].
  simpl in Hid. injection Hid as Hid.
  specialize (Hclosed t tt eq_refl). specialize (Hlevel1 t tt Htrav eq_refl).
  destruct Hnonneg as [_ Hlh].
  set (lh := levelHashes t) in *.
  assert (2 ≤ size lh)%nat as Hsize.
  { unfold has_level in Hlevel1. fold lh in Hlevel1.
    rewrite (closed_levels_dom lh Hclosed) in Hlevel1.
    apply elem_of_set_seq in Hlevel1. lia. }
  assert (length (accumulators lh) = size lh) as Hlength.
  { unfold accumulators. by rewrite length_fmap, length_seq. }
  assert (Forall (λ v, 0 ≤ v) (accumulators lh)) as Hvs.
  { unfold accumulators. apply Forall_fmap, Forall_forall. intros k _. simpl.
    destruct (lh !! k) as [v|] eqn:Hv; simpl; [by eapply Hlh|done]. }
  exists (accumulators lh). rewrite Hlength. split; [done|]. split; [done|].
  rewrite <-idParts_closed by done. split; [done|].
  rewrite Hid, idParts_closed by done.
  rewrite calculateIdLevels_join.
  - by rewrite labels_length.
  - intros Hnil. apply (f_equal length) in Hnil. rewrite labels_length, Hlength in Hnil.
    simpl in Hnil. lia.
  - by apply labels_no_dash.
Qed.

Lemma identifier_levels_are_consecutive_witness :
  ∃ vs,
    (2 ≤ length vs)%nat
    ∧ Forall (λ v, 0 ≤ v) vs
    ∧ "L0:24758992377-L1:5883412471-L2:6" = Js.join "-" (labels vs)
    ∧ calculateIdLevels "L0:24758992377-L1:5883412471-L2:6" = length vs.
Proof.
  refine (identifier_levels_are_consecutive sample_hash sample_digest sample_heap
            4%nat None initial "L0:24758992377-L1:5883412471-L2:6" _ _ _ _ _).
  - apply reachable_by_initial.
  - reflexivity.
  - reflexivity.
  - by vm_compute.
Defined.

Lemma toString_negative z :
  z < 0 → ∃ digits, Js.toString z = "-" +:+ digits ∧ no_dash digits = true.
Proof.
  intros Hz. destruct z as [|p|p]; [lia..|].
  exists (pretty (N.pos p)). split; [done|].
  apply decimal_no_dash, pretty_N_decimal.
Qed.

(** X8. [calculateIdLevels] counts separators: on an identifier of
    disambiguating mode it returns one more than the levels of the
    signature when the count is no negative number, and two more when it
    is negative, the sign being taken for a separator. *)
Theorem calculateIdLevels_counts_separators count signature :
  calculateIdLevels ("L0:" +:+ Js.toString count +:+ "-" +:+ signature)
  = ((if (0 <=? count)%Z then 1 else 2) + calculateIdLevels signature)%nat.
Proof.
  destruct (Z.leb_spec 0 count) as [Hcount|Hcount].
  - change ("L0:" +:+ Js.toString count +:+ "-" +:+ signature)
      with (("L0:" +:+ Js.toString count) +:+ "-" +:+ signature).
    rewrite calculateIdLevels_app; [done|].
    rewrite no_dash_app, toString_no_dash by done. done.
  - destruct (toString_negative count Hcount) as (digits & -> & Hdigits).
    change ("L0:" +:+ ("-" +:+ digits) +:+ "-" +:+ signature)
      with ("L0:" +:+ "-" +:+ digits +:+ "-" +:+ signature).
    rewrite calculateIdLevels_app by done.
    by rewrite calculateIdLevels_app.
Qed.

(** X20. A snapshot survives its import: after
    [importStructureState] of what [exportStructureState] returned, from
    every state, a second export returns the same snapshot, and a second
    import of it changes nothing. *)
Theorem snapshot_survives_import g :
  ∃ snapshot g',
    exportStructureState g = Ok snapshot g
    ∧ importStructureState snapshot g = Ok tt g'
    ∧ exportStructureState g' = Ok snapshot g'
    ∧ importStructureState snapshot g' = Ok tt g'.
Proof.
  destruct (import_of_export g g) as (snapshot & Hexport & Himport).
  eexists _, _. split; [exact Hexport|]. split; [exact Himport|].
  rewrite exportStructureState_run in Hexport. injection Hexport as <-.
  split.
  - rewrite exportStructureState_run. cbn [GLOBAL_KEY_MAP STRUCTURE_HASH_COUNTER].
    by rewrite !delete_delete_eq.
  - destruct (import_of_export g (mkState (delete "__proto__" (GLOBAL_KEY_MAP g))
                (delete "__proto__" (STRUCTURE_HASH_COUNTER g)) ∅ ∅ ∅ (globalConfig g)))
      as (snapshot' & Hexport' & Himport').
    rewrite exportStructureState_run in Hexport'. injection Hexport' as <-.
    exact Himport'.
Qed.

(** X23. A reset restarts the numbering: after [resetState], from
    every state, the first call of [generateStructureId] in
    disambiguating mode on a traversed value returns the count 0 in front
    of its signature and the second the count 1, whatever was counted or
    registered before. *)
Theorem reset_restarts_the_numbering xxHash32 h a config g :
  hash_contract xxHash32 →
  traversed h (VRef a) = true →
  collisionMode (default (globalConfig g) config) = true →
  ∃ signature g1 g2,
    generateStructureId xxHash32 h (VRef a) config (final g (resetState g))
    = Ok ("L0:0-" +:+ signature) g1
    ∧ generateStructureId xxHash32 h (VRef a) config g1
      = Ok ("L0:1-" +:+ signature) g2.
Proof.
  intros Hhash Htrav Hmode.
  set (g0 := final g (resetState g)).
  assert (∃ signature, signatureOf xxHash32 h g0 (VRef a) = Some signature)
    as [signature Hsig].
  { unfold signatureOf, levels.
    pose proof (traverse_during xxHash32 h g0 (VRef a)) as Hrun.
    destruct (traverse xxHash32 h g0 (VRef a)) as [[] t|e t|]; [by eexists| |done].
    by destruct Hrun as (_ & _ & ?). }
  destruct (generateStructureId_counted xxHash32 h a config g0 signature Htrav Hmode Hsig)
    as (g1 & Hgen1 & Hk1 & Hcfg1 & Hc1 & _).
  destruct (generateStructureId_counted xxHash32 h a config g1 signature Htrav)
    as (g2 & Hgen2 & _); [by rewrite Hcfg1| |].
  { by rewrite <-(signatureOf_agree xxHash32 h g0). }
  rewrite Hc1, lookup_insert_eq in Hgen2.
  exists signature, g1, g2. split; [exact Hgen1|exact Hgen2].
Qed.

Lemma reset_restarts_the_numbering_witness :
  ∃ signature g1 g2,
    generateStructureId sample_hash sample_heap (VRef 1%nat) disambiguating
      (final registered (resetState registered))
    = Ok ("L0:0-" +:+ signature) g1
    ∧ generateStructureId sample_hash sample_heap (VRef 1%nat) disambiguating g1
      = Ok ("L0:1-" +:+ signature) g2.
Proof.
  refine (reset_restarts_the_numbering sample_hash sample_heap 1%nat disambiguating
            registered sample_hash_contract _ _).
  - reflexivity.
  - reflexivity.
Defined.

(** X24. Disambiguating mode neither reads nor writes the identifier
    cache: a call of [generateStructureId] in that mode leaves
    [OBJECT_ID_CACHE] as it was, and returns what it returns whatever
    the cache holds. *)
Theorem disambiguating_mode_bypasses_the_identifier_cache xxHash32 h obj config g :
  collisionMode (default (globalConfig g) config) = true →
  OBJECT_ID_CACHE (final g (generateStructureId xxHash32 h obj config g))
  = OBJECT_ID_CACHE g
  ∧ ∀ cache,
      returned (generateStructureId xxHash32 h obj config (set_OBJECT_ID_CACHE cache g))
      = returned (generateStructureId xxHash32 h obj config g).
Proof.
  intros Hmode. destruct (traversed h obj) eqn:Htrav.
  2:{ split; [by rewrite generateStructureId_fixed|].
      intros cache. by rewrite !generateStructureId_fixed. }
  destruct (traversed_ref h _ Htrav) as [a ->]. split.
  - rewrite generateStructureId_traversed by done. cbv zeta. rewrite Hmode.
    pose proof (traverse_during xxHash32 h g (VRef a)) as Hrun.
    destruct (traverse xxHash32 h g (VRef a)) as [[] t|e t|]; cbn; [| |done].
    + destruct Hrun as (_ & _ & Hid & _). by rewrite Hid.
    + destruct Hrun as (_ & (_ & Hid & _) & _). by rewrite Hid.
  - intros cache. rewrite !returned_counted by done.
    by rewrite (levels_agree xxHash32 h (set_OBJECT_ID_CACHE cache g) g)
      by apply keys_agree_refl.
Qed.

Lemma disambiguating_mode_bypasses_the_identifier_cache_witness :
  OBJECT_ID_CACHE
    (final after_one_call
       (generateStructureId sample_hash sample_heap (VRef 1%nat) disambiguating
          after_one_call))
  = OBJECT_ID_CACHE after_one_call.
Proof.
  refine (proj1 (disambiguating_mode_bypasses_the_identifier_cache sample_hash sample_heap
                   (VRef 1%nat) disambiguating after_one_call _)).
  reflexivity.
Defined.

(** X25. Scalars ignore registrations: for a value that is no
    object, [getStructureInfo] returns the fixed identifier, two levels
    and the count 0; [registerStructure] stores the count under
    ["type:" + typeof obj], and neither the bundle nor the identifier
    changes afterwards. *)
Theorem scalars_ignore_registration xxHash32 h obj config count g :
  is_reference obj = false →
  getStructureInfo xxHash32 h obj config g = Ok (mkInfo (fixed_id h obj) 2 0) g
  ∧ ∃ signature g1,
      registerStructure xxHash32 h obj count g = Ok tt g1
      ∧ STRUCTURE_HASH_COUNTER g1 !! signature = Some count
      ∧ signature = "type:" +:+ typeof obj
      ∧ getStructureInfo xxHash32 h obj config g1 = Ok (mkInfo (fixed_id h obj) 2 0) g1
      ∧ generateStructureId xxHash32 h obj config g1 = Ok (fixed_id h obj) g1.
Proof.
  intros Hobj.
  assert (∀ g', getStructureInfo xxHash32 h obj config g'
                = Ok (mkInfo (fixed_id h obj) 2 0) g') as Hinfo.
  { intros g'. destruct obj; try done. }
  split; [apply Hinfo|].
  exists ("type:" +:+ typeof obj). eexists.
  split; [by destruct obj|]. split; [by destruct obj; cbn; rewrite lookup_insert_eq|].
  split; [done|]. split; [apply Hinfo|].
  apply generateStructureId_fixed. by destruct obj.
Qed.

Lemma scalars_ignore_registration_witness :
  getStructureInfo sample_hash sample_heap (VNumber 42) disambiguating initial
  = Ok (mkInfo (fixed_id sample_heap (VNumber 42)) 2 0) initial.
Proof.
  refine (proj1 (scalars_ignore_registration sample_hash sample_heap (VNumber 42)
                   disambiguating 5 initial _)).
  reflexivity.
Defined.

Section FlatLevel0.
Variable xxHash32 : string → string.
Variable h : heap.
Variable g0 : state.

Local Abbreviation nothing := (λ _ : trav, True).
Local Abbreviation root_is := (level_0_is xxHash32 g0).

Lemma getBit_level_0 z key :
  hoare (root_is z) (global (getBit xxHash32 key))
    (λ bit t, bit = keyBit xxHash32 g0 key ∧ root_is z t) nothing.
Proof.
  intros t [Hz Hk]. unfold global.
  pose proof (getBit_bitOf xxHash32 key (globals t)) as Hbit.
  destruct (getBit xxHash32 key (globals t)) as [bit g|e g|]; [|done..].
  destruct Hbit as (Hbit & Hk' & _). split.
  - unfold keyBit. by rewrite (Hk key), Hbit.
  - split; [done|]. by eapply keys_agree_trans.
Qed.

Lemma add_level_0 z x :
  hoare (root_is z) (add 0 x) (λ _, root_is (z + x)) nothing.
Proof.
  apply hoare_modify. intros t [Hz Hk]. split; [|done].
  cbn [levelHashes set_levelHashes]. by rewrite lookup_alter_eq, Hz.
Qed.

Lemma child_level_0 fuel v path z :
  is_reference v = false →
  hoare (root_is z) (processStructure xxHash32 h (S fuel) v 1 path)
    (λ _, root_is z) nothing.
Proof.
  intros Hv t [Hz Hk]. rewrite processStructure_scalar by done.
  unfold seed, add. rewrite !bind_modify. unfold modify. split; [|
    by destruct (levelHashes t !! 1%nat) as [z1|]; [destruct (z1 =? 0)|]].
  destruct (levelHashes t !! 1%nat) as [z1|]; [destruct (z1 =? 0)|];
    cbn [levelHashes set_levelHashes];
    by rewrite lookup_alter_ne, ?lookup_insert_ne by done.
Qed.

Lemma loop_level_0 {A} (body : nat → Z → A → M trav unit) (term : nat → A → Z) l :
  (∀ i multiplier x z, x ∈ l →
     hoare (root_is z) (body i multiplier x)
       (λ _, root_is (z + term i x * multiplier)) nothing) →
  ∀ i multiplier z,
    hoare (root_is z) (for_each body i multiplier l)
      (λ _, root_is (z + weighted term i multiplier l)) nothing.
Proof.
  induction l as [|x l IH]; intros Hbody i multiplier z; simpl.
  - apply hoare_ret. intros t Ht. by rewrite Z.add_0_r.
  - eapply hoare_bind; [apply Hbody; by left|]. intros [].
    eapply hoare_conseq; [apply IH| | |]; [|done| |done].
    + intros ???? ?. apply Hbody. by right.
    + intros u t Ht. by rewrite Z.add_assoc.
Qed.

(** The accumulator of level 0 after the traversal of a flat root. *)
Lemma root_level_0 fuel a :
  flat h a = true →
  hoare (λ t, levelHashes t = ∅ ∧ objectMap t = ∅ ∧ globals t = g0)
    (processStructure xxHash32 h (S (S fuel)) (VRef a) 0 [])
    (λ _, root_is (flat_level_0 xxHash32 h g0 a)) nothing.
Proof.
  intros Hflat. remember (S fuel) as deeper eqn:Hdeeper.
  cbn [processStructure].
  eapply hoare_bind with (Q := λ _ t, root_is 1 t ∧ objectMap t = ∅).
  { apply hoare_modify. intros t (Hlh & Hom & Hg). rewrite Hlh, lookup_empty.
    split; [|done]. split; cbn [levelHashes set_levelHashes globals].
    - by rewrite lookup_insert_eq.
    - rewrite Hg. apply keys_agree_refl. }
  intros [].
  unfold flat_level_0.
  destruct (flat_cases h a Hflat) as [(class & props & Ha & Hne & Hrefs)|(l & Ha & Hne & Hrefs)].
  - destruct (record_facts h a class props Ha) as (-> & -> & -> & ->). rewrite Ha.
    cbn [String.eqb Ascii.eqb Bool.eqb negb andb orb Nat.eqb].
    eapply hoare_bind with (Q := λ _ t, root_is (1 + 128) t ∧ objectMap t = ∅).
    { intros t [Ht Hom]. split; [|done]. by apply (add_level_0 1 _ t). }
    intros [].
    eapply hoare_bind with (Q := λ t' t, t' = t ∧ root_is (1 + 128) t ∧ objectMap t = ∅).
    { apply hoare_get. by intros t Ht. }
    intros t. destruct (objectMap t !! a) as [circularPath|] eqn:Hvisited.
    { intros t' (-> & _ & Hom). by rewrite Hom, lookup_empty in Hvisited. }
    apply hoare_conseq with
      (P' := root_is (1 + 128))
      (Q' := λ _, root_is (1 + 128 + keyBit xxHash32 g0 "type:object"
               + weighted (λ _ key, keyBit xxHash32 g0 key
                                    + type_bit (getType h (prop h (VRef a) key)))
                   0 1 (Js.sort props.*1)))
      (T' := nothing); [|by intros ? (_ & ? & _)|done..].
    eapply hoare_bind with (Q := λ _, root_is (1 + 128)); [by apply hoare_modify|]. intros [].
    eapply hoare_bind; [apply getBit_level_0|]. intros objTypeBit.
    eapply hoare_bind with (Q := λ _, root_is (1 + 128 + keyBit xxHash32 g0 "type:object")).
    { intros t' [-> Ht']. by apply (add_level_0 _ _ t'). }
    intros [].
    assert (negb ((length props.*1 =? 0)%nat || false) = true) as ->.
    { by destruct props. }
    apply loop_level_0.
    intros _ multiplier key z Hkey.
    eapply hoare_bind; [apply getBit_level_0|]. intros bit.
    eapply hoare_bind with
      (Q := λ _, root_is (z + keyBit xxHash32 g0 key * multiplier)).
    { intros t' [-> Ht']. by apply (add_level_0 _ _ t'). }
    intros [].
    eapply hoare_bind; [apply add_level_0|]. intros [].
    subst deeper.
    eapply hoare_conseq; [apply child_level_0| | |]; [|done| |done].
    + unfold Js.sort in Hkey. rewrite merge_sort_Permutation in Hkey.
      destruct (assoc_elem_of key props Hkey) as (v & Hv & Hin).
      unfold prop. rewrite Ha, Hv. simpl.
      by eapply Forall_forall in Hrefs.
    + intros u t' Ht'.
      by replace ((keyBit xxHash32 g0 key
                   + type_bit (getType h (prop h (VRef a) key))) * multiplier)
        with (keyBit xxHash32 g0 key * multiplier
              + type_bit (getType h (prop h (VRef a) key)) * multiplier) by ring;
        rewrite Z.add_assoc.
  - destruct (array_facts h a l Ha) as (-> & -> & -> & ->). rewrite Ha.
    cbn [String.eqb Ascii.eqb Bool.eqb negb andb orb Nat.eqb].
    eapply hoare_bind with (Q := λ _ t, root_is (1 + 256) t ∧ objectMap t = ∅).
    { intros t [Ht Hom]. split; [|done]. by apply (add_level_0 1 _ t). }
    intros [].
    eapply hoare_bind with (Q := λ t' t, t' = t ∧ root_is (1 + 256) t ∧ objectMap t = ∅).
    { apply hoare_get. by intros t Ht. }
    intros t. destruct (objectMap t !! a) as [circularPath|] eqn:Hvisited.
    { intros t' (-> & _ & Hom). by rewrite Hom, lookup_empty in Hvisited. }
    apply hoare_conseq with
      (P' := root_is (1 + 256))
      (Q' := λ _, root_is (1 + 256 + keyBit xxHash32 g0 "type:array"
               + keyBit xxHash32 g0 ("length:" +:+ Js.natToString (length l))
               + weighted (λ i item, keyBit xxHash32 g0 ("[" +:+ Js.natToString i +:+ "]")
                                     + type_bit (getType h item))
                   0 1 l))
      (T' := nothing); [|by intros ? (_ & ? & _)|done..].
    eapply hoare_bind with (Q := λ _, root_is (1 + 256)); [by apply hoare_modify|]. intros [].
    eapply hoare_bind; [apply getBit_level_0|]. intros objTypeBit.
    eapply hoare_bind with (Q := λ _, root_is (1 + 256 + keyBit xxHash32 g0 "type:array")).
    { intros t' [-> Ht']. by apply (add_level_0 _ _ t'). }
    intros [].
    assert (negb (length l =? 0)%nat = true) as ->.
    { by destruct l. }
    eapply hoare_bind; [apply getBit_level_0|]. intros lengthBit.
    eapply hoare_bind with
      (Q := λ _, root_is (1 + 256 + keyBit xxHash32 g0 "type:array"
                          + keyBit xxHash32 g0 ("length:" +:+ Js.natToString (length l)))).
    { intros t' [-> Ht']. by apply (add_level_0 _ _ t'). }
    intros [].
    apply loop_level_0.
    intros i multiplier item z Hitem.
    eapply hoare_bind; [apply getBit_level_0|]. intros indexBit.
    eapply hoare_bind with
      (Q := λ _, root_is (z + keyBit xxHash32 g0 ("[" +:+ Js.natToString i +:+ "]")
                              * multiplier)).
    { intros t' [-> Ht']. by apply (add_level_0 _ _ t'). }
    intros [].
    eapply hoare_bind; [apply add_level_0|]. intros [].
    subst deeper.
    eapply hoare_conseq; [apply child_level_0| | |]; [|done| |done].
    + by eapply Forall_forall in Hrefs.
    + intros u t' Ht'.
      by replace ((keyBit xxHash32 g0 ("[" +:+ Js.natToString i +:+ "]")
                   + type_bit (getType h item)) * multiplier)
        with (keyBit xxHash32 g0 ("[" +:+ Js.natToString i +:+ "]") * multiplier
              + type_bit (getType h item) * multiplier) by ring;
        rewrite Z.add_assoc.
Qed.

End FlatLevel0.

(** X26. The stable identifier of a flat object is
    ["L0:" n0 "-L1:" n1]: [n0] is the seed 1, the bit of the type, the
    bits of ["type:object"], or of ["type:array"] and the length, and for
    each key in sorted order, or each index, the sum of its bit and of
    the type bit of its value times its rank; [n1] is 2 plus the type
    bits of the values. *)
Theorem flat_stable_identifier xxHash32 hash h a config g :
  hash_contract xxHash32 →
  reachable xxHash32 hash h g →
  flat h a = true →
  collisionMode (default (globalConfig g) config) = false →
  returned (generateStructureId xxHash32 h (VRef a) config g)
  = Some ("L0:" +:+ Js.toString (flat_level_0 xxHash32 h g a)
          +:+ "-L1:" +:+ Js.toString (2 + type_bits_sum h (visited_values h a))).
Proof.
  intros Hhash Hreach Hflat Hmode.
  rewrite (returned_stable xxHash32 h a config g (flat_traversed h a Hflat) Hmode
             (reachable_consistent xxHash32 hash h g Hreach)).
  unfold stableIdOf, levels.
  pose proof (traverse_during xxHash32 h g (VRef a)) as Hduring.
  unfold traverse, depth_bound in *.
  assert (∃ n, size h = S n) as [n Hsize].
  { destruct (size h) eqn:Hsize; [|by eexists].
    apply map_size_empty_iff in Hsize. apply flat_cases in Hflat.
    rewrite Hsize in Hflat. by destruct Hflat as [(?&?&?&_)|(?&?&_)]. }
  rewrite Hsize in *.
  pose proof (root_level_1 xxHash32 h n a Hflat (mkTrav g ∅ ∅) (conj eq_refl eq_refl))
    as Hone.
  pose proof (root_level_0 xxHash32 h g n a Hflat (mkTrav g ∅ ∅)
                (conj eq_refl (conj eq_refl eq_refl))) as Hzero.
  destruct (processStructure _ _ _ _ _ _ _) as [[] t|e t|]; [|by destruct Hduring as (_&_&?)|done].
  cbn [fmap option_fmap option_map option_bind mbind]. simpl. f_equal.
  destruct Hzero as [Hroot _].
  rewrite <-(insert_id (levelHashes t) 0%nat _ Hroot) at 1.
  rewrite idParts_insert_0, (structureLevels_level_1 t _ Hone).
  reflexivity.
Qed.

Lemma flat_stable_identifier_witness :
  returned (generateStructureId sample_hash sample_heap (VRef 1%nat) None registered)
  = Some ("L0:" +:+ Js.toString (flat_level_0 sample_hash sample_heap registered 1%nat)
          +:+ "-L1:" +:+ Js.toString (2 + type_bits_sum sample_heap
                                            (visited_values sample_heap 1%nat))).
Proof.
  apply (flat_stable_identifier sample_hash sample_digest sample_heap 1%nat None registered
           sample_hash_contract).
  - apply reachable_perform, reachable_perform, reachable_initial.
  - reflexivity.
  - reflexivity.
Defined.
